(** * langmem: memory reconciliation engine (knowledge/extraction.py)

    A shallow embedding of [MemoryEnricher] and [MemoryStoreEnricher] and the
    properties of the merge engine, the search aggregator, the phase loop and
    the persistence planner. *)

From Stdlib Require Import QArith.
From stdpp Require Import base decidable option list strings gmap sets sorting.

Open Scope string_scope.
Open Scope list_scope.

(** ** Python dictionaries

    A [dict] keeps its keys in insertion order; assigning to a key that is
    already present keeps the key's position.  The engine turns dictionaries
    back into lists ([list(d.values())], [d.items()]), so the order is part of
    the model. *)
Module OrderedDict.
Section defs.
Context {K V : Type} `{EqDecision K}.

(** [d.get(k)] *)
Fixpoint get (k : K) (d : list (K * V)) : option V :=
  match d with
  | [] => None
  | (k', v) :: d' => if decide (k = k') then Some v else get k d'
  end.

(** [k in d] *)
Definition contains (k : K) (d : list (K * V)) : bool :=
  match get k d with Some _ => true | None => false end.

(** [d[k] = v] *)
Fixpoint set (k : K) (v : V) (d : list (K * V)) : list (K * V) :=
  match d with
  | [] => [(k, v)]
  | (k', v') :: d' =>
      if decide (k = k') then (k', v) :: d' else (k', v') :: set k v d'
  end.

(** [d.pop(k, None)] *)
Fixpoint pop (k : K) (d : list (K * V)) : list (K * V) :=
  match d with
  | [] => []
  | (k', v') :: d' =>
      if decide (k = k') then d' else (k', v') :: pop k d'
  end.

(** [for (k, v) in items: d[k] = v] *)
Definition assign_all (d : list (K * V)) (items : list (K * V)) : list (K * V) :=
  foldl (λ d kv, set kv.1 kv.2 d) d items.

(** [{k: v for (k, v) in items}] *)
Definition of_items (items : list (K * V)) : list (K * V) :=
  assign_all [] items.

Definition keys (d : list (K * V)) : list K := d.*1.
Definition values (d : list (K * V)) : list V := d.*2.
End defs.
End OrderedDict.

Module OD := OrderedDict.

(** ** Data model *)

Section Engine.
Context {Json Message ToolArgs Config : Type} `{EqDecision Json}.

(** [SearchItem.value] as the enricher writes it: [{"kind": ..., "content": ...}]. *)
Record Value := { kind : string; content : Json }.

(** [langgraph.store.base.SearchItem] *)
Record SearchItem := {
  namespace : list string;
  key : string;
  value : Value;
  score : option Q
}.

(** A pydantic [BaseModel] instance, as far as the engine looks at it:
    [__repr_name__()], [getattr(m, "json_doc_id", None)] and
    [model_dump(mode="json")]. *)
Record BaseModel := {
  repr_name : string;
  json_doc_id : option string;
  model_dump : Json
}.

(** What an [ExtractedMemory.content] may hold. *)
Inductive payload :=
| PModel (m : BaseModel)
| PRaw (c : Json).

(** [ExtractedMemory(id, content)] *)
Definition ExtractedMemory : Type := string * payload.

(** [(sid, kind, content)] *)
Definition record : Type := string * string * Json.

Definition rid (r : record) : string := r.1.1.

(** Python truthiness of [getattr(model_data, "json_doc_id", None)]. *)
Definition truthy (o : option string) : bool :=
  match o with
  | Some s => negb (String.eqb s EmptyString)
  | None => false
  end.

Definition pop_opt {V : Type} (o : option string) (d : list (string * V)) :
    list (string * V) :=
  match o with Some k => OD.pop k d | None => d end.

Definition contains_opt {V : Type} (o : option string) (d : list (string * V)) : bool :=
  match o with Some k => OD.contains k d | None => false end.

(** ** The merge engine: [MemoryStoreEnricher._apply_enricher_output] *)

Record merge_state := {
  store_dict : list (string * record);
  ephemeral_dict : list (string * record);
  removed_ids : list string
}.

(** One iteration of [for extracted in enricher_output]. *)
Definition apply_one (store_map : list (string * SearchItem))
    (st : merge_state) (extracted : ExtractedMemory) : merge_state :=
  let stable_id := extracted.1 in
  let upsert new_kind new_content :=
    if OD.contains stable_id (store_dict st) then
      {| store_dict := OD.set stable_id (stable_id, new_kind, new_content) (store_dict st);
         ephemeral_dict := ephemeral_dict st;
         removed_ids := removed_ids st |}
    else
      {| store_dict := store_dict st;
         ephemeral_dict :=
           OD.set stable_id (stable_id, new_kind, new_content) (ephemeral_dict st);
         removed_ids := removed_ids st |} in
  match extracted.2 with
  | PModel model_data =>
      if String.eqb (repr_name model_data) "RemoveDoc" then
        let removal_id := json_doc_id model_data in
        {| store_dict := pop_opt removal_id (store_dict st);
           ephemeral_dict := pop_opt removal_id (ephemeral_dict st);
           removed_ids :=
             if truthy removal_id && contains_opt removal_id store_map
             then removed_ids st ++ option_list removal_id
             else removed_ids st |}
      else upsert (repr_name model_data) (model_dump model_data)
  | PRaw model_data =>
      let new_kind :=
        match OD.get stable_id (store_dict st) with
        | Some r => r.1.2
        | None => "Memory"
        end in
      upsert new_kind model_data
  end.

(** The two dictionaries and the empty list the function starts from. *)
Definition merge_init (store_based ephemeral : list record) : merge_state :=
  {| store_dict := OD.of_items (map (λ r : record, (rid r, r)) store_based);
     ephemeral_dict := OD.of_items (map (λ r : record, (rid r, r)) ephemeral);
     removed_ids := [] |}.

Definition _apply_enricher_output (enricher_output : list ExtractedMemory)
    (store_based : list record) (store_map : list (string * SearchItem))
    (ephemeral : list record) : list record * list record * list string :=
  let st := foldl (apply_one store_map) (merge_init store_based ephemeral)
              enricher_output in
  (OD.values (store_dict st), OD.values (ephemeral_dict st), removed_ids st).

(** ** External collaborators

    The language model, the store's ranked search, the namespace template
    and the UUID functions are not part of the engine.  They are taken as
    an environment.  [uuid4 n] is the [n]-th draw from the random source
    behind [uuid.uuid4()]; the draw counter is threaded through the code
    by the [Gen] monad below. *)

(** [store.put] / [store.delete] act on a map from (namespace, key). *)
Abbreviation Store := (gmap (list string * string) Value).

Record Schema := {
  schema_name : string;
  (** [MemoryModel(content=ex)] *)
  with_content : string → BaseModel
}.

(** The arguments [create_extractor] is called with ([tool_choice="any"]
    and [existing_schema_policy=False] are constants). *)
Record ExtractorSpec := {
  tools : list Schema;
  x_enable_inserts : bool;
  x_enable_deletes : bool
}.

(** The extractor's answer: [response["responses"]] and, of each entry of
    [response["response_metadata"]], its [.get("json_doc_id")]. *)
Record ExtractionOutputs := {
  responses : list payload;
  response_metadata : list (option string)
}.

Definition prepared_existing_t : Type := list (string * string * payload).

Record Collaborators := {
  uuid4 : nat → string;
  (** [uuid.uuid5(uuid.NAMESPACE_DNS, s).hex] *)
  uuid5_hex : string → string;
  (** [str(t)] of a tuple of strings *)
  tuple_str : list string → string;
  (** [utils.get_conversation] *)
  get_conversation : list Message → string;
  (** [utils.NamespaceTemplate(namespace)(config)] *)
  namespacer : Config → list string;
  (** [model_dump] of the default schema: the object [{"content": s}] *)
  memory_json : string → Json;
  (** [query_gen.ainvoke(text).tool_calls] and [query_gen.invoke(text).tool_calls],
      each tool call reduced to its ["args"] *)
  query_gen_ainvoke : string → list ToolArgs;
  query_gen_invoke : string → list ToolArgs;
  (** [store.asearch] and [store.search], called with the namespace, the
      tool call's arguments and the limit *)
  store_asearch : Store → list string → ToolArgs → Z → list SearchItem;
  store_search : Store → list string → ToolArgs → Z → list SearchItem;
  (** [create_extractor(...).ainvoke(payload)] and [.invoke(payload)] *)
  extractor_ainvoke :
    ExtractorSpec → list (string * string) → prepared_existing_t → ExtractionOutputs;
  extractor_invoke :
    ExtractorSpec → list (string * string) → prepared_existing_t → ExtractionOutputs
}.

Context (env : Collaborators).

(** ** Drawing UUIDs *)

Definition Gen (A : Type) : Type := nat → A * nat.
Definition ret {A} (a : A) : Gen A := λ n, (a, n).
Definition bind {A B} (c : Gen A) (k : A → Gen B) : Gen B :=
  λ n, let r := c n in k r.1 r.2.
Notation "'let*' x := c 'in' k" := (bind c (λ x, k))
  (at level 10, x pattern, c at level 100, k at level 200).

(** [str(uuid.uuid4())] *)
Definition fresh_uuid : Gen string := λ n, (uuid4 env n, S n).

Fixpoint gen_map {A B} (f : A → Gen B) (l : list A) : Gen (list B) :=
  match l with
  | [] => ret []
  | a :: l' => let* b := f a in let* bs := gen_map f l' in ret (b :: bs)
  end.

(** ** The search aggregator *)

(** [MemoryStoreEnricher._stable_id] *)
Definition _stable_id (item : SearchItem) : string :=
  uuid5_hex env (tuple_str env (namespace item ++ [key item])).

(** The sort key [it.score if it.score is not None else float("-inf")];
    [None] stands for minus infinity. *)
Definition key_le (a b : option Q) : bool :=
  match a, b with
  | None, _ => true
  | Some _, None => false
  | Some x, Some y => Qle_bool x y
  end.

(** [sorted(xs, key=..., reverse=True)]: descending and stable, items with
    equal keys keep their order. *)
Fixpoint insert_desc (x : SearchItem) (l : list SearchItem) : list SearchItem :=
  match l with
  | [] => [x]
  | y :: l' =>
      if key_le (score y) (score x) then x :: y :: l' else y :: insert_desc x l'
  end.

Definition sorted_desc (l : list SearchItem) : list SearchItem :=
  foldr insert_desc [] l.

(** [xs[:n]], also for a negative [n]. *)
Definition slice_to {A} (n : Z) (l : list A) : list A :=
  if (0 <=? n)%Z then take (Z.to_nat n) l
  else take (length l - Z.to_nat (- n)) l.

(** The key an item is merged under, [(tuple(item.namespace), item.key)]. *)
Definition ns_key (item : SearchItem) : list string * string :=
  (namespace item, key item).

(** [a] may stand before [b] in the sorted list: the key of [b] is not
    above the key of [a]. *)
Definition before (a b : SearchItem) : Prop := key_le (score b) (score a) = true.

(** The dictionary [search_results] after the two nested loops. *)
Definition merge_results (search_results_lists : list (list SearchItem)) :
    list (list string * string * SearchItem) :=
  foldl (λ d results,
           foldl (λ d item, OD.set (namespace item, key item) item d) d results)
        [] search_results_lists.

Definition _sort_results (search_results_lists : list (list SearchItem))
    (query_limit : Z) : list (string * SearchItem) :=
  let search_results := merge_results search_results_lists in
  let sorted_results :=
    slice_to query_limit (sorted_desc (OD.values search_results)) in
  OD.of_items (map (λ item, (_stable_id item, item)) sorted_results).

(** ** [MemoryEnricher] *)

Record MemoryEnricher := {
  schemas : list Schema;
  instructions : string;
  enable_inserts : bool;
  enable_deletes : bool
}.

(** [class Memory(BaseModel)], the default schema. *)
Definition Memory : Schema :=
  {| schema_name := "Memory";
     with_content := λ s,
       {| repr_name := "Memory"; json_doc_id := None;
          model_dump := memory_json env s |} |}.

(** [MemoryEnricher.__init__] and [create_memory_enricher];
    [self.schemas = schemas or (Memory,)]. *)
Definition create_memory_enricher (schemas : option (list Schema))
    (instructions : string) (enable_inserts enable_deletes : bool) : MemoryEnricher :=
  {| schemas := match schemas with
                | None | Some [] => [Memory]
                | Some l => l
                end;
     instructions := instructions;
     enable_inserts := enable_inserts;
     enable_deletes := enable_deletes |}.

Definition nl : string := String (Ascii.ascii_of_nat 10) EmptyString.

(** [MemoryEnricher._prepare_messages] *)
Definition _prepare_messages (self : MemoryEnricher) (messages : list Message) :
    Gen (list (string * string)) :=
  let* id_ := fresh_uuid in
  let session :=
    nl +:+ nl +:+ "<session_" +:+ id_ +:+ ">" +:+ nl +:+ get_conversation env messages
       +:+ nl +:+ "</session_" +:+ id_ +:+ ">" in
  ret [("system", "You are a memory subroutine for an AI." +:+ nl +:+ nl);
       ("user",
        instructions self +:+ nl +:+ nl
          +:+ "Enrich, prune, and organize memories based on any new information. "
          +:+ "If an existing memory is incorrect or outdated, update it based on the new information. "
          +:+ "All operations must be done in single parallel call." +:+ session)].

(** The three shapes the type of [existing] allows. *)
Inductive existing_arg :=
| ExStrs (l : list string)
| ExPairs (l : list (string * payload))
| ExTriples (l : list (string * string * payload)).

(** [MemoryEnricher._prepare_existing] *)
Definition _prepare_existing (self : MemoryEnricher) (existing : option existing_arg) :
    Gen prepared_existing_t :=
  match existing with
  | None => ret []
  | Some (ExStrs l) =>
      let MemoryModel := hd Memory (schemas self) in
      gen_map (λ ex, let* u := fresh_uuid in
                     ret (u, "Memory", PModel (with_content MemoryModel ex))) l
  | Some (ExPairs l) =>
      ret (map (λ e : string * payload,
                  let kind := match e.2 with
                              | PModel m => repr_name m
                              | PRaw _ => "__any__"
                              end in
                  (e.1, kind, e.2)) l)
  | Some (ExTriples l) => ret l
  end.

(** [(rmeta.get("json_doc_id", str(uuid.uuid4())), r)]: the default argument
    is evaluated, and a UUID drawn, for every response. *)
Definition result_of (rr : payload * option string) : Gen ExtractedMemory :=
  let* u := fresh_uuid in ret (default u rr.2, rr.1).

(** The loop "Merge in any existing memories not updated". *)
Definition merge_existing (results : list ExtractedMemory)
    (prepared_existing : prepared_existing_t) : list ExtractedMemory :=
  foldl (λ results (mem_tuple : string * string * payload),
           let mem_id := mem_tuple.1.1 in
           let mem := mem_tuple.2 in
           if existsb (λ r : ExtractedMemory, String.eqb mem_id r.1) results
           then results
           else results ++ [(mem_id, mem)])
        results prepared_existing.

(** [MemoryEnricher.ainvoke] *)
Definition MemoryEnricher_ainvoke (self : MemoryEnricher) (messages : list Message)
    (existing : option existing_arg) : Gen (list ExtractedMemory) :=
  let* prepared_messages := _prepare_messages self messages in
  let* prepared_existing := _prepare_existing self existing in
  let extractor :=
    {| tools := schemas self;
       x_enable_inserts := enable_inserts self;
       x_enable_deletes := enable_deletes self |} in
  let response := extractor_ainvoke env extractor prepared_messages prepared_existing in
  let* results :=
    gen_map result_of (zip (responses response) (response_metadata response)) in
  ret (merge_existing results prepared_existing).

(** [MemoryEnricher.invoke] *)
Definition MemoryEnricher_invoke (self : MemoryEnricher) (messages : list Message)
    (existing : option existing_arg) : Gen (list ExtractedMemory) :=
  let* prepared_messages := _prepare_messages self messages in
  let* prepared_existing := _prepare_existing self existing in
  let extractor :=
    {| tools := schemas self;
       x_enable_inserts := enable_inserts self;
       x_enable_deletes := enable_deletes self |} in
  let response := extractor_invoke env extractor prepared_messages prepared_existing in
  let* results :=
    gen_map (λ rr : payload * option string,
               let* u := fresh_uuid in ret (default u rr.2, rr.1))
            (zip (responses response) (response_metadata response)) in
  ret (foldl (λ results (mem_tuple : string * string * payload),
                if existsb (λ r : ExtractedMemory, String.eqb mem_tuple.1.1 r.1) results
                then results
                else results ++ [(mem_tuple.1.1, mem_tuple.2)])
             results prepared_existing).

(** ** [MemoryStoreEnricher] *)

(** [class MemoryPhase(TypedDict, total=False)]: every key may be absent. *)
Record MemoryPhase := {
  ph_instructions : option string;
  ph_include_messages : option bool;
  ph_enable_inserts : option bool;
  ph_enable_deletes : option bool
}.

Record MemoryStoreEnricher := {
  se_schemas : option (list Schema);
  se_instructions : string;
  se_enable_inserts : bool;
  se_enable_deletes : bool;
  query_limit : Z;
  phases : list MemoryPhase;
  memory_enricher : MemoryEnricher
}.

(** [MemoryStoreEnricher.__init__] and [create_memory_store_enricher];
    [phases] is [phases or []]. *)
Definition create_memory_store_enricher (schemas : option (list Schema))
    (instructions : string) (enable_inserts enable_deletes : bool)
    (query_limit : Z) (phases : option (list MemoryPhase)) : MemoryStoreEnricher :=
  {| se_schemas := schemas;
     se_instructions := instructions;
     se_enable_inserts := enable_inserts;
     se_enable_deletes := enable_deletes;
     query_limit := query_limit;
     phases := default [] phases;
     memory_enricher :=
       create_memory_enricher schemas instructions enable_inserts enable_deletes |}.

(** [MemoryStoreEnricher._build_phase_enricher] *)
Definition _build_phase_enricher (self : MemoryStoreEnricher) (phase : MemoryPhase) :
    MemoryEnricher :=
  create_memory_enricher (se_schemas self)
    (default "You are a memory manager. Deduplicate, consolidate, and enrich these memories."
             (ph_instructions phase))
    (default true (ph_enable_inserts phase))
    (default true (ph_enable_deletes phase)).

(** A pending mutation of the store. *)
Record Put := {
  put_namespace : list string;
  put_key : string;
  put_value : Value
}.

(** The working sets of a run: [store_based], [ephemeral], [removed_ids]. *)
Record run_state := {
  rs_store_based : list record;
  rs_ephemeral : list record;
  rs_removed_ids : gset string
}.

(** [[(sid, item.value["kind"], item.value["content"]) for sid, item in store_map.items()]] *)
Definition initial_store_based (store_map : list (string * SearchItem)) : list record :=
  map (λ si : string * SearchItem, (si.1, kind (value si.2), content (value si.2)))
      store_map.

(** The records as they are handed to the enricher under ["existing"]. *)
Definition as_existing (l : list record) : existing_arg :=
  ExTriples (map (λ r : record, (r.1.1, r.1.2, PRaw r.2)) l).

(** [store_based, ephemeral, removed = self._apply_enricher_output(...)]
    followed by [removed_ids.update(removed)]. *)
Definition absorb (store_map : list (string * SearchItem)) (st : run_state)
    (enriched : list ExtractedMemory) : run_state :=
  let '(store_based, ephemeral, removed) :=
    _apply_enricher_output enriched (rs_store_based st) store_map (rs_ephemeral st) in
  {| rs_store_based := store_based;
     rs_ephemeral := ephemeral;
     rs_removed_ids := rs_removed_ids st ∪ list_to_set removed |}.

(** The query text sent to the query model. *)
Definition query_text (messages : list Message) : string :=
  "Use parallel tool calling to search for distinct memories relevant to this conversation:"
    +:+ nl +:+ nl +:+ "<convo>" +:+ nl +:+ get_conversation env messages +:+ nl
    +:+ "</convo>.".

(** *** The asynchronous path *)

Definition ainvoke_search (self : MemoryStoreEnricher) (store : Store)
    (namespace : list string) (messages : list Message) : list (string * SearchItem) :=
  let query_req := query_gen_ainvoke env (query_text messages) in
  let search_results_lists :=
    map (λ tc, store_asearch env store namespace tc (query_limit self)) query_req in
  _sort_results search_results_lists (query_limit self).

(** The first enrichment, on the records found in the store. *)
Definition ainvoke_enrich (self : MemoryStoreEnricher) (messages : list Message)
    (store_map : list (string * SearchItem)) : Gen run_state :=
  let store_based := initial_store_based store_map in
  let st := {| rs_store_based := store_based; rs_ephemeral := [];
               rs_removed_ids := ∅ |} in
  let* enriched :=
    MemoryEnricher_ainvoke (memory_enricher self) messages
      (Some (as_existing store_based)) in
  ret (absorb store_map st enriched).

(** The body of [for phase in self.phases]. *)
Definition ainvoke_phase (self : MemoryStoreEnricher) (messages : list Message)
    (store_map : list (string * SearchItem)) (st : run_state) (phase : MemoryPhase) :
    Gen run_state :=
  let phase_enricher := _build_phase_enricher self phase in
  let phase_messages :=
    if default false (ph_include_messages phase) then messages else [] in
  let* phase_enriched :=
    MemoryEnricher_ainvoke phase_enricher phase_messages
      (Some (as_existing (rs_store_based st ++ rs_ephemeral st))) in
  ret (absorb store_map st phase_enriched).

Fixpoint ainvoke_phases (self : MemoryStoreEnricher) (messages : list Message)
    (store_map : list (string * SearchItem)) (st : run_state)
    (phases : list MemoryPhase) : Gen run_state :=
  match phases with
  | [] => ret st
  | phase :: rest =>
      let* st' := ainvoke_phase self messages store_map st phase in
      ainvoke_phases self messages store_map st' rest
  end.

(** The put, if any, that the loop over [final_mem] appends for one record. *)
Definition put_of (store_map : list (string * SearchItem)) (namespace_ : list string)
    (removed_ids : gset string) (r : record) : option Put :=
  let '(sid, kind_, content_) := r in
  if decide (sid ∈ removed_ids) then None
  else match OD.get sid store_map with
       | Some old_art =>
           if bool_decide (kind (value old_art) ≠ kind_
                           ∨ content (value old_art) ≠ content_)
           then Some {| put_namespace := namespace old_art;
                        put_key := key old_art;
                        put_value := {| kind := kind_; content := content_ |} |}
           else None
       | None =>
           Some {| put_namespace := namespace_;
                   put_key := sid;
                   put_value := {| kind := kind_; content := content_ |} |}
       end.

Definition plan_puts (store_map : list (string * SearchItem)) (namespace : list string)
    (removed_ids : gset string) (final_mem : list record) : list Put :=
  foldl (λ final_puts r,
           match put_of store_map namespace removed_ids r with
           | Some p => final_puts ++ [p]
           | None => final_puts
           end) [] final_mem.

Definition plan_deletes (store_map : list (string * SearchItem))
    (removed_ids : gset string) : list (list string * string) :=
  foldl (λ final_deletes sid,
           match OD.get sid store_map with
           | Some art => final_deletes ++ [(namespace art, key art)]
           | None => final_deletes
           end) [] (elements removed_ids).

(** [store.put] on the fields of a put, and [store.delete(ns, key)] *)
Definition store_put (store : Store) (p : Put) : Store :=
  <[(put_namespace p, put_key p) := put_value p]> store.
Definition store_delete (store : Store) (nk : list string * string) : Store :=
  delete nk store.

(** The local variables of a finished run, and the store it leaves. *)
Record Outcome := {
  o_store_map : list (string * SearchItem);
  o_store_based : list record;
  o_ephemeral : list record;
  o_removed_ids : gset string;
  o_final_puts : list Put;
  o_final_deletes : list (list string * string);
  o_store : Store
}.

Definition ainvoke_run (self : MemoryStoreEnricher) (store : Store) (config : Config)
    (messages : list Message) : Gen Outcome :=
  let namespace := namespacer env config in
  let store_map := ainvoke_search self store namespace messages in
  let* st := ainvoke_enrich self messages store_map in
  let* st := ainvoke_phases self messages store_map st (phases self) in
  let final_mem := rs_store_based st ++ rs_ephemeral st in
  let final_puts := plan_puts store_map namespace (rs_removed_ids st) final_mem in
  let final_deletes := plan_deletes store_map (rs_removed_ids st) in
  ret {| o_store_map := store_map;
         o_store_based := rs_store_based st;
         o_ephemeral := rs_ephemeral st;
         o_removed_ids := rs_removed_ids st;
         o_final_puts := final_puts;
         o_final_deletes := final_deletes;
         o_store := foldl store_delete (foldl store_put store final_puts) final_deletes |}.

(** [MemoryStoreEnricher.ainvoke]: the value it returns. *)
Definition ainvoke (self : MemoryStoreEnricher) (store : Store) (config : Config)
    (messages : list Message) : Gen (list Put) :=
  let* o := ainvoke_run self store config messages in ret (o_final_puts o).

(** *** The synchronous path

    [MemoryStoreEnricher.invoke] repeats the text of [ainvoke] with the
    blocking calls; it is transcribed on its own, loop by loop. *)

Fixpoint invoke_phases (self : MemoryStoreEnricher) (messages : list Message)
    (store_map : list (string * SearchItem)) (st : run_state)
    (phases : list MemoryPhase) : Gen run_state :=
  match phases with
  | [] => ret st
  | phase :: rest =>
      let phase_enricher := _build_phase_enricher self phase in
      let phase_messages :=
        if default false (ph_include_messages phase) then messages else [] in
      let* phase_enriched :=
        MemoryEnricher_invoke phase_enricher phase_messages
          (Some (ExTriples (map (λ r : record, (r.1.1, r.1.2, PRaw r.2))
                                (rs_store_based st ++ rs_ephemeral st)))) in
      let '(store_based, ephemeral, removed) :=
        _apply_enricher_output phase_enriched (rs_store_based st) store_map
          (rs_ephemeral st) in
      invoke_phases self messages store_map
        {| rs_store_based := store_based; rs_ephemeral := ephemeral;
           rs_removed_ids := rs_removed_ids st ∪ list_to_set removed |} rest
  end.

Definition invoke_run (self : MemoryStoreEnricher) (store : Store) (config : Config)
    (messages : list Message) : Gen Outcome :=
  let namespace_ := namespacer env config in
  let query_req := query_gen_invoke env (query_text messages) in
  let search_results_lists :=
    map (λ tc, store_search env store namespace_ tc (query_limit self)) query_req in
  let store_map := _sort_results search_results_lists (query_limit self) in
  let store_based :=
    map (λ si : string * SearchItem, (si.1, kind (value si.2), content (value si.2)))
        store_map in
  let* enriched :=
    MemoryEnricher_invoke (memory_enricher self) messages
      (Some (ExTriples (map (λ r : record, (r.1.1, r.1.2, PRaw r.2)) store_based))) in
  let '(store_based, ephemeral, removed) :=
    _apply_enricher_output enriched store_based store_map [] in
  let* st :=
    invoke_phases self messages store_map
      {| rs_store_based := store_based; rs_ephemeral := ephemeral;
         rs_removed_ids := ∅ ∪ list_to_set removed |} (phases self) in
  let removed_ids := rs_removed_ids st in
  let final_mem := rs_store_based st ++ rs_ephemeral st in
  let final_puts :=
    foldl (λ final_puts (r : record),
             let '(sid, kind_, content_) := r in
             if decide (sid ∈ removed_ids) then final_puts
             else match OD.get sid store_map with
                  | Some old_art =>
                      if bool_decide (kind (value old_art) ≠ kind_
                                      ∨ content (value old_art) ≠ content_)
                      then final_puts ++
                             [{| put_namespace := namespace old_art;
                                 put_key := key old_art;
                                 put_value := {| kind := kind_; content := content_ |} |}]
                      else final_puts
                  | None =>
                      final_puts ++
                        [{| put_namespace := namespace_;
                            put_key := sid;
                            put_value := {| kind := kind_; content := content_ |} |}]
                  end) [] final_mem in
  let final_deletes :=
    foldl (λ final_deletes sid,
             if OD.contains sid store_map then
               match OD.get sid store_map with
               | Some art => final_deletes ++ [(namespace art, key art)]
               | None => final_deletes
               end
             else final_deletes) [] (elements removed_ids) in
  let store' :=
    foldl (λ st (p : Put), <[(put_namespace p, put_key p) := put_value p]> st)
          store final_puts in
  let store'' := foldl (λ st nk, delete nk st) store' final_deletes in
  ret {| o_store_map := store_map;
         o_store_based := rs_store_based st;
         o_ephemeral := rs_ephemeral st;
         o_removed_ids := removed_ids;
         o_final_puts := final_puts;
         o_final_deletes := final_deletes;
         o_store := store'' |}.

(** [MemoryStoreEnricher.invoke]: the value it returns. *)
Definition invoke (self : MemoryStoreEnricher) (store : Store) (config : Config)
    (messages : list Message) : Gen (list Put) :=
  let* o := invoke_run self store config messages in ret (o_final_puts o).

(** ** Observing a run

    The definitions below add nothing to the program: they name what an
    operation does and record, step by step, what [ainvoke] hands to the
    enricher and what comes back, so that properties of a run can refer to
    the phases.  Step [0] is the first enrichment, step [j+1] is
    [self.phases[j]]. *)

(** The operation is a [RemoveDoc]. *)
Definition is_delete (e : ExtractedMemory) : bool :=
  match e.2 with
  | PModel m => String.eqb (repr_name m) "RemoveDoc"
  | PRaw _ => false
  end.

(** The operation marks id [x] for deletion. *)
Definition deletes (x : string) (e : ExtractedMemory) : Prop :=
  ∃ m, e.2 = PModel m ∧ String.eqb (repr_name m) "RemoveDoc" = true
       ∧ json_doc_id m = Some x.

(** The operation writes content under id [x]. *)
Definition upserts (x : string) (e : ExtractedMemory) : Prop :=
  is_delete e = false ∧ e.1 = x.

(** The kind and the content a non-delete operation carries, where
    [carried] is the kind used for an unstructured payload. *)
Definition op_kind (carried : string) (e : ExtractedMemory) : string :=
  match e.2 with PModel m => repr_name m | PRaw _ => carried end.
Definition op_content (e : ExtractedMemory) : Json :=
  match e.2 with PModel m => model_dump m | PRaw c => c end.

(** [MemoryEnricher.ainvoke] up to the merge loop: the extractor's
    [results] and the prepared existing records. *)
Definition MemoryEnricher_results (self : MemoryEnricher) (messages : list Message)
    (existing : option existing_arg) : Gen (list ExtractedMemory * prepared_existing_t) :=
  let* prepared_messages := _prepare_messages self messages in
  let* prepared_existing := _prepare_existing self existing in
  let extractor :=
    {| tools := schemas self;
       x_enable_inserts := enable_inserts self;
       x_enable_deletes := enable_deletes self |} in
  let response := extractor_ainvoke env extractor prepared_messages prepared_existing in
  let* results :=
    gen_map result_of (zip (responses response) (response_metadata response)) in
  ret (results, prepared_existing).

Record step_log := {
  (** the records passed as ["existing"] *)
  sl_context : list record;
  (** what the extractor proposed *)
  sl_results : list ExtractedMemory;
  (** the enricher's output, which the merge engine processes *)
  sl_ops : list ExtractedMemory;
  (** the working sets after the step *)
  sl_state : run_state
}.

Definition ainvoke_step (store_map : list (string * SearchItem))
    (enricher : MemoryEnricher) (msgs : list Message) (context : list record)
    (st : run_state) : Gen step_log :=
  let* rp := MemoryEnricher_results enricher msgs (Some (as_existing context)) in
  let ops := merge_existing rp.1 rp.2 in
  ret {| sl_context := context; sl_results := rp.1; sl_ops := ops;
         sl_state := absorb store_map st ops |}.

Fixpoint trace_phases (self : MemoryStoreEnricher) (messages : list Message)
    (store_map : list (string * SearchItem)) (st : run_state)
    (phases : list MemoryPhase) : Gen (list step_log) :=
  match phases with
  | [] => ret []
  | phase :: rest =>
      let* lg :=
        ainvoke_step store_map (_build_phase_enricher self phase)
          (if default false (ph_include_messages phase) then messages else [])
          (rs_store_based st ++ rs_ephemeral st) st in
      let* lgs := trace_phases self messages store_map (sl_state lg) rest in
      ret (lg :: lgs)
  end.

Definition ainvoke_trace (self : MemoryStoreEnricher) (store : Store) (config : Config)
    (messages : list Message) : Gen (list step_log) :=
  let store_map := ainvoke_search self store (namespacer env config) messages in
  let store_based := initial_store_based store_map in
  let* lg :=
    ainvoke_step store_map (memory_enricher self) messages store_based
      {| rs_store_based := store_based; rs_ephemeral := [];
         rs_removed_ids := ∅ |} in
  let* lgs := trace_phases self messages store_map (sl_state lg) (phases self) in
  ret (lg :: lgs).

(** *** Invariants of the working sets *)

(** The items a list of records is turned into a dictionary from. *)
Definition as_items (l : list record) : list (string * record) :=
  map (λ r : record, (rid r, r)) l.

(** Every record sits under its own id. *)
Definition keyed (d : list (string * record)) : Prop :=
  ∀ k r, (k, r) ∈ d → rid r = k.

(** Both dictionaries have unique keys and hold each record under its id. *)
Definition merge_wf (st : merge_state) : Prop :=
  NoDup (OD.keys (store_dict st)) ∧ NoDup (OD.keys (ephemeral_dict st)) ∧
  keyed (store_dict st) ∧ keyed (ephemeral_dict st).

(** The id is in neither dictionary. *)
Definition absent (x : string) (st : merge_state) : Prop :=
  x ∉ OD.keys (store_dict st) ∧ x ∉ OD.keys (ephemeral_dict st).

(** An operation that leaves the record [(x, k, c)] as it is: it does not
    delete [x], and if it writes under [x] it writes [k] and [c] again. *)
Definition benign (x k : string) (c : Json) (e : ExtractedMemory) : Prop :=
  ¬ deletes x e ∧ (upserts x e → op_kind k e = k ∧ op_content e = c).

(** The put of a changed store-backed record, at the entry's own place. *)
Definition put_at (art : SearchItem) (r : record) : Put :=
  {| put_namespace := namespace art; put_key := key art;
     put_value := {| kind := r.1.2; content := r.2 |} |}.

(** The put of an ephemeral record, in the target namespace under its id. *)
Definition put_new (target : list string) (r : record) : Put :=
  {| put_namespace := target; put_key := rid r;
     put_value := {| kind := r.1.2; content := r.2 |} |}.

(** The record's kind or content is not the one in the snapshot entry. *)
Definition differs (art : SearchItem) (r : record) : Prop :=
  kind (value art) ≠ r.1.2 ∨ content (value art) ≠ r.2.

#[global] Instance differs_dec art r : Decision (differs art r).
Proof. unfold differs. apply _. Defined.

(** The put, if any, of a store-backed record: at its snapshot entry, when
    it differs from it. *)
Definition put_changed (store_map : list (string * SearchItem)) (r : record) :
    option Put :=
  match OD.get (rid r) store_map with
  | Some art => if decide (differs art r) then Some (put_at art r) else None
  | None => None
  end.

(** The place of a snapshot entry in the store. *)
Definition place (art : SearchItem) : list string * string :=
  (namespace art, key art).

(** What holds of the two dictionaries inside the merge engine, where
    [R0] are the ids removed by earlier steps: ids are unique; a
    store-backed id is in the snapshot, is not removed and is not
    ephemeral; removed ids are snapshot ids; a snapshot id that is no
    longer store-backed is removed (or is the empty string, which a delete
    pops without recording). *)
Definition merge_inv (store_map : list (string * SearchItem)) (R0 : gset string)
    (st : merge_state) : Prop :=
  NoDup (OD.keys (store_dict st)) ∧ NoDup (OD.keys (ephemeral_dict st)) ∧
  keyed (store_dict st) ∧ keyed (ephemeral_dict st) ∧
  (∀ x, x ∈ OD.keys (store_dict st) →
        x ∈ OD.keys store_map ∧ x ∉ R0 ∧ x ∉ removed_ids st
        ∧ x ∉ OD.keys (ephemeral_dict st)) ∧
  (∀ x, x ∈ R0 ∨ x ∈ removed_ids st → x ∈ OD.keys store_map) ∧
  (∀ x, x ∈ OD.keys store_map →
        x ∈ OD.keys (store_dict st) ∨ x ∈ R0 ∨ x ∈ removed_ids st
        ∨ x = EmptyString).

(** The same, of the working sets between two steps. *)
Definition run_inv (store_map : list (string * SearchItem)) (st : run_state) : Prop :=
  NoDup (rid <$> rs_store_based st) ∧ NoDup (rid <$> rs_ephemeral st) ∧
  (∀ x, x ∈ rid <$> rs_store_based st →
        x ∈ OD.keys store_map ∧ x ∉ rs_removed_ids st
        ∧ x ∉ rid <$> rs_ephemeral st) ∧
  (∀ x, x ∈ rs_removed_ids st → x ∈ OD.keys store_map) ∧
  (∀ x, x ∈ OD.keys store_map →
        x ∈ rid <$> rs_store_based st ∨ x ∈ rs_removed_ids st ∨ x = EmptyString).

(** *** The shape of a trace *)

(** The state a list of steps ends in, [st] when there is none. *)
Definition final_state (st : run_state) (lgs : list step_log) : run_state :=
  from_option sl_state st (last lgs).

(** A step that starts from the working sets [prev]: the context is
    [store_based + ephemeral], the operations are the extractor's results
    followed by the context records no result names, and the new working
    sets are what the merge engine makes of them. *)
Definition step_ok (store_map : list (string * SearchItem)) (prev : run_state)
    (lg : step_log) : Prop :=
  sl_context lg = rs_store_based prev ++ rs_ephemeral prev ∧
  sl_ops lg =
    merge_existing (sl_results lg)
      (map (λ r : record, (r.1.1, r.1.2, PRaw r.2)) (sl_context lg)) ∧
  sl_state lg = absorb store_map prev (sl_ops lg).

Fixpoint trace_ok (store_map : list (string * SearchItem)) (prev : run_state)
    (lgs : list step_log) : Prop :=
  match lgs with
  | [] => True
  | lg :: rest => step_ok store_map prev lg ∧ trace_ok store_map (sl_state lg) rest
  end.

(** The working sets a run starts from. *)
Definition initial_state (store_map : list (string * SearchItem)) : run_state :=
  {| rs_store_based := initial_store_based store_map; rs_ephemeral := [];
     rs_removed_ids := ∅ |}.

(** ** The search pipeline of [create_memory_searcher] *)

(** The key [return_sorted] merges under: the tuple of the namespace's
    parts followed by the key. *)
Definition flat_key (item : SearchItem) : list string :=
  namespace item ++ [key item].

(** Its sort key, [item.score if item.score is not None else 0]. *)
Definition score_or_zero (item : SearchItem) : Q := default 0%Q (score item).

Fixpoint insert_by_score (x : SearchItem) (l : list SearchItem) : list SearchItem :=
  match l with
  | [] => [x]
  | y :: l' =>
      if Qle_bool (score_or_zero y) (score_or_zero x) then x :: y :: l'
      else y :: insert_by_score x l'
  end.

(** The dictionary [artifacts]; a message's artifact may be [None]. *)
Definition artifacts_of (tool_messages : list (option (list SearchItem))) :
    list (list string * SearchItem) :=
  foldl (λ d msg,
           foldl (λ d item, OD.set (flat_key item) item d) d (default [] msg))
        [] tool_messages.

(** [create_memory_searcher.return_sorted] *)
Definition return_sorted (tool_messages : list (option (list SearchItem))) :
    list SearchItem :=
  foldr insert_by_score [] (OD.values (artifacts_of tool_messages)).

(** ** Calling the enrichers *)

(** [MemoryEnricher.__call__]: [existing], when given, is a sequence of
    [ExtractedMemory], pairs of an id and a content. *)
Definition MemoryEnricher_call (self : MemoryEnricher) (messages : list Message)
    (existing : option (list ExtractedMemory)) : Gen (list ExtractedMemory) :=
  MemoryEnricher_ainvoke self messages (ExPairs <$> existing).

(** [MemoryStoreEnricher.__call__] *)
Definition MemoryStoreEnricher_call (self : MemoryStoreEnricher) (store : Store)
    (config : Config) (messages : list Message) : Gen (list Put) :=
  ainvoke self store config messages.

(** The kind [_prepare_existing] gives a pair's value. *)
Definition pair_kind (v : payload) : string :=
  match v with PModel m => repr_name m | PRaw _ => "__any__" end.

(** The operation writes under [x] or deletes [x]. *)
Definition names (x : string) (e : ExtractedMemory) : Prop :=
  upserts x e ∨ deletes x e.

(** A record as it is after being handed back unstructured under an id
    that is not store-backed: same id and content, kind "Memory". *)
Definition reset_kind (r : record) : record := (rid r, "Memory", r.2).

End Engine.

(** ** Dictionaries keyed by a function of the value

    Both aggregators build a dictionary whose key is computed from the
    item.  Seen from the values, assigning an item replaces the first value
    with the same key, or appends the item. *)
Section keyed_by.
Context {K A : Type} `{EqDecision K} (kf : A → K).

Fixpoint put_by (a : A) (vs : list A) : list A :=
  match vs with
  | [] => [a]
  | v :: vs' => if decide (kf a = kf v) then a :: vs' else v :: put_by a vs'
  end.

Definition tag_by (vs : list A) : list (K * A) := (λ v, (kf v, v)) <$> vs.

End keyed_by.

(** ** The thread summarizer's input, [create_thread_extractor.merge_messages]

    The input is a dictionary; [get_conversation] stands for
    [utils.get_conversation] and values are left abstract.  [None] is the
    [KeyError] of [input["messages"]]. *)
Section thread_extractor.
Context {V : Type} (get_conversation : V → V).

Definition merge_messages (input : list (string * V)) : option (list (string * V)) :=
  match OD.get "messages" input with
  | None => None
  | Some messages =>
      let conversation := get_conversation messages in
      Some (OD.assign_all [("conversation", conversation)]
              (filter (λ kv : string * V, kv.1 ≠ "messages") input))
  end.

End thread_extractor.

(** ** A concrete environment

    Strings for JSON values, messages, tool arguments and the run
    configuration; collaborators simple enough to evaluate. *)
Module Demo.

Definition search_all (store : gmap (list string * string) (@Value string))
    (ns : list string) (args : string) (limit : Z) : list (@SearchItem string) :=
  (λ kv : list string * string * Value,
     {| namespace := kv.1.1; key := kv.1.2; value := kv.2; score := None |})
    <$> map_to_list store.

(** The [n]-th UUID: [n+1] letters [u]. *)
Fixpoint letters (n : nat) : string :=
  match n with
  | O => "u"
  | S n' => "u" +:+ letters n'
  end.

(** An environment around a given extractor.  The stable id is the path of
    the entry with an [h:] in front. *)
Definition env_of
    (ex : @ExtractorSpec string → list (string * string) →
          @prepared_existing_t string → @ExtractionOutputs string) :
    @Collaborators string string string string :=
  {| uuid4 := letters;
     uuid5_hex := λ s, "h:" +:+ s;
     tuple_str := String.concat "/";
     get_conversation := String.concat " ";
     namespacer := λ user, ["memories"; user];
     memory_json := λ s, s;
     query_gen_ainvoke := λ _, ["q"];
     query_gen_invoke := λ _, ["q"];
     store_asearch := search_all;
     store_search := search_all;
     extractor_ainvoke := ex;
     extractor_invoke := ex |}.

(** An extractor that proposes nothing. *)
Definition silent : @ExtractorSpec string → list (string * string) →
    @prepared_existing_t string → @ExtractionOutputs string :=
  λ _ _ _, {| responses := []; response_metadata := [] |}.

Definition RemoveDoc (x : string) : @payload string :=
  PModel {| repr_name := "RemoveDoc"; json_doc_id := Some x; model_dump := x |}.

Definition Note (kind_ body : string) : @payload string :=
  PModel {| repr_name := kind_; json_doc_id := None; model_dump := body |}.

Definition item (ns : list string) (k kind_ body : string) (sc : option Q) :
    @SearchItem string :=
  {| namespace := ns; key := k; value := {| kind := kind_; content := body |};
     score := sc |}.

Definition enricher : @MemoryStoreEnricher string :=
  create_memory_store_enricher (env_of silent) None "Extract." true true 5 None.

Definition store1 : gmap (list string * string) (@Value string) :=
  {[ (["memories"; "ann"], "K") := {| kind := "Memory"; content := "likes sushi" |} ]}.


(** A scripted extractor.  Allowed to insert, it proposes a new memory
    when it is shown no record and the removal of the first record it is
    shown otherwise; not allowed to insert, it writes under the id [uu]. *)
Definition scripted : @ExtractorSpec string → list (string * string) →
    @prepared_existing_t string → @ExtractionOutputs string :=
  λ spec _ existing,
    if x_enable_inserts spec then
      match existing with
      | [] => {| responses := [Note "Memory" "likes sushi"];
                 response_metadata := [None] |}
      | t :: _ => {| responses := [RemoveDoc t.1.1];
                     response_metadata := [Some t.1.1] |}
      end
    else {| responses := [Note "Memory" "likes pasta"];
            response_metadata := [Some "uu"] |}.

Definition no_insert_phase : MemoryPhase :=
  {| ph_instructions := None; ph_include_messages := None;
     ph_enable_inserts := Some false; ph_enable_deletes := None |}.

Definition default_phase : MemoryPhase :=
  {| ph_instructions := None; ph_include_messages := None;
     ph_enable_inserts := None; ph_enable_deletes := None |}.

(** First enrichment, then a default phase, then a phase without inserts. *)
Definition three_steps : @MemoryStoreEnricher string :=
  create_memory_store_enricher (env_of scripted) None "Extract." true true 5
    (Some [default_phase; no_insert_phase]).

Definition one_step : @MemoryStoreEnricher string :=
  create_memory_store_enricher (env_of scripted) None "Extract." true true 5 None.


(** An extractor that always proposes one new memory. *)
Definition adder : @ExtractorSpec string → list (string * string) →
    @prepared_existing_t string → @ExtractionOutputs string :=
  λ _ _ _, {| responses := [Note "Memory" "has a cat"];
              response_metadata := [None] |}.

Definition two_steps_with (ex : @ExtractorSpec string → list (string * string) →
    @prepared_existing_t string → @ExtractionOutputs string) :
    @MemoryStoreEnricher string :=
  create_memory_store_enricher (env_of ex) None "Extract." true true 5
    (Some [default_phase]).


(** Two entries of one namespace, scored 0.9 and 0.7. *)
Definition high : @SearchItem string :=
  item ["memories"; "ann"] "K1" "Memory" "likes sushi" (Some (9 # 10)%Q).
Definition low : @SearchItem string :=
  item ["memories"; "ann"] "K2" "Memory" "has a cat" (Some (7 # 10)%Q).

Definition plain_enricher : @MemoryEnricher string :=
  create_memory_enricher (env_of silent) None "Extract." true false.

(** An extractor that proposes one structured memory when it is shown no
    record, and nothing otherwise. *)
Definition first_only : @ExtractorSpec string → list (string * string) →
    @prepared_existing_t string → @ExtractionOutputs string :=
  λ _ _ existing,
    match existing with
    | [] => {| responses := [Note "Preference" "dark mode"];
               response_metadata := [None] |}
    | _ :: _ => {| responses := []; response_metadata := [] |}
    end.

(** An extractor that proposes the removal of the first record it is
    shown, and writes under the stable id of the entry [K] when it is shown
    none. *)
Definition reviver : @ExtractorSpec string → list (string * string) →
    @prepared_existing_t string → @ExtractionOutputs string :=
  λ _ _ existing,
    match existing with
    | t :: _ => {| responses := [RemoveDoc t.1.1];
                   response_metadata := [Some t.1.1] |}
    | [] => {| responses := [Note "Memory" "likes pasta"];
               response_metadata := [Some "h:memories/ann/K"] |}
    end.

End Demo.

(** * Properties *)

(** ** Dictionaries *)
Section dict_facts.
Context {K V : Type} `{EqDecision K}.
Implicit Types (k : K) (v : V) (d items : list (K * V)).

Lemma get_None k d : OD.get k d = None ↔ k ∉ OD.keys d.
Proof.
  induction d as [|[k' v'] d IH]; simpl.
  - split; [intros _; apply not_elem_of_nil | done].
  - case_decide as Hk.
    + subst. split; [done | intros []; left].
    + rewrite IH, not_elem_of_cons. naive_solver.
Qed.

Lemma get_Some_elem k v d : OD.get k d = Some v → (k, v) ∈ d.
Proof.
  induction d as [|[k' v'] d IH]; simpl; [done |].
  case_decide; intros; simplify_eq; [left | right; auto].
Qed.

Lemma get_Some_values k v d : OD.get k d = Some v → v ∈ OD.values d.
Proof.
  intros Hget. apply get_Some_elem in Hget. unfold OD.values.
  apply list_elem_of_fmap. by exists (k, v).
Qed.

Lemma elem_get k v d : NoDup (OD.keys d) → (k, v) ∈ d → OD.get k d = Some v.
Proof.
  induction d as [|[k' v'] d IH]; simpl; intros Hnd Hin.
  - by apply elem_of_nil in Hin.
  - apply NoDup_cons in Hnd as [Hk' Hnd].
    apply elem_of_cons in Hin as [Heq | Hin].
    + simplify_eq. by rewrite decide_True.
    + case_decide; [| auto]. subst. exfalso. apply Hk'.
      apply list_elem_of_fmap. by exists (k', v).
Qed.

Lemma contains_true k d : OD.contains k d = true ↔ k ∈ OD.keys d.
Proof.
  unfold OD.contains. destruct (OD.get k d) eqn:E.
  - split; [intros _ | done]. destruct (decide (k ∈ OD.keys d)); [done |].
    apply get_None in n. congruence.
  - apply get_None in E. split; [done | intros; contradiction].
Qed.

Lemma contains_false k d : OD.contains k d = false ↔ k ∉ OD.keys d.
Proof.
  rewrite <- contains_true. destruct (OD.contains k d); naive_solver.
Qed.

Lemma get_set k' k v d :
  OD.get k' (OD.set k v d) = if decide (k' = k) then Some v else OD.get k' d.
Proof.
  induction d as [|[k0 v0] d IH]; simpl.
  - repeat case_decide; simplify_eq; done.
  - repeat (case_decide; simpl; simplify_eq); done.
Qed.

Lemma set_fresh k v d : k ∉ OD.keys d → OD.set k v d = d ++ [(k, v)].
Proof.
  induction d as [|[k0 v0] d IH]; simpl; [done |].
  rewrite not_elem_of_cons. intros [Hne Hk].
  rewrite decide_False by done. by rewrite IH.
Qed.

Lemma keys_set_present k v d : k ∈ OD.keys d → OD.keys (OD.set k v d) = OD.keys d.
Proof.
  induction d as [|[k0 v0] d IH]; simpl; intros Hin.
  - by apply elem_of_nil in Hin.
  - case_decide; simpl; [done |].
    apply elem_of_cons in Hin as [? | Hin]; [done |]. f_equal. by apply IH.
Qed.

Lemma keys_set k v d :
  OD.keys (OD.set k v d)
  = if decide (k ∈ OD.keys d) then OD.keys d else OD.keys d ++ [k].
Proof.
  case_decide.
  - by apply keys_set_present.
  - rewrite set_fresh by done. unfold OD.keys. by rewrite fmap_app.
Qed.

Lemma set_id k v d : OD.get k d = Some v → OD.set k v d = d.
Proof.
  induction d as [|[k0 v0] d IH]; simpl; [done |].
  case_decide; intros; simplify_eq; [done |]. f_equal. auto.
Qed.

Lemma NoDup_set k v d : NoDup (OD.keys d) → NoDup (OD.keys (OD.set k v d)).
Proof.
  intros Hnd. rewrite keys_set. case_decide; [done |].
  apply NoDup_app. split_and!; [done | | apply NoDup_singleton].
  intros x Hx Hx'. apply list_elem_of_singleton in Hx'. by subst.
Qed.

Lemma elem_keys_pop k' k d : k' ∈ OD.keys (OD.pop k d) → k' ∈ OD.keys d.
Proof.
  induction d as [|[k0 v0] d IH]; simpl; [done |].
  case_decide; simpl; rewrite ?elem_of_cons; naive_solver.
Qed.

Lemma NoDup_pop k d : NoDup (OD.keys d) → NoDup (OD.keys (OD.pop k d)).
Proof.
  induction d as [|[k0 v0] d IH]; simpl; [done |].
  rewrite NoDup_cons. intros [Hk0 Hnd]. case_decide; simpl; [done |].
  apply NoDup_cons. split; [| auto]. intros Hin. apply Hk0.
  by apply elem_keys_pop in Hin.
Qed.

Lemma pop_gone k d : NoDup (OD.keys d) → k ∉ OD.keys (OD.pop k d).
Proof.
  induction d as [|[k0 v0] d IH]; simpl; [intros; apply not_elem_of_nil |].
  rewrite NoDup_cons. intros [Hk0 Hnd]. case_decide; simpl.
  - by subst.
  - rewrite not_elem_of_cons. auto.
Qed.

Lemma get_pop_ne k' k d : k' ≠ k → OD.get k' (OD.pop k d) = OD.get k' d.
Proof.
  intros Hne. induction d as [|[k0 v0] d IH]; simpl; [done |].
  repeat (case_decide; simpl; simplify_eq); done.
Qed.

Lemma elem_keys_pop_ne k' k d : k' ≠ k → k' ∈ OD.keys d → k' ∈ OD.keys (OD.pop k d).
Proof.
  intros Hne Hin. destruct (decide (k' ∈ OD.keys (OD.pop k d))) as [|Hn]; [done |].
  apply get_None in Hn. rewrite get_pop_ne in Hn by done.
  apply get_None in Hn. contradiction.
Qed.

Lemma pop_absent k d : k ∉ OD.keys d → OD.pop k d = d.
Proof.
  induction d as [|[k0 v0] d IH]; simpl; [done |].
  rewrite not_elem_of_cons. intros [Hne Hk].
  rewrite decide_False by done. by rewrite IH.
Qed.

Lemma elem_pop kv k d : kv ∈ OD.pop k d → kv ∈ d.
Proof.
  induction d as [|[k0 v0] d IH]; simpl; [done |].
  case_decide; rewrite ?elem_of_cons; naive_solver.
Qed.

Lemma elem_set kv k v d : kv ∈ OD.set k v d → kv ∈ d ∨ kv = (k, v).
Proof.
  induction d as [|[k0 v0] d IH]; simpl.
  - rewrite list_elem_of_singleton. auto.
  - case_decide; rewrite !elem_of_cons; subst; naive_solver.
Qed.

Lemma assign_all_NoDup d items :
  NoDup (OD.keys d) → NoDup (OD.keys (OD.assign_all d items)).
Proof.
  revert d. induction items as [|kv items IH]; simpl; intros d Hnd; [done |].
  apply IH. by apply NoDup_set.
Qed.

Lemma of_items_NoDup items : NoDup (OD.keys (@OD.of_items K V _ items)).
Proof. apply (assign_all_NoDup []). apply NoDup_nil_2. Qed.

Lemma assign_all_fresh d items :
  NoDup (items.*1) → (∀ k, k ∈ items.*1 → k ∉ OD.keys d) →
  OD.assign_all d items = d ++ items.
Proof.
  revert d. induction items as [|[k v] items IH]; simpl; intros d Hnd Hfresh.
  - by rewrite app_nil_r.
  - apply NoDup_cons in Hnd as [Hk Hnd].
    rewrite set_fresh by (apply Hfresh; left).
    rewrite IH; [by rewrite <- app_assoc | done |].
    intros k' Hk'. unfold OD.keys. rewrite fmap_app, elem_of_app.
    intros [Hin | Hin].
    + eapply Hfresh; [right; apply Hk' | done].
    + apply list_elem_of_singleton in Hin. simpl in Hin. by subst.
Qed.

Lemma of_items_id items : NoDup (items.*1) → OD.of_items items = items.
Proof.
  intros Hnd. unfold OD.of_items.
  rewrite assign_all_fresh; [done | done |]. intros; apply not_elem_of_nil.
Qed.

Lemma assign_all_keys d items k :
  k ∈ OD.keys (OD.assign_all d items) ↔ k ∈ OD.keys d ∨ k ∈ items.*1.
Proof.
  revert d. induction items as [|[k0 v0] items IH]; simpl; intros d.
  - rewrite elem_of_nil. naive_solver.
  - rewrite IH, keys_set, elem_of_cons. case_decide.
    + split; [naive_solver |]. intros [? | [-> | ?]]; auto.
    + rewrite elem_of_app, list_elem_of_singleton. naive_solver.
Qed.

Lemma assign_all_elem d items kv :
  kv ∈ OD.assign_all d items → kv ∈ d ∨ kv ∈ items.
Proof.
  revert d. induction items as [|[k0 v0] items IH]; simpl; intros d; [auto |].
  intros Hin. apply IH in Hin as [Hin | Hin]; [| right; by right].
  apply elem_set in Hin as [? | ->]; [by left | right; left].
Qed.

(** An assignment that is not overwritten afterwards is what [get] finds. *)
Lemma assign_all_get_last d pre k v post :
  k ∉ post.*1 → OD.get k (OD.assign_all d (pre ++ (k, v) :: post)) = Some v.
Proof.
  intros Hpost. unfold OD.assign_all. rewrite foldl_app. simpl.
  generalize (foldl (λ d kv, OD.set kv.1 kv.2 d) d pre). intros d'.
  assert (OD.get k (OD.set k v d') = Some v) as Hget
    by (rewrite get_set; by rewrite decide_True).
  revert Hget. generalize (OD.set k v d'). clear d'.
  induction post as [|[k0 v0] post IH]; simpl; intros d' Hget; [done |].
  apply not_elem_of_cons in Hpost as [Hne Hpost].
  apply IH; [done |]. rewrite get_set. by rewrite decide_False.
Qed.
End dict_facts.

(** ** The merge engine *)
Section merge_facts.
Context {Json : Type} `{EqDecision Json}.
Implicit Types (e : @ExtractedMemory Json) (st : @merge_state Json)
  (store_map : list (string * @SearchItem Json)) (x : string)
  (l : list (@record Json)) (ops : list (@ExtractedMemory Json)).

Lemma as_items_keys l : OD.keys (as_items l) = rid <$> l.
Proof. unfold OD.keys, as_items. induction l; simpl; [done | by f_equal]. Qed.

Lemma as_items_values l : OD.values (as_items l) = l.
Proof. unfold OD.values, as_items. induction l; simpl; [done | by f_equal]. Qed.

Lemma as_items_keyed l : keyed (as_items l).
Proof.
  intros k r Hin. unfold as_items in Hin.
  apply list_elem_of_fmap in Hin as (r' & Heq & _). by simplify_eq.
Qed.

Lemma keyed_keys (d : list (string * @record Json)) :
  keyed d → OD.keys d = rid <$> OD.values d.
Proof.
  unfold keyed, OD.keys, OD.values. induction d as [|[k r] d IH]; simpl; [done |].
  intros Hk. f_equal.
  - symmetry. apply Hk. left.
  - apply IH. intros k' r' Hin. apply Hk. by right.
Qed.

Lemma keyed_as_items (d : list (string * @record Json)) :
  keyed d → as_items (OD.values d) = d.
Proof.
  unfold keyed, as_items, OD.values. induction d as [|[k r] d IH]; simpl; [done |].
  intros Hk. f_equal.
  - f_equal. apply Hk. left.
  - apply IH. intros k' r' Hin. apply Hk. by right.
Qed.

Lemma keyed_set k (r : @record Json) d : keyed d → rid r = k → keyed (OD.set k r d).
Proof.
  intros Hd Hr k' r' Hin. apply elem_set in Hin as [Hin | Heq]; [by apply Hd |].
  by simplify_eq.
Qed.

Lemma keyed_pop k (d : list (string * @record Json)) : keyed d → keyed (OD.pop k d).
Proof. intros Hd k' r' Hin. apply Hd. by eapply elem_pop. Qed.

Lemma of_items_as_items l : NoDup (rid <$> l) → OD.of_items (as_items l) = as_items l.
Proof.
  intros Hnd. apply of_items_id. fold (OD.keys (as_items l)).
  by rewrite as_items_keys.
Qed.

Lemma of_items_keyed l : keyed (OD.of_items (as_items l)).
Proof.
  intros k r Hin. apply (assign_all_elem []) in Hin as [Hin | Hin].
  - by apply elem_of_nil in Hin.
  - by apply as_items_keyed in Hin.
Qed.

Lemma of_items_keys l x : x ∈ OD.keys (OD.of_items (as_items l)) ↔ x ∈ rid <$> l.
Proof.
  unfold OD.of_items. rewrite (assign_all_keys [] (as_items l) x).
  fold (OD.keys (as_items l)). rewrite as_items_keys.
  unfold OD.keys. simpl. rewrite elem_of_nil. naive_solver.
Qed.

(** The three things an operation can be. *)
Lemma op_cases e :
  (∃ m, e.2 = PModel m ∧ String.eqb (repr_name m) "RemoveDoc" = true)
  ∨ (∃ m, e.2 = PModel m ∧ String.eqb (repr_name m) "RemoveDoc" = false)
  ∨ (∃ c, e.2 = PRaw c).
Proof.
  destruct e as [i [m | c]]; simpl; [| eauto].
  destruct (String.eqb (repr_name m) "RemoveDoc") eqn:E; eauto.
Qed.

(** A non-delete operation writes one record under its id: in place when
    the id is store-backed, into the ephemeral dictionary otherwise. *)
Lemma apply_one_upsert store_map st e :
  is_delete e = false →
  let carried := match OD.get e.1 (store_dict st) with
                 | Some r => r.1.2
                 | None => "Memory"
                 end in
  let r := (e.1, op_kind carried e, op_content e) in
  apply_one store_map st e =
    if OD.contains e.1 (store_dict st) then
      {| store_dict := OD.set e.1 r (store_dict st);
         ephemeral_dict := ephemeral_dict st;
         removed_ids := removed_ids st |}
    else
      {| store_dict := store_dict st;
         ephemeral_dict := OD.set e.1 r (ephemeral_dict st);
         removed_ids := removed_ids st |}.
Proof.
  destruct e as [i [m | c]]; unfold is_delete, apply_one, op_kind, op_content; simpl.
  - intros ->. done.
  - done.
Qed.

(** A delete pops its target from both dictionaries. *)
Lemma apply_one_delete store_map st e m :
  e.2 = PModel m → String.eqb (repr_name m) "RemoveDoc" = true →
  apply_one store_map st e =
    {| store_dict := pop_opt (json_doc_id m) (store_dict st);
       ephemeral_dict := pop_opt (json_doc_id m) (ephemeral_dict st);
       removed_ids :=
         if truthy (json_doc_id m) && contains_opt (json_doc_id m) store_map
         then removed_ids st ++ option_list (json_doc_id m)
         else removed_ids st |}.
Proof.
  destruct e as [i p]. simpl. intros -> Hm. unfold apply_one. simpl. by rewrite Hm.
Qed.

Lemma is_delete_true e :
  is_delete e = true ↔
  ∃ m, e.2 = PModel m ∧ String.eqb (repr_name m) "RemoveDoc" = true.
Proof.
  destruct e as [i [m | c]]; unfold is_delete; simpl; split.
  - eauto.
  - by intros (m' & [= <-] & ?).
  - done.
  - by intros (m' & ? & ?).
Qed.

Lemma truthy_Some x : truthy (Some x) = true ↔ x ≠ EmptyString.
Proof.
  unfold truthy. rewrite negb_true_iff. split.
  - intros Hx ->. by rewrite String.eqb_refl in Hx.
  - intros Hx. by apply String.eqb_neq.
Qed.

(** One operation keeps the invariant. *)
Lemma apply_one_inv store_map R0 st e :
  merge_inv store_map R0 st → merge_inv store_map R0 (apply_one store_map st e).
Proof.
  intros (Hnd1 & Hnd2 & Hk1 & Hk2 & H5 & H6 & H7).
  destruct (is_delete e) eqn:Hdel.
  - apply is_delete_true in Hdel as (m & Hm & Hrm).
    rewrite (apply_one_delete _ _ _ _ Hm Hrm).
    destruct (json_doc_id m) as [x|]; simpl.
    + assert (∀ y, y ∈ OD.keys (OD.pop x (store_dict st)) → y ≠ x) as Hne.
      { intros y Hy ->. exact (pop_gone _ _ Hnd1 Hy). }
      unfold merge_inv; simpl. split_and!.
      * by apply NoDup_pop.
      * by apply NoDup_pop.
      * by apply keyed_pop.
      * by apply keyed_pop.
      * intros y Hy. pose proof (Hne y Hy) as Hyx.
        apply elem_keys_pop in Hy. destruct (H5 y Hy) as (? & ? & ? & Hye).
        split_and!; [done | done | |].
        -- destruct (negb (x =? EmptyString)%string && OD.contains x store_map);
             [| done].
           rewrite elem_of_app, list_elem_of_singleton. naive_solver.
        -- intros Hin. apply Hye. by eapply elem_keys_pop.
      * intros y [Hy | Hy]; [auto |].
        destruct (negb (x =? EmptyString)%string && OD.contains x store_map) eqn:E;
          [| auto].
        apply elem_of_app in Hy as [Hy | Hy]; [auto |].
        apply list_elem_of_singleton in Hy as ->.
        apply andb_true_iff in E as [_ E]. by apply contains_true.
      * intros y Hy. destruct (decide (y = x)) as [-> | Hyx].
        -- destruct (decide (x = EmptyString)) as [-> | Hx]; [auto |].
           right; right; left.
           assert (negb (x =? EmptyString)%string && OD.contains x store_map = true)
             as -> .
           { apply andb_true_iff. split; [by apply (truthy_Some x) |].
             by apply contains_true. }
           rewrite elem_of_app, list_elem_of_singleton. auto.
        -- destruct (H7 y Hy) as [Hsd | [? | [? | ?]]]; auto.
           ++ left. by apply elem_keys_pop_ne.
           ++ right; right; left.
              destruct (negb (x =? EmptyString)%string && OD.contains x store_map);
                [| done].
              rewrite elem_of_app. auto.
    + unfold merge_inv; simpl. done.
  - rewrite (apply_one_upsert _ _ _ Hdel).
    set (r := (e.1, _, _)).
    destruct (OD.contains e.1 (store_dict st)) eqn:Hc.
    + apply contains_true in Hc.
      unfold merge_inv; simpl. rewrite (keys_set_present _ _ _ Hc).
      split_and!; try done. by apply keyed_set.
    + apply contains_false in Hc.
      unfold merge_inv; simpl. split_and!; try done.
      * by apply NoDup_set.
      * by apply keyed_set.
      * intros y Hy. destruct (H5 y Hy) as (? & ? & ? & Hye).
        split_and!; try done. rewrite keys_set. case_decide; [done |].
        rewrite elem_of_app, list_elem_of_singleton. intros [? | ->]; done.
Qed.

Lemma apply_all_inv store_map R0 st ops :
  merge_inv store_map R0 st →
  merge_inv store_map R0 (foldl (apply_one store_map) st ops).
Proof.
  revert st. induction ops as [|e ops IH]; simpl; intros st Hinv; [done |].
  by apply IH, apply_one_inv.
Qed.

(** *** Well-formed dictionaries *)

Lemma merge_init_wf (sb eph : list (@record Json)) : merge_wf (merge_init sb eph).
Proof.
  unfold merge_wf, merge_init; simpl. fold (as_items sb) (as_items eph).
  split_and!; auto using of_items_NoDup, of_items_keyed.
Qed.

Lemma apply_one_wf store_map st e : merge_wf st → merge_wf (apply_one store_map st e).
Proof.
  intros (Hnd1 & Hnd2 & Hk1 & Hk2).
  destruct (is_delete e) eqn:Hdel.
  - apply is_delete_true in Hdel as (m & Hm & Hrm).
    rewrite (apply_one_delete _ _ _ _ Hm Hrm).
    unfold merge_wf; simpl. destruct (json_doc_id m) as [x|]; simpl; [| done].
    split_and!; auto using NoDup_pop, keyed_pop.
  - rewrite (apply_one_upsert _ _ _ Hdel).
    destruct (OD.contains e.1 (store_dict st)); unfold merge_wf; simpl;
      split_and!; auto using NoDup_set, keyed_set.
Qed.

Lemma apply_all_wf store_map st ops :
  merge_wf st → merge_wf (foldl (apply_one store_map) st ops).
Proof.
  revert st. induction ops as [|e ops IH]; simpl; intros st Hwf; [done |].
  by apply IH, apply_one_wf.
Qed.

(** *** Deleting *)

Lemma apply_one_delete_absent store_map st e x :
  merge_wf st → deletes x e → absent x (apply_one store_map st e).
Proof.
  intros (Hnd1 & Hnd2 & _) (m & Hm & Hrm & Hid).
  rewrite (apply_one_delete _ _ _ _ Hm Hrm), Hid. unfold absent; simpl.
  split; by apply pop_gone.
Qed.

Lemma apply_one_absent store_map st e x :
  absent x st → ¬ upserts x e → absent x (apply_one store_map st e).
Proof.
  intros [Hs He] Hup. destruct (is_delete e) eqn:Hdel.
  - apply is_delete_true in Hdel as (m & Hm & Hrm).
    rewrite (apply_one_delete _ _ _ _ Hm Hrm). unfold absent; simpl.
    destruct (json_doc_id m) as [y|]; simpl; [| done].
    split; intros Hin; by apply elem_keys_pop in Hin.
  - assert (e.1 ≠ x) as Hne by (intros Heq; by apply Hup).
    rewrite (apply_one_upsert _ _ _ Hdel).
    destruct (OD.contains e.1 (store_dict st)) eqn:Hc; unfold absent; simpl.
    + apply contains_true in Hc. by rewrite keys_set_present.
    + split; [done |]. rewrite keys_set. case_decide; [done |].
      rewrite elem_of_app, list_elem_of_singleton. naive_solver.
Qed.

Lemma apply_all_absent store_map st ops x :
  absent x st → (∀ e, e ∈ ops → ¬ upserts x e) →
  absent x (foldl (apply_one store_map) st ops).
Proof.
  revert st. induction ops as [|e ops IH]; simpl; intros st Habs Hops; [done |].
  apply IH.
  - apply apply_one_absent; [done |]. apply Hops. left.
  - intros e' He'. apply Hops. by right.
Qed.

(** A delete that no later operation of the list undoes leaves the id in
    neither dictionary. *)
Lemma apply_all_deleted store_map st pre e post x :
  merge_wf st → deletes x e → (∀ e', e' ∈ post → ¬ upserts x e') →
  absent x (foldl (apply_one store_map) st (pre ++ e :: post)).
Proof.
  intros Hwf Hdel Hpost. rewrite foldl_app. simpl.
  apply apply_all_absent; [| done].
  apply apply_one_delete_absent; [| done]. by apply apply_all_wf.
Qed.

(** *** The removed ids *)

Lemma apply_one_removed store_map st e x :
  x ∈ removed_ids (apply_one store_map st e) ↔
  x ∈ removed_ids st
  ∨ (deletes x e ∧ x ≠ EmptyString ∧ x ∈ OD.keys store_map).
Proof.
  destruct (is_delete e) eqn:Hdel.
  - apply is_delete_true in Hdel as (m & Hm & Hrm).
    rewrite (apply_one_delete _ _ _ _ Hm Hrm). simpl.
    destruct (json_doc_id m) as [y|] eqn:Hid; simpl.
    + destruct (negb (y =? EmptyString)%string) eqn:Hy; simpl.
      * apply (truthy_Some y) in Hy.
        destruct (OD.contains y store_map) eqn:Hc.
        -- apply contains_true in Hc. rewrite elem_of_app, list_elem_of_singleton.
           split; [intros [? | ->] | intros [? | ((m' & Hm' & _ & Hid') & _)]]; auto.
           ++ right. split_and!; [| done | done]. exists m. by rewrite Hid.
           ++ right. congruence.
        -- apply contains_false in Hc.
           split; [auto | intros [? | ((m' & Hm' & _ & Hid') & _ & Hin)]]; [done |].
           assert (y = x) as -> by congruence. contradiction.
      * split; [auto | intros [? | ((m' & Hm' & _ & Hid') & Hne & _)]]; [done |].
        assert (y = x) as -> by congruence.
        apply negb_false_iff, String.eqb_eq in Hy. contradiction.
    + split; [auto | intros [? | ((m' & Hm' & _ & Hid') & _)]]; [done | congruence].
  - rewrite (apply_one_upsert _ _ _ Hdel).
    assert (¬ deletes x e) as Hnd.
    { intros (m & Hm & Hrm & _). unfold is_delete in Hdel. rewrite Hm in Hdel.
      congruence. }
    destruct (OD.contains e.1 (store_dict st)); simpl; naive_solver.
Qed.

Lemma apply_all_removed store_map st ops x :
  x ∈ removed_ids (foldl (apply_one store_map) st ops) ↔
  x ∈ removed_ids st
  ∨ ((∃ e, e ∈ ops ∧ deletes x e) ∧ x ≠ EmptyString ∧ x ∈ OD.keys store_map).
Proof.
  revert st. induction ops as [|e ops IH]; simpl; intros st.
  - split; [auto | intros [? | ((e & He & _) & _)]]; [done |].
    by apply elem_of_nil in He.
  - rewrite IH, apply_one_removed. split.
    + intros [[? | (? & ? & ?)] | ((e' & ? & ?) & ? & ?)]; auto.
      * right. split_and!; [| done | done]. exists e. split; [left | done].
      * right. split_and!; [| done | done]. exists e'. split; [by right | done].
    + intros [? | ((e' & He' & ?) & ? & ?)]; [auto |].
      apply elem_of_cons in He' as [-> | He']; [auto |].
      right. split_and!; [| done | done]. by exists e'.
Qed.

(** *** What the function returns *)

Lemma apply_output_eq ops l1 store_map l2 :
  _apply_enricher_output ops l1 store_map l2 =
    let m := foldl (apply_one store_map) (merge_init l1 l2) ops in
    (OD.values (store_dict m), OD.values (ephemeral_dict m), removed_ids m).
Proof. reflexivity. Qed.

Lemma output_ids ops l1 store_map l2 :
  let m := foldl (apply_one store_map) (merge_init l1 l2) ops in
  let out := _apply_enricher_output ops l1 store_map l2 in
  rid <$> out.1.1 = OD.keys (store_dict m)
  ∧ rid <$> out.1.2 = OD.keys (ephemeral_dict m).
Proof.
  intros m out.
  destruct (apply_all_wf store_map _ ops (merge_init_wf l1 l2)) as (_ & _ & Hk1 & Hk2).
  subst out. rewrite apply_output_eq. simpl. fold m.
  by rewrite <- !keyed_keys.
Qed.

Lemma values_elem_get (d : list (string * @record Json)) (r : @record Json) :
  NoDup (OD.keys d) → keyed d → r ∈ OD.values d → OD.get (rid r) d = Some r.
Proof.
  intros Hnd Hk Hin. apply elem_get; [done |].
  unfold OD.values in Hin. apply list_elem_of_fmap in Hin as ([k r'] & -> & Hin).
  simpl. by rewrite (Hk _ _ Hin).
Qed.

Lemma get_values (d : list (string * @record Json)) k (r : @record Json) :
  OD.get k d = Some r → r ∈ OD.values d.
Proof.
  intros Hget. apply get_Some_elem in Hget. unfold OD.values.
  apply list_elem_of_fmap. by exists (k, r).
Qed.

(** The record a non-delete operation leaves behind, seen from outside:
    appended to the ephemeral list when its id was in neither list. *)
Lemma output_snoc_fresh store_map l1 l2 pre e :
  let before := _apply_enricher_output pre l1 store_map l2 in
  is_delete e = false →
  e.1 ∉ rid <$> before.1.1 → e.1 ∉ rid <$> before.1.2 →
  _apply_enricher_output (pre ++ [e]) l1 store_map l2
  = (before.1.1, before.1.2 ++ [(e.1, op_kind "Memory" e, op_content e)], before.2).
Proof.
  intros before Hdel Hs He. subst before.
  destruct (output_ids pre l1 store_map l2) as [Hids1 Hids2].
  rewrite Hids1 in Hs. rewrite Hids2 in He.
  rewrite !apply_output_eq, foldl_app. simpl.
  set (m := foldl (apply_one store_map) (merge_init l1 l2) pre) in *.
  rewrite (apply_one_upsert _ _ _ Hdel).
  pose proof Hs as Hget. apply get_None in Hget. rewrite Hget.
  apply contains_false in Hs. rewrite Hs. simpl.
  rewrite set_fresh by done. unfold OD.values. by rewrite fmap_app.
Qed.

(** ... and written in place, with the kind carried over for an
    unstructured payload, when its id is store-backed. *)
Lemma output_snoc_store_backed store_map l1 l2 pre e k c0 :
  let before := _apply_enricher_output pre l1 store_map l2 in
  let after := _apply_enricher_output (pre ++ [e]) l1 store_map l2 in
  is_delete e = false → (e.1, k, c0) ∈ before.1.1 →
  (e.1, op_kind k e, op_content e) ∈ after.1.1.
Proof.
  intros before after Hdel Hin. subst before after.
  rewrite apply_output_eq in Hin. rewrite apply_output_eq, foldl_app. simpl in *.
  set (m := foldl (apply_one store_map) (merge_init l1 l2) pre) in *.
  destruct (apply_all_wf store_map _ pre (merge_init_wf l1 l2))
    as (Hnd1 & _ & Hk1 & _). fold m in Hnd1, Hk1.
  apply (values_elem_get _ _ Hnd1 Hk1) in Hin. unfold rid in Hin. simpl in Hin.
  rewrite (apply_one_upsert _ _ _ Hdel). cbv zeta. rewrite Hin.
  unfold OD.contains. rewrite Hin. simpl.
  apply (get_values _ e.1). rewrite get_set. by rewrite decide_True.
Qed.

(** *** Operations that leave a record alone *)

Lemma apply_one_keeps store_map st e x k (c : Json) :
  OD.get x (store_dict st) = Some (x, k, c) → benign x k c e →
  OD.get x (store_dict (apply_one store_map st e)) = Some (x, k, c).
Proof.
  intros Hget [Hnd Hup]. destruct (is_delete e) eqn:Hdel.
  - apply is_delete_true in Hdel as (m & Hm & Hrm).
    rewrite (apply_one_delete _ _ _ _ Hm Hrm). simpl.
    destruct (json_doc_id m) as [y|] eqn:Hid; simpl; [| done].
    rewrite get_pop_ne; [done |]. intros ->. apply Hnd. by exists m.
  - rewrite (apply_one_upsert _ _ _ Hdel). cbv zeta.
    destruct (decide (e.1 = x)) as [Hx | Hx].
    + destruct (Hup (conj Hdel Hx)) as [Hk Hc]. rewrite Hx.
      unfold OD.contains. rewrite Hget. simpl.
      rewrite get_set, decide_True by done. by rewrite Hk, Hc.
    + destruct (OD.contains e.1 (store_dict st)); simpl; [| done].
      rewrite get_set. by rewrite decide_False.
Qed.

Lemma apply_all_keeps store_map st ops x k (c : Json) :
  OD.get x (store_dict st) = Some (x, k, c) →
  (∀ e, e ∈ ops → benign x k c e) →
  OD.get x (store_dict (foldl (apply_one store_map) st ops)) = Some (x, k, c).
Proof.
  revert st. induction ops as [|e ops IH]; simpl; intros st Hget Hops; [done |].
  apply IH.
  - apply apply_one_keeps; [done |]. apply Hops. left.
  - intros e' He'. apply Hops. by right.
Qed.

(** Handing every record back unchanged changes nothing. *)
Lemma apply_all_passthrough store_map st (l : list (@record Json)) :
  (∀ r, r ∈ l → OD.get (rid r) (store_dict st) = Some r) →
  foldl (apply_one store_map) st (map (λ r : record, (rid r, PRaw r.2)) l) = st.
Proof.
  induction l as [|r l IH]; simpl; intros Hl; [done |].
  assert (apply_one store_map st (rid r, PRaw r.2) = st) as ->.
  { rewrite apply_one_upsert by done. cbv zeta. simpl.
    rewrite (Hl r) by left. unfold OD.contains. rewrite (Hl r) by left.
    destruct r as [[i k] c]. unfold op_kind, op_content, rid. simpl.
    rewrite set_id; [by destruct st |]. apply (Hl (i, k, c)). left. }
  apply IH. intros r' Hr'. apply Hl. by right.
Qed.
(** *** Operations that do not name an id *)

Lemma apply_one_frame store_map st e x :
  ¬ names x e →
  OD.get x (store_dict (apply_one store_map st e)) = OD.get x (store_dict st)
  ∧ OD.get x (ephemeral_dict (apply_one store_map st e))
    = OD.get x (ephemeral_dict st).
Proof.
  intros Hn. destruct (is_delete e) eqn:Hdel.
  - apply is_delete_true in Hdel as (m & Hm & Hrm).
    rewrite (apply_one_delete _ _ _ _ Hm Hrm). simpl.
    destruct (json_doc_id m) as [y|] eqn:Hid; simpl; [| done].
    assert (x ≠ y) as Hxy.
    { intros ->. apply Hn. right. by exists m. }
    by rewrite !get_pop_ne.
  - assert (x ≠ e.1) as Hx.
    { intros ->. apply Hn. by left. }
    rewrite (apply_one_upsert _ _ _ Hdel). cbv zeta.
    destruct (OD.contains e.1 (store_dict st)); simpl;
      rewrite get_set, decide_False; done.
Qed.

Lemma apply_all_frame store_map st ops x :
  (∀ e, e ∈ ops → ¬ names x e) →
  OD.get x (store_dict (foldl (apply_one store_map) st ops)) = OD.get x (store_dict st)
  ∧ OD.get x (ephemeral_dict (foldl (apply_one store_map) st ops))
    = OD.get x (ephemeral_dict st).
Proof.
  revert st. induction ops as [|e ops IH]; intros st Hops; simpl; [done |].
  destruct (IH (apply_one store_map st e)) as [-> ->].
  - intros e' He'. apply Hops. by right.
  - apply apply_one_frame. apply Hops. left.
Qed.

(** *** Ids the store does not back *)

Lemma apply_one_store_absent store_map st e x :
  x ∉ OD.keys (store_dict st) → x ∉ OD.keys (store_dict (apply_one store_map st e)).
Proof.
  intros Hx. destruct (is_delete e) eqn:Hdel.
  - apply is_delete_true in Hdel as (m & Hm & Hrm).
    rewrite (apply_one_delete _ _ _ _ Hm Hrm). simpl.
    destruct (json_doc_id m) as [y|]; simpl; [| done].
    intros Hin. by apply elem_keys_pop in Hin.
  - rewrite (apply_one_upsert _ _ _ Hdel). cbv zeta.
    destruct (OD.contains e.1 (store_dict st)) eqn:Hc; simpl; [| done].
    apply contains_true in Hc. by rewrite keys_set_present.
Qed.

Lemma apply_all_store_absent store_map st ops x :
  x ∉ OD.keys (store_dict st) →
  x ∉ OD.keys (store_dict (foldl (apply_one store_map) st ops)).
Proof.
  revert st. induction ops as [|e ops IH]; simpl; intros st Hx; [done |].
  by apply IH, apply_one_store_absent.
Qed.

(** A write under an id the store dictionary does not hold leaves an
    ephemeral record: the operation's content, and its declared kind or
    "Memory". *)
Lemma apply_one_write store_map st u x :
  x ∉ OD.keys (store_dict st) → upserts x u →
  OD.get x (ephemeral_dict (apply_one store_map st u))
  = Some (x, op_kind "Memory" u, op_content u).
Proof.
  intros Hx [Hdel <-]. rewrite (apply_one_upsert _ _ _ Hdel). cbv zeta.
  pose proof Hx as Hc. apply contains_false in Hc. rewrite Hc.
  apply get_None in Hx. rewrite Hx. simpl. rewrite get_set. by rewrite decide_True.
Qed.

(** An ephemeral record keeps its content through an operation that does
    not delete its id and writes, if it writes under the id, the same
    content. *)
Lemma apply_one_content store_map st e x kd (c : Json) :
  x ∉ OD.keys (store_dict st) → OD.get x (ephemeral_dict st) = Some (x, kd, c) →
  ¬ deletes x e → (upserts x e → op_content e = c) →
  ∃ kd', OD.get x (ephemeral_dict (apply_one store_map st e)) = Some (x, kd', c).
Proof.
  intros Hx Hget Hnd Hup. destruct (is_delete e) eqn:Hdel.
  - apply is_delete_true in Hdel as (m & Hm & Hrm).
    rewrite (apply_one_delete _ _ _ _ Hm Hrm). simpl.
    destruct (json_doc_id m) as [y|] eqn:Hid; simpl; [| by exists kd].
    exists kd. rewrite get_pop_ne; [done |]. intros ->. apply Hnd. by exists m.
  - destruct (decide (e.1 = x)) as [Heq | Hne].
    + rewrite (apply_one_write store_map st e x Hx (conj Hdel Heq)).
      rewrite (Hup (conj Hdel Heq)). by eexists.
    + rewrite (apply_one_upsert _ _ _ Hdel). cbv zeta.
      destruct (OD.contains e.1 (store_dict st)); simpl; [by exists kd |].
      exists kd. rewrite get_set. by rewrite decide_False.
Qed.

Lemma apply_all_content store_map st ops x kd (c : Json) :
  x ∉ OD.keys (store_dict st) → OD.get x (ephemeral_dict st) = Some (x, kd, c) →
  (∀ e, e ∈ ops → ¬ deletes x e ∧ (upserts x e → op_content e = c)) →
  ∃ kd', OD.get x (ephemeral_dict (foldl (apply_one store_map) st ops))
         = Some (x, kd', c).
Proof.
  revert st kd. induction ops as [|e ops IH]; simpl; intros st kd Hx Hget Hops;
    [by exists kd |].
  destruct (Hops e) as [Hnd Hup]; [left |].
  destruct (apply_one_content store_map st e x kd c Hx Hget Hnd Hup) as [kd1 Hget1].
  apply (IH _ kd1); [by apply apply_one_store_absent | done |].
  intros e' He'. apply Hops. by right.
Qed.

(** A write under an id the store dictionary does not hold, followed by
    operations that do not name the id. *)
Lemma apply_all_write store_map st pre u post x :
  x ∉ OD.keys (store_dict st) → upserts x u → (∀ e, e ∈ post → ¬ names x e) →
  let m := foldl (apply_one store_map) st (pre ++ u :: post) in
  x ∉ OD.keys (store_dict m)
  ∧ OD.get x (ephemeral_dict m) = Some (x, op_kind "Memory" u, op_content u).
Proof.
  intros Hx Hup Hpost m. subst m. split; [by apply apply_all_store_absent |].
  rewrite foldl_app. simpl.
  destruct (apply_all_frame store_map
              (apply_one store_map (foldl (apply_one store_map) st pre) u) post x Hpost)
    as [_ ->].
  apply apply_one_write; [| done]. by apply apply_all_store_absent.
Qed.
End merge_facts.

(** ** Steps and traces *)
Section run_facts.
Context {Json Message ToolArgs Config : Type} `{EqDecision Json}.
Context (env : @Collaborators Json Message ToolArgs Config).
Implicit Types (store_map : list (string * @SearchItem Json))
  (st prev : @run_state Json) (lg : @step_log Json) (lgs : list (@step_log Json))
  (ops : list (@ExtractedMemory Json)) (x : string).

Lemma absorb_eq store_map st ops :
  absorb store_map st ops =
    let m := foldl (apply_one store_map)
               (merge_init (rs_store_based st) (rs_ephemeral st)) ops in
    {| rs_store_based := OD.values (store_dict m);
       rs_ephemeral := OD.values (ephemeral_dict m);
       rs_removed_ids := rs_removed_ids st ∪ list_to_set (removed_ids m) |}.
Proof. reflexivity. Qed.

Lemma merge_init_eq (sb eph : list (@record Json)) :
  merge_init sb eph =
    {| store_dict := OD.of_items (as_items sb);
       ephemeral_dict := OD.of_items (as_items eph);
       removed_ids := [] |}.
Proof. reflexivity. Qed.

Lemma init_merge_inv store_map st :
  run_inv store_map st →
  merge_inv store_map (rs_removed_ids st)
    (merge_init (rs_store_based st) (rs_ephemeral st)).
Proof.
  intros (Hnd1 & Hnd2 & H3 & H4 & H5). rewrite merge_init_eq.
  unfold merge_inv; simpl. split_and!.
  - apply of_items_NoDup.
  - apply of_items_NoDup.
  - apply of_items_keyed.
  - apply of_items_keyed.
  - intros x Hx. apply of_items_keys in Hx. destruct (H3 x Hx) as (? & ? & ?).
    split_and!; [done | done | apply not_elem_of_nil |].
    by rewrite of_items_keys.
  - intros x [Hx | Hx]; [auto | by apply elem_of_nil in Hx].
  - intros x Hx. rewrite of_items_keys. destruct (H5 x Hx) as [? | [? | ?]]; auto.
Qed.

Lemma absorb_inv store_map st ops :
  run_inv store_map st → run_inv store_map (absorb store_map st ops).
Proof.
  intros Hinv. rewrite absorb_eq. simpl.
  pose proof (apply_all_inv store_map _ _ ops (init_merge_inv _ _ Hinv)) as Hm.
  destruct Hm as (Hnd1 & Hnd2 & Hk1 & Hk2 & H5 & H6 & H7).
  unfold run_inv; simpl.
  rewrite <- !keyed_keys by done. split_and!; try done.
  - intros x Hx. destruct (H5 x Hx) as (? & ? & ? & ?).
    split_and!; [done | | done]. rewrite elem_of_union, elem_of_list_to_set.
    naive_solver.
  - intros x. rewrite elem_of_union, elem_of_list_to_set. auto.
  - intros x Hx. rewrite elem_of_union, elem_of_list_to_set.
    destruct (H7 x Hx) as [? | [? | [? | ?]]]; auto.
Qed.

Lemma initial_store_based_ids store_map :
  rid <$> initial_store_based store_map = OD.keys store_map.
Proof.
  unfold initial_store_based, OD.keys.
  induction store_map as [|[k i] sm IH]; simpl; [done | by f_equal].
Qed.

Lemma initial_inv store_map :
  NoDup (OD.keys store_map) → run_inv store_map (initial_state store_map).
Proof.
  intros Hnd. unfold run_inv, initial_state; simpl.
  rewrite initial_store_based_ids.
  split_and!; [done | apply NoDup_nil_2 | | set_solver | auto].
  intros x Hx. split_and!; [done | set_solver | apply not_elem_of_nil].
Qed.

Lemma sort_results_NoDup lists limit : NoDup (OD.keys (_sort_results env lists limit)).
Proof. apply of_items_NoDup. Qed.

(** The keys of the store map are stable ids. *)
Lemma sort_results_stable_ids lists limit x :
  x ∈ OD.keys (_sort_results env lists limit) → ∃ item, x = _stable_id env item.
Proof.
  unfold _sort_results, OD.of_items. rewrite assign_all_keys.
  intros [Hx | Hx]; [by apply elem_of_nil in Hx |].
  apply list_elem_of_fmap in Hx as ([k item] & -> & Hin).
  apply list_elem_of_fmap in Hin as (item' & Heq & _). simplify_eq. by eexists.
Qed.

Lemma keys_is_Some {V : Type} (d : list (string * V)) x :
  x ∈ OD.keys d ↔ is_Some (OD.get x d).
Proof.
  destruct (OD.get x d) eqn:E.
  - split; [eauto |]. intros _. destruct (decide (x ∈ OD.keys d)) as [|Hn]; [done |].
    apply get_None in Hn. congruence.
  - apply get_None in E. split; [done | by intros [? ?]].
Qed.

(** Every state of a trace that starts in a good state is good. *)
Lemma trace_inv store_map prev lgs lg :
  run_inv store_map prev → trace_ok store_map prev lgs → lg ∈ lgs →
  run_inv store_map (sl_state lg).
Proof.
  revert prev. induction lgs as [|lg0 lgs IH]; simpl; intros prev Hinv Hok Hin.
  - by apply elem_of_nil in Hin.
  - destruct Hok as ((Hctx & Hops & Hst) & Hok).
    assert (run_inv store_map (sl_state lg0)) as Hinv0
      by (rewrite Hst; by apply absorb_inv).
    apply elem_of_cons in Hin as [-> | Hin]; [done |]. by eapply IH.
Qed.

Lemma final_state_cons st lg lgs :
  final_state st (lg :: lgs) = final_state (sl_state lg) lgs.
Proof.
  unfold final_state. destruct lgs as [|lg' lgs]; [done |].
  rewrite last_cons_cons, last_cons. by destruct (last lgs).
Qed.

Lemma final_inv store_map prev lgs :
  run_inv store_map prev → trace_ok store_map prev lgs →
  run_inv store_map (final_state prev lgs).
Proof.
  revert prev. induction lgs as [|lg0 lgs IH]; simpl; intros prev Hinv Hok; [done |].
  destruct Hok as ((Hctx & Hops & Hst) & Hok). rewrite final_state_cons.
  apply IH; [| done]. rewrite Hst. by apply absorb_inv.
Qed.

(** *** Ids through a step *)

Lemma absorb_ids store_map st ops :
  let m := foldl (apply_one store_map)
             (merge_init (rs_store_based st) (rs_ephemeral st)) ops in
  rid <$> rs_store_based (absorb store_map st ops) = OD.keys (store_dict m)
  ∧ rid <$> rs_ephemeral (absorb store_map st ops) = OD.keys (ephemeral_dict m).
Proof.
  intros m. rewrite absorb_eq. simpl. fold m.
  destruct (apply_all_wf store_map _ ops
              (merge_init_wf (rs_store_based st) (rs_ephemeral st)))
    as (_ & _ & Hk1 & Hk2). fold m in Hk1, Hk2.
  by rewrite <- !keyed_keys.
Qed.

Lemma merge_init_absent (sb eph : list (@record Json)) x :
  x ∉ rid <$> (sb ++ eph) → absent x (merge_init sb eph).
Proof.
  rewrite fmap_app, elem_of_app. intros Hx. rewrite merge_init_eq.
  unfold absent; simpl. rewrite !of_items_keys. naive_solver.
Qed.

Lemma absorb_absent store_map st ops x :
  x ∉ rid <$> (rs_store_based st ++ rs_ephemeral st) →
  (∀ e, e ∈ ops → ¬ upserts x e) →
  x ∉ rid <$> (rs_store_based (absorb store_map st ops)
               ++ rs_ephemeral (absorb store_map st ops)).
Proof.
  intros Hx Hops. destruct (absorb_ids store_map st ops) as [H1 H2].
  rewrite fmap_app, H1, H2, elem_of_app.
  destruct (apply_all_absent store_map _ ops x (merge_init_absent _ _ x Hx) Hops).
  naive_solver.
Qed.

Lemma absorb_deleted store_map st pre e post x :
  deletes x e → (∀ e', e' ∈ post → ¬ upserts x e') →
  x ∉ rid <$> (rs_store_based (absorb store_map st (pre ++ e :: post))
               ++ rs_ephemeral (absorb store_map st (pre ++ e :: post))).
Proof.
  intros Hdel Hpost.
  destruct (absorb_ids store_map st (pre ++ e :: post)) as [H1 H2].
  rewrite fmap_app, H1, H2, elem_of_app.
  destruct (apply_all_deleted store_map _ pre e post x
              (merge_init_wf (rs_store_based st) (rs_ephemeral st)) Hdel Hpost).
  naive_solver.
Qed.

Lemma absorb_removed store_map st ops x :
  x ∈ rs_removed_ids (absorb store_map st ops) ↔
  x ∈ rs_removed_ids st
  ∨ ((∃ e, e ∈ ops ∧ deletes x e) ∧ x ≠ EmptyString ∧ x ∈ OD.keys store_map).
Proof.
  rewrite absorb_eq. simpl.
  rewrite elem_of_union, elem_of_list_to_set, apply_all_removed. simpl.
  rewrite elem_of_nil. naive_solver.
Qed.

(** *** Positions in a trace *)

Lemma trace_lookup_step store_map prev lgs k lg :
  trace_ok store_map prev lgs → lgs !! k = Some lg → ∃ p, step_ok store_map p lg.
Proof.
  revert prev k. induction lgs as [|lg0 lgs IH]; intros prev k Hok Hk; [done |].
  destruct Hok as [Hstep Hok]. destruct k as [|k]; simpl in Hk.
  - simplify_eq. eauto.
  - eauto.
Qed.

Lemma trace_drop store_map prev lgs k lg :
  trace_ok store_map prev lgs → lgs !! k = Some lg →
  trace_ok store_map (sl_state lg) (drop (S k) lgs)
  ∧ final_state prev lgs = final_state (sl_state lg) (drop (S k) lgs).
Proof.
  revert prev k. induction lgs as [|lg0 lgs IH]; intros prev k Hok Hk; [done |].
  destruct Hok as [Hstep Hok]. rewrite final_state_cons.
  destruct k as [|k]; simpl in Hk.
  - simplify_eq. done.
  - apply (IH _ _ Hok Hk).
Qed.

Lemma trace_context_absent store_map prev lgs x j lg :
  trace_ok store_map prev lgs →
  x ∉ rid <$> (rs_store_based prev ++ rs_ephemeral prev) →
  lgs !! j = Some lg →
  (∀ i lgi e, i < j → lgs !! i = Some lgi → e ∈ sl_ops lgi → ¬ upserts x e) →
  x ∉ rid <$> sl_context lg.
Proof.
  revert prev j. induction lgs as [|lg0 lgs IH]; intros prev j Hok Hx Hj Hops;
    [done |].
  destruct Hok as [(Hctx & Hopseq & Hst) Hok]. destruct j as [|j]; simpl in Hj.
  - simplify_eq. by rewrite Hctx.
  - apply (IH (sl_state lg0) j); [done | | done |].
    + rewrite Hst. apply absorb_absent; [done |].
      intros e He. apply (Hops 0 lg0); [lia | done | done].
    + intros i lgi e Hi Hlgi He. apply (Hops (S i) lgi); [lia | done | done].
Qed.

Lemma trace_final_absent store_map prev lgs x :
  trace_ok store_map prev lgs →
  x ∉ rid <$> (rs_store_based prev ++ rs_ephemeral prev) →
  (∀ lg e, lg ∈ lgs → e ∈ sl_ops lg → ¬ upserts x e) →
  x ∉ rid <$> (rs_store_based (final_state prev lgs)
               ++ rs_ephemeral (final_state prev lgs)).
Proof.
  revert prev. induction lgs as [|lg0 lgs IH]; intros prev Hok Hx Hops; [done |].
  destruct Hok as [(Hctx & Hopseq & Hst) Hok]. rewrite final_state_cons.
  apply IH; [done | |].
  - rewrite Hst. apply absorb_absent; [done |].
    intros e He. apply (Hops lg0); [left | done].
  - intros lg e Hlg He. apply (Hops lg); [by right | done].
Qed.

Lemma trace_removed store_map prev lgs x :
  trace_ok store_map prev lgs →
  x ∈ rs_removed_ids (final_state prev lgs) ↔
  x ∈ rs_removed_ids prev
  ∨ ((∃ lg e, lg ∈ lgs ∧ e ∈ sl_ops lg ∧ deletes x e)
     ∧ x ≠ EmptyString ∧ x ∈ OD.keys store_map).
Proof.
  revert prev. induction lgs as [|lg0 lgs IH]; intros prev Hok.
  - unfold final_state; simpl. split; [auto |].
    intros [? | ((lg & e & Hlg & _) & _)]; [done |]. by apply elem_of_nil in Hlg.
  - destruct Hok as [(Hctx & Hopseq & Hst) Hok]. rewrite final_state_cons.
    rewrite (IH _ Hok), Hst, absorb_removed. split.
    + intros [[? | ((e & He & Hdel) & ? & ?)] | ((lg & e & Hlg & He & Hdel) & ? & ?)];
        [auto | |].
      * right. split_and!; [| done | done]. exists lg0, e. split_and!; [left | done..].
      * right. split_and!; [| done | done]. exists lg, e.
        split_and!; [by right | done..].
    + intros [? | ((lg & e & Hlg & He & Hdel) & ? & ?)]; [auto |].
      apply elem_of_cons in Hlg as [-> | Hlg].
      * left. right. split_and!; [| done | done]. by exists e.
      * right. split_and!; [| done | done]. by exists lg, e.
Qed.

(** *** The program follows the trace *)

Lemma enricher_results_existing (self : @MemoryEnricher Json) (msgs : list Message)
    (l : list (@record Json)) n :
  (MemoryEnricher_results env self msgs (Some (as_existing l)) n).1.2
  = map (λ r : record, (r.1.1, r.1.2, PRaw r.2)) l.
Proof. reflexivity. Qed.

Lemma enricher_ainvoke_results (self : @MemoryEnricher Json) (msgs : list Message)
    (existing : option (@existing_arg Json)) n :
  MemoryEnricher_ainvoke env self msgs existing n =
    let rp := MemoryEnricher_results env self msgs existing n in
    (merge_existing rp.1.1 rp.1.2, rp.2).
Proof. reflexivity. Qed.

Lemma ainvoke_step_ok store_map (enricher : @MemoryEnricher Json)
    (msgs : list Message) (context : list (@record Json)) st n :
  context = rs_store_based st ++ rs_ephemeral st →
  step_ok store_map st (ainvoke_step env store_map enricher msgs context st n).1.
Proof. intros Hctx. unfold step_ok. by split_and!. Qed.

Lemma ainvoke_phase_step (self : @MemoryStoreEnricher Json) (msgs : list Message)
    store_map st (phase : MemoryPhase) n :
  ainvoke_phase env self msgs store_map st phase n =
    let lgn :=
      ainvoke_step env store_map (_build_phase_enricher env self phase)
        (if default false (ph_include_messages phase) then msgs else [])
        (rs_store_based st ++ rs_ephemeral st) st n in
    (sl_state lgn.1, lgn.2).
Proof. reflexivity. Qed.

Lemma trace_phases_cons (self : @MemoryStoreEnricher Json) (msgs : list Message)
    store_map st (phase : MemoryPhase) (rest : list MemoryPhase) n :
  trace_phases env self msgs store_map st (phase :: rest) n =
    let lgn :=
      ainvoke_step env store_map (_build_phase_enricher env self phase)
        (if default false (ph_include_messages phase) then msgs else [])
        (rs_store_based st ++ rs_ephemeral st) st n in
    let tr := trace_phases env self msgs store_map (sl_state lgn.1) rest lgn.2 in
    (lgn.1 :: tr.1, tr.2).
Proof. reflexivity. Qed.

Lemma trace_phases_ok (self : @MemoryStoreEnricher Json) (msgs : list Message)
    store_map st (phases : list MemoryPhase) n :
  trace_ok store_map st (trace_phases env self msgs store_map st phases n).1.
Proof.
  revert st n. induction phases as [|phase rest IH]; intros st n; [done |].
  rewrite trace_phases_cons. cbv zeta. cbn [fst snd]. split; [| apply IH].
  by apply ainvoke_step_ok.
Qed.

Lemma ainvoke_phases_trace (self : @MemoryStoreEnricher Json) (msgs : list Message)
    store_map st (phases : list MemoryPhase) n :
  ainvoke_phases env self msgs store_map st phases n =
    let tr := trace_phases env self msgs store_map st phases n in
    (final_state st tr.1, tr.2).
Proof.
  revert st n. induction phases as [|phase rest IH]; intros st n; [done |].
  rewrite trace_phases_cons. cbv zeta.
  change (ainvoke_phases env self msgs store_map st (phase :: rest) n)
    with (ainvoke_phases env self msgs store_map
            (ainvoke_phase env self msgs store_map st phase n).1 rest
            (ainvoke_phase env self msgs store_map st phase n).2).
  rewrite IH, ainvoke_phase_step. cbv zeta. cbn [fst snd].
  by rewrite final_state_cons.
Qed.

Lemma ainvoke_trace_eq (self : @MemoryStoreEnricher Json) (store : gmap _ _)
    (config : Config) (msgs : list Message) n :
  let store_map := ainvoke_search env self store (namespacer env config) msgs in
  let lgn :=
    ainvoke_step env store_map (memory_enricher self) msgs
      (initial_store_based store_map) (initial_state store_map) n in
  let tr := trace_phases env self msgs store_map (sl_state lgn.1) (phases self) lgn.2 in
  ainvoke_trace env self store config msgs n = (lgn.1 :: tr.1, tr.2).
Proof. reflexivity. Qed.

Lemma ainvoke_trace_ok (self : @MemoryStoreEnricher Json) (store : gmap _ _)
    (config : Config) (msgs : list Message) n :
  let store_map := ainvoke_search env self store (namespacer env config) msgs in
  trace_ok store_map (initial_state store_map)
    (ainvoke_trace env self store config msgs n).1.
Proof.
  intros store_map. rewrite ainvoke_trace_eq. cbv zeta. cbn [fst snd].
  fold store_map. split; [| apply trace_phases_ok].
  apply ainvoke_step_ok. simpl. by rewrite app_nil_r.
Qed.

(** The locals of a finished run are the plan made from the last state of
    its trace. *)
Lemma ainvoke_run_trace (self : @MemoryStoreEnricher Json) (store : gmap _ _)
    (config : Config) (msgs : list Message) n :
  let store_map := ainvoke_search env self store (namespacer env config) msgs in
  let tr := ainvoke_trace env self store config msgs n in
  let st := final_state (initial_state store_map) tr.1 in
  let puts :=
    plan_puts store_map (namespacer env config) (rs_removed_ids st)
      (rs_store_based st ++ rs_ephemeral st) in
  let dels := plan_deletes store_map (rs_removed_ids st) in
  ainvoke_run env self store config msgs n =
    ({| o_store_map := store_map;
        o_store_based := rs_store_based st;
        o_ephemeral := rs_ephemeral st;
        o_removed_ids := rs_removed_ids st;
        o_final_puts := puts;
        o_final_deletes := dels;
        o_store := foldl store_delete (foldl store_put store puts) dels |}, tr.2).
Proof.
  intros store_map. cbv zeta. rewrite ainvoke_trace_eq. cbv zeta. cbn [fst snd].
  fold store_map. rewrite final_state_cons.
  set (lgn := ainvoke_step env store_map (memory_enricher self) msgs
                (initial_store_based store_map) (initial_state store_map) n).
  transitivity
    (let stn := ainvoke_phases env self msgs store_map (sl_state lgn.1)
                  (phases self) lgn.2 in
     let st := stn.1 in
     ({| o_store_map := store_map;
         o_store_based := rs_store_based st;
         o_ephemeral := rs_ephemeral st;
         o_removed_ids := rs_removed_ids st;
         o_final_puts :=
           plan_puts store_map (namespacer env config) (rs_removed_ids st)
             (rs_store_based st ++ rs_ephemeral st);
         o_final_deletes := plan_deletes store_map (rs_removed_ids st);
         o_store :=
           foldl store_delete
             (foldl store_put store
                (plan_puts store_map (namespacer env config) (rs_removed_ids st)
                   (rs_store_based st ++ rs_ephemeral st)))
             (plan_deletes store_map (rs_removed_ids st)) |}, stn.2)).
  - reflexivity.
  - cbv zeta. rewrite ainvoke_phases_trace. reflexivity.
Qed.

(** *** What the enricher adds to the extractor's results *)

Lemma merge_existing_elem (res : list (@ExtractedMemory Json))
    (pe : @prepared_existing_t Json) e :
  e ∈ merge_existing res pe → e ∈ res ∨ ∃ t, t ∈ pe ∧ e = (t.1.1, t.2).
Proof.
  unfold merge_existing. revert res.
  induction pe as [|t pe IH]; simpl; intros res Hin; [auto |].
  apply IH in Hin as [Hin | (t' & Ht' & ->)].
  - destruct (existsb _ res); [auto |].
    apply elem_of_app in Hin as [Hin | Hin]; [auto |].
    apply list_elem_of_singleton in Hin as ->. right. exists t. split; [left | done].
  - right. exists t'. split; [by right | done].
Qed.

Lemma merge_existing_fresh (res : list (@ExtractedMemory Json))
    (l : list (@record Json)) :
  NoDup (rid <$> l) → (∀ r e, r ∈ l → e ∈ res → e.1 ≠ rid r) →
  merge_existing res (map (λ r : record, (r.1.1, r.1.2, PRaw r.2)) l)
  = res ++ map (λ r : record, (rid r, PRaw r.2)) l.
Proof.
  unfold merge_existing. revert res.
  induction l as [|r l IH]; simpl; intros res Hnd Hres; [by rewrite app_nil_r |].
  apply NoDup_cons in Hnd as [Hr Hnd].
  assert (existsb (λ e : ExtractedMemory, (r.1.1 =? e.1)%string) res = false) as ->.
  { apply not_true_iff_false. intros Hex. apply existsb_exists in Hex as (e & He & Heq).
    apply String.eqb_eq in Heq. apply (Hres r e); [left | | done].
    by apply list_elem_of_In. }
  rewrite IH; [by rewrite <- app_assoc | done |].
  intros r' e Hr' He. apply elem_of_app in He as [He | He].
  - apply (Hres r' e); [by right | done].
  - apply list_elem_of_singleton in He as ->. simpl. intros Heq. apply Hr.
    apply list_elem_of_fmap. exists r'. split; [exact Heq | done].
Qed.

Lemma NoDup_fmap_eq {A B} (f : A → B) (l : list A) a b :
  NoDup (f <$> l) → a ∈ l → b ∈ l → f a = f b → a = b.
Proof.
  induction l as [|a0 l IH]; simpl; intros Hnd Ha Hb Hab;
    [by apply elem_of_nil in Ha |].
  apply NoDup_cons in Hnd as [Ha0 Hnd].
  apply elem_of_cons in Ha as [-> | Ha]; apply elem_of_cons in Hb as [-> | Hb].
  - done.
  - exfalso. apply Ha0. rewrite Hab. apply list_elem_of_fmap. by exists b.
  - exfalso. apply Ha0. rewrite <- Hab. apply list_elem_of_fmap. by exists a.
  - by apply IH.
Qed.

(** *** A record that no proposal touches *)

Lemma absorb_keeps store_map st (res : list (@ExtractedMemory Json)) x k (c : Json) :
  run_inv store_map st → (x, k, c) ∈ rs_store_based st →
  (∀ e, e ∈ res → benign x k c e) →
  (x, k, c) ∈ rs_store_based
    (absorb store_map st
       (merge_existing res
          (map (λ r : record, (r.1.1, r.1.2, PRaw r.2))
               (rs_store_based st ++ rs_ephemeral st)))).
Proof.
  intros (Hnd1 & Hnd2 & Hsb & _ & _) Hin Hres. rewrite absorb_eq. simpl.
  apply (get_values _ x). apply apply_all_keeps.
  - rewrite merge_init_eq. simpl. rewrite of_items_as_items by done.
    apply elem_get; [by rewrite as_items_keys |].
    unfold as_items. apply list_elem_of_fmap. by exists (x, k, c).
  - intros e He. apply merge_existing_elem in He as [He | (t & Ht & ->)]; [auto |].
    apply list_elem_of_fmap in Ht as (r & -> & Hr). simpl.
    split; [intros (m & Hm & _); discriminate Hm |].
    intros [_ Hx]. simpl in Hx.
    assert (r = (x, k, c)) as ->; [| done].
    apply elem_of_app in Hr as [Hr | Hr].
    + by apply (NoDup_fmap_eq rid (rs_store_based st)).
    + exfalso. destruct (Hsb x) as (_ & _ & Hnot).
      * apply list_elem_of_fmap. by exists (x, k, c).
      * apply Hnot. apply list_elem_of_fmap. by exists r.
Qed.

Lemma trace_keeps store_map prev lgs x k (c : Json) :
  run_inv store_map prev → trace_ok store_map prev lgs →
  (x, k, c) ∈ rs_store_based prev →
  (∀ lg e, lg ∈ lgs → e ∈ sl_results lg → benign x k c e) →
  (x, k, c) ∈ rs_store_based (final_state prev lgs).
Proof.
  revert prev. induction lgs as [|lg0 lgs IH]; intros prev Hinv Hok Hin Hres; [done |].
  destruct Hok as [(Hctx & Hopseq & Hst) Hok]. rewrite final_state_cons.
  apply IH; [| done | |].
  - rewrite Hst. by apply absorb_inv.
  - rewrite Hst, Hopseq, Hctx. apply absorb_keeps; [done | done |].
    intros e He. apply (Hres lg0); [left | done].
  - intros lg e Hlg He. apply (Hres lg); [by right | done].
Qed.

(** A record of the snapshot, unchanged, makes no put. *)
Lemma put_of_unchanged store_map target (R : gset string) x k (c : Json) :
  NoDup (OD.keys store_map) → (x, k, c) ∈ initial_store_based store_map →
  x ∉ R → put_of store_map target R (x, k, c) = None.
Proof.
  intros Hnd Hin HR. unfold initial_store_based in Hin.
  apply list_elem_of_fmap in Hin as ([i item] & Heq & Hin). simpl in Heq.
  simplify_eq. unfold put_of. rewrite decide_False by done.
  rewrite (elem_get _ _ _ Hnd Hin).
  rewrite bool_decide_eq_false_2; [done |]. naive_solver.
Qed.

(** *** A run in which the extractor proposes nothing *)

Lemma absorb_silent store_map st :
  NoDup (rid <$> rs_store_based st) → rs_ephemeral st = [] →
  absorb store_map st
    (merge_existing []
       (map (λ r : record, (r.1.1, r.1.2, PRaw r.2))
            (rs_store_based st ++ rs_ephemeral st))) = st.
Proof.
  intros Hnd Heph. rewrite Heph, app_nil_r.
  rewrite merge_existing_fresh;
    [| done | intros r e _ He; by apply elem_of_nil in He].
  rewrite absorb_eq. simpl. rewrite apply_all_passthrough.
  - rewrite merge_init_eq. simpl. rewrite Heph, of_items_as_items by done.
    rewrite as_items_values. destruct st as [sb eph R]. simpl in *. subst eph.
    f_equal. set_solver.
  - intros r Hr. rewrite merge_init_eq. simpl. rewrite of_items_as_items by done.
    apply elem_get; [by rewrite as_items_keys |].
    unfold as_items. apply list_elem_of_fmap. by exists r.
Qed.

Lemma trace_silent store_map prev lgs :
  NoDup (rid <$> rs_store_based prev) → rs_ephemeral prev = [] →
  trace_ok store_map prev lgs → (∀ lg, lg ∈ lgs → sl_results lg = []) →
  final_state prev lgs = prev.
Proof.
  revert prev. induction lgs as [|lg0 lgs IH]; intros prev Hnd Heph Hok Hres; [done |].
  destruct Hok as [(Hctx & Hopseq & Hst) Hok]. rewrite final_state_cons.
  assert (sl_state lg0 = prev) as Heq.
  { rewrite Hst, Hopseq, Hctx, (Hres lg0) by left. by apply absorb_silent. }
  rewrite Heq in Hok |- *. apply IH; [done | done | done |].
  intros lg Hlg. apply Hres. by right.
Qed.

(** *** Records the store does not back *)

Lemma trace_lookup_inv store_map prev lgs j lg :
  run_inv store_map prev → trace_ok store_map prev lgs → lgs !! j = Some lg →
  ∃ p, run_inv store_map p ∧ step_ok store_map p lg.
Proof.
  revert prev j. induction lgs as [|lg0 lgs IH]; intros prev j Hinv Hok Hj; [done |].
  destruct Hok as [Hstep Hok]. destruct j as [|j]; simpl in Hj.
  - simplify_eq. eauto.
  - apply (IH (sl_state lg0) j); [| done | done].
    destruct Hstep as (_ & _ & ->). by apply absorb_inv.
Qed.

Lemma run_inv_not_store_based store_map st x :
  run_inv store_map st → x ∉ OD.keys store_map →
  x ∉ OD.keys (store_dict (merge_init (rs_store_based st) (rs_ephemeral st))).
Proof.
  intros (Hnd1 & _ & Hsb & _) Hx. rewrite merge_init_eq. cbn [store_dict].
  rewrite of_items_as_items by done. rewrite as_items_keys.
  intros Hin. by destruct (Hsb x Hin).
Qed.

(** A write under an id that is not a key of the snapshot, followed in its
    step by no operation that names the id, leaves an ephemeral record. *)
Lemma absorb_write store_map st pre u post x :
  run_inv store_map st → x ∉ OD.keys store_map → upserts x u →
  (∀ e, e ∈ post → ¬ names x e) →
  (x, op_kind "Memory" u, op_content u)
    ∈ rs_ephemeral (absorb store_map st (pre ++ u :: post)).
Proof.
  intros Hinv Hx Hup Hpost. rewrite absorb_eq. cbv zeta. cbn [rs_ephemeral].
  apply (get_values _ x).
  apply (apply_all_write store_map _ pre u post x); [| done | done].
  by apply (run_inv_not_store_based store_map).
Qed.

(** An ephemeral record whose id is not a key of the snapshot keeps its
    content through a step whose proposals do not name the id: it is
    handed back with its content. *)
Lemma absorb_content store_map st (res : list (@ExtractedMemory Json)) x kd (c : Json) :
  run_inv store_map st → x ∉ OD.keys store_map → (x, kd, c) ∈ rs_ephemeral st →
  (∀ e, e ∈ res → ¬ names x e) →
  ∃ kd', (x, kd', c)
           ∈ rs_ephemeral
               (absorb store_map st
                  (merge_existing res
                     (map (λ r : record, (r.1.1, r.1.2, PRaw r.2))
                          (rs_store_based st ++ rs_ephemeral st)))).
Proof.
  intros Hinv Hx Hin Hres. pose proof Hinv as (Hnd1 & Hnd2 & Hsb & _).
  rewrite absorb_eq. cbv zeta. cbn [rs_ephemeral].
  destruct (apply_all_content store_map
              (merge_init (rs_store_based st) (rs_ephemeral st))
              (merge_existing res
                 (map (λ r : record, (r.1.1, r.1.2, PRaw r.2))
                      (rs_store_based st ++ rs_ephemeral st))) x kd c)
    as [kd' Hget].
  - by apply (run_inv_not_store_based store_map).
  - rewrite merge_init_eq. cbn [ephemeral_dict]. rewrite of_items_as_items by done.
    apply elem_get; [by rewrite as_items_keys |].
    unfold as_items. apply list_elem_of_fmap. by exists (x, kd, c).
  - intros e He. apply merge_existing_elem in He as [He | (t & Ht & ->)].
    + split; [intros Hd; apply (Hres e He); by right |].
      intros Hu. exfalso. apply (Hres e He). by left.
    + apply list_elem_of_fmap in Ht as (r & -> & Hr). simpl. split.
      * intros (m & Hm & _). discriminate Hm.
      * intros [_ Hrx]. simpl in Hrx. unfold op_content. simpl.
        apply elem_of_app in Hr as [Hr | Hr].
        -- exfalso. destruct (Hsb x) as (Hk & _); [| done].
           apply list_elem_of_fmap. exists r. by rewrite <- Hrx.
        -- by rewrite (NoDup_fmap_eq rid (rs_ephemeral st) r (x, kd, c) Hnd2 Hr Hin Hrx).
  - exists kd'. by apply (get_values _ x).
Qed.

Lemma trace_content store_map prev lgs x kd (c : Json) :
  run_inv store_map prev → trace_ok store_map prev lgs → x ∉ OD.keys store_map →
  (x, kd, c) ∈ rs_ephemeral prev →
  (∀ lg e, lg ∈ lgs → e ∈ sl_results lg → ¬ names x e) →
  ∃ kd', (x, kd', c) ∈ rs_ephemeral (final_state prev lgs).
Proof.
  revert prev kd. induction lgs as [|lg0 lgs IH]; intros prev kd Hinv Hok Hx Hin Hres;
    [by exists kd |].
  destruct Hok as [(Hctx & Hopseq & Hst) Hok]. rewrite final_state_cons.
  destruct (absorb_content store_map prev (sl_results lg0) x kd c Hinv Hx Hin)
    as [kd1 Hin1]; [intros e He; apply (Hres lg0); [left | done] |].
  apply (IH (sl_state lg0) kd1); [| done | done | |].
  - rewrite Hst. by apply absorb_inv.
  - by rewrite Hst, Hopseq, Hctx.
  - intros lg e Hlg He. apply (Hres lg); [by right | done].
Qed.
End run_facts.

(** ** The persistence plan *)
Section plan_facts.
Context {Json : Type} `{EqDecision Json}.
Implicit Types (store_map : list (string * @SearchItem Json)) (x : string)
  (R : gset string) (mem : list (@record Json)) (r : @record Json)
  (target : list string).

Lemma plan_puts_omap store_map target R mem :
  plan_puts store_map target R mem = omap (put_of store_map target R) mem.
Proof.
  unfold plan_puts.
  assert (∀ acc, foldl (λ final_puts r,
                          match put_of store_map target R r with
                          | Some p => final_puts ++ [p]
                          | None => final_puts
                          end) acc mem
                 = acc ++ omap (put_of store_map target R) mem) as Hgen.
  { induction mem as [|r mem IH]; simpl; intros acc; [by rewrite app_nil_r |].
    rewrite IH. destruct (put_of store_map target R r); [| done].
    by rewrite <- app_assoc. }
  apply (Hgen []).
Qed.

Lemma plan_puts_app store_map target R mem mem' :
  plan_puts store_map target R (mem ++ mem')
  = plan_puts store_map target R mem ++ plan_puts store_map target R mem'.
Proof. rewrite !plan_puts_omap. apply omap_app. Qed.

Lemma put_of_removed store_map target R r :
  rid r ∈ R → put_of store_map target R r = None.
Proof.
  destruct r as [[i k] c]. unfold rid, put_of; simpl. intros Hin.
  by rewrite decide_True.
Qed.

(** Records that make no put can be left out of the plan. *)
Lemma plan_puts_without store_map target R mem x :
  (∀ r, r ∈ mem → rid r = x → put_of store_map target R r = None) →
  plan_puts store_map target R mem
  = plan_puts store_map target R (filter (λ r, rid r ≠ x) mem).
Proof.
  rewrite !plan_puts_omap. induction mem as [|r mem IH]; simpl; intros Hx; [done |].
  rewrite filter_cons. case_decide as Hr.
  - simpl. destruct (put_of store_map target R r); [f_equal |];
      apply IH; intros r' Hr'; apply Hx; by right.
  - rewrite (Hx r); [| left | done].
    apply IH. intros r' Hr'. apply Hx. by right.
Qed.

Lemma plan_deletes_omap store_map R :
  plan_deletes store_map R
  = omap (λ sid, (λ art, (namespace art, key art)) <$> OD.get sid store_map)
         (elements R).
Proof.
  unfold plan_deletes. generalize (elements R). intros l.
  assert (∀ acc,
    foldl (λ final_deletes sid,
             match OD.get sid store_map with
             | Some art => final_deletes ++ [(namespace art, key art)]
             | None => final_deletes
             end) acc l
    = acc ++ omap (λ sid, (λ art, (namespace art, key art)) <$> OD.get sid store_map) l)
    as Hgen.
  { induction l as [|sid l IH]; simpl; intros acc; [by rewrite app_nil_r |].
    rewrite IH. destruct (OD.get sid store_map); simpl; [| done].
    by rewrite <- app_assoc. }
  apply (Hgen []).
Qed.

Lemma omap_ext_in {A B} (f g : A → option B) (l : list A) :
  (∀ a, a ∈ l → f a = g a) → omap f l = omap g l.
Proof.
  induction l as [|a l IH]; intros Hfg; [done |]. simpl.
  rewrite (Hfg a) by left. destruct (g a); [f_equal |]; apply IH;
    intros a' Ha'; apply Hfg; by right.
Qed.

Lemma put_of_store_backed store_map target R r :
  rid r ∉ R → is_Some (OD.get (rid r) store_map) →
  put_of store_map target R r = put_changed store_map r.
Proof.
  destruct r as [[i k] c]. unfold put_of, put_changed, rid; simpl.
  intros HR [art Hart]. rewrite decide_False by done. rewrite Hart.
  destruct (decide (differs art (i, k, c))) as [Hd | Hd].
  - rewrite bool_decide_eq_true_2; [done | exact Hd].
  - rewrite bool_decide_eq_false_2; [done | exact Hd].
Qed.

Lemma put_of_ephemeral store_map target R r :
  rid r ∉ R → OD.get (rid r) store_map = None →
  put_of store_map target R r = Some (put_new target r).
Proof.
  destruct r as [[i k] c]. unfold rid, put_of, put_new; simpl.
  intros HR Hget. rewrite decide_False by done. by rewrite Hget.
Qed.

(** The plan for ephemeral records: one put for each whose id is not removed. *)
Lemma plan_puts_ephemeral store_map target R mem :
  (∀ r, r ∈ mem → rid r ∉ R → OD.get (rid r) store_map = None) →
  plan_puts store_map target R mem
  = put_new target <$> filter (λ r, rid r ∉ R) mem.
Proof.
  rewrite plan_puts_omap. induction mem as [|r mem IH]; intros Hmem; [done |].
  simpl. rewrite filter_cons. destruct (decide (rid r ∉ R)) as [Hr | Hr].
  - rewrite put_of_ephemeral; [| done | apply Hmem; [left | done]].
    simpl. f_equal. apply IH. intros r' Hr'. apply Hmem. by right.
  - apply dec_stable in Hr. rewrite put_of_removed by done.
    apply IH. intros r' Hr'. apply Hmem. by right.
Qed.

(** The plan's deletes: one for each removed id, at its snapshot entry. *)
Lemma plan_deletes_spec store_map R :
  (∀ x, x ∈ R → is_Some (OD.get x store_map)) →
  Forall2 (λ x d, ∃ art, OD.get x store_map = Some art ∧ d = place art)
          (elements R) (plan_deletes store_map R).
Proof.
  intros HR. rewrite plan_deletes_omap.
  assert (∀ x, x ∈ elements R → is_Some (OD.get x store_map)) as Hl.
  { intros x Hx. apply HR. by apply elem_of_elements. }
  clear HR. induction (elements R) as [|x l IH]; simpl; [constructor |].
  destruct (Hl x) as [art Hart]; [left |]. rewrite Hart. simpl.
  constructor; [by exists art |]. apply IH. intros x' Hx'. apply Hl. by right.
Qed.

Lemma omap_all_None {A B} (f : A → option B) (l : list A) :
  (∀ a, a ∈ l → f a = None) → omap f l = [].
Proof.
  induction l as [|a l IH]; intros Hf; [done |]. simpl.
  rewrite (Hf a) by left. apply IH. intros a' Ha'. apply Hf. by right.
Qed.

Lemma plan_deletes_empty store_map : plan_deletes store_map ∅ = [].
Proof. unfold plan_deletes. by rewrite elements_empty. Qed.
End plan_facts.

(** ** The search aggregator *)
Section aggregator_facts.
Context {Json Message ToolArgs Config : Type} `{EqDecision Json}.
Context (env : @Collaborators Json Message ToolArgs Config).
Implicit Types (item a b : @SearchItem Json) (l : list (@SearchItem Json))
  (lists : list (list (@SearchItem Json))).

Lemma key_le_total (p q : option Q) : key_le p q = false → key_le q p = true.
Proof.
  destruct p as [x|], q as [y|]; simpl; try done.
  intros Hxy. apply Qle_bool_iff. apply Qlt_le_weak. apply Qnot_le_lt.
  intros Hle. apply Qle_bool_iff in Hle. congruence.
Qed.

Lemma key_le_trans (p q r : option Q) :
  key_le p q = true → key_le q r = true → key_le p r = true.
Proof.
  destruct p as [x|], q as [y|], r as [z|]; simpl; try done.
  rewrite !Qle_bool_iff. apply Qle_trans.
Qed.

Lemma insert_desc_perm a l : insert_desc a l ≡ₚ a :: l.
Proof.
  induction l as [|b l IH]; simpl; [done |].
  destruct (key_le (score b) (score a)); [done |].
  rewrite IH. apply Permutation_swap.
Qed.

Lemma sorted_desc_perm l : sorted_desc l ≡ₚ l.
Proof.
  unfold sorted_desc. induction l as [|a l IH]; simpl; [done |].
  by rewrite insert_desc_perm, IH.
Qed.

Lemma insert_desc_sorted a l :
  StronglySorted before l → StronglySorted before (insert_desc a l).
Proof.
  induction l as [|b l IH]; simpl; intros Hs.
  - repeat constructor.
  - apply StronglySorted_inv in Hs as [Hs Hb].
    destruct (key_le (score b) (score a)) eqn:Hba.
    + constructor; [by constructor |]. constructor; [done |].
      eapply Forall_impl; [exact Hb |]. intros c Hc. unfold before in *.
      by eapply key_le_trans.
    + constructor; [by apply IH |].
      rewrite insert_desc_perm. constructor; [| done].
      unfold before. by apply key_le_total.
Qed.

Lemma sorted_desc_sorted l : StronglySorted before (sorted_desc l).
Proof.
  unfold sorted_desc. induction l as [|a l IH]; simpl; [constructor |].
  by apply insert_desc_sorted.
Qed.

Lemma slice_to_nonneg {A} (limit : Z) (l : list A) :
  (0 ≤ limit)%Z → slice_to limit l = take (Z.to_nat limit) l.
Proof. intros Hl. unfold slice_to. by rewrite (proj2 (Z.leb_le 0 limit) Hl). Qed.

Lemma slice_to_sublist {A} (limit : Z) (l : list A) (a : A) :
  a ∈ slice_to limit l → a ∈ l.
Proof. unfold slice_to. destruct (0 <=? limit)%Z; apply subseteq_take. Qed.

(** The two nested loops assign the items of all lists, in order. *)
Lemma merge_results_eq lists :
  merge_results lists
  = OD.assign_all [] ((λ item, (ns_key item, item)) <$> concat lists).
Proof.
  unfold merge_results, OD.assign_all. generalize (@nil (list string * string * @SearchItem Json)).
  induction lists as [|l lists IH]; intros d; [done |].
  simpl. rewrite IH, fmap_app, foldl_app. f_equal.
  generalize d. clear. induction l as [|a l IHl]; intros d; [done |].
  simpl. by rewrite IHl.
Qed.

Lemma merge_results_keyed lists k item :
  (k, item) ∈ merge_results lists → k = ns_key item.
Proof.
  rewrite merge_results_eq. intros Hin.
  apply assign_all_elem in Hin as [Hin | Hin]; [by apply elem_of_nil in Hin |].
  apply list_elem_of_fmap in Hin as (it & Heq & _). by simplify_eq.
Qed.

Lemma merge_results_keys lists :
  OD.keys (merge_results lists) = ns_key <$> OD.values (merge_results lists).
Proof.
  pose proof (merge_results_keyed lists) as Hk.
  unfold OD.keys, OD.values. induction (merge_results lists) as [|[k it] d IH];
    simpl; [done |].
  f_equal.
  - apply Hk. left.
  - apply IH. intros k' it' Hin. apply Hk. by right.
Qed.

Lemma merge_results_NoDup lists : NoDup (OD.keys (merge_results lists)).
Proof. rewrite merge_results_eq. apply assign_all_NoDup, NoDup_nil_2. Qed.

Lemma last_occurrence {K V} `{EqDecision K} (k : K) (items : list (K * V)) :
  k ∈ items.*1 → ∃ pre v post, items = pre ++ (k, v) :: post ∧ k ∉ post.*1.
Proof.
  induction items as [|[k0 v0] items IH]; simpl; intros Hin;
    [by apply elem_of_nil in Hin |].
  destruct (decide (k ∈ items.*1)) as [Hk | Hk].
  - destruct (IH Hk) as (pre & v & post & -> & Hpost).
    by exists ((k0, v0) :: pre), v, post.
  - apply elem_of_cons in Hin as [-> | Hin]; [| done].
    by exists [], v0, items.
Qed.

(** An item is in the merged dictionary exactly when it is the last item
    seen with its namespace and key. *)
Lemma merge_results_last lists item :
  item ∈ OD.values (merge_results lists) ↔
  ∃ pre post, concat lists = pre ++ item :: post
              ∧ ∀ it, it ∈ post → ns_key it ≠ ns_key item.
Proof.
  split.
  - intros Hin. unfold OD.values in Hin.
    apply list_elem_of_fmap in Hin as ([k it] & -> & Hin). simpl.
    pose proof (merge_results_keyed _ _ _ Hin) as ->.
    pose proof (elem_get _ _ _ (merge_results_NoDup lists) Hin) as Hget.
    rewrite merge_results_eq in Hin, Hget.
    assert (ns_key it ∈ ((λ item, (ns_key item, item)) <$> concat lists).*1) as Hk.
    { apply assign_all_elem in Hin as [Hin | Hin]; [by apply elem_of_nil in Hin |].
      apply list_elem_of_fmap. by exists (ns_key it, it). }
    apply last_occurrence in Hk as (pre & v & post & Hsplit & Hpost).
    rewrite Hsplit, assign_all_get_last in Hget by done. simplify_eq.
    apply fmap_app_inv in Hsplit as (pre' & rest & -> & Hrest & Hcat).
    symmetry in Hrest. apply fmap_cons_inv in Hrest as (it' & post' & Hit & -> & ->).
    simplify_eq. exists pre', post'. split; [done |].
    intros it0 Hit0 Heq. apply Hpost. rewrite <- list_fmap_compose.
    apply list_elem_of_fmap. by exists it0.
  - intros (pre & post & Hcat & Hpost).
    apply (get_Some_values (ns_key item)). rewrite merge_results_eq, Hcat.
    rewrite fmap_app, fmap_cons. apply assign_all_get_last.
    rewrite <- list_fmap_compose. intros Hin.
    apply list_elem_of_fmap in Hin as (it & Heq & Hit). simpl in Heq.
    by apply (Hpost it).
Qed.
End aggregator_facts.

Section merge_claims.
Context {Json : Type} `{EqDecision Json}.
Implicit Types (e : @ExtractedMemory Json)
  (store_map : list (string * @SearchItem Json)) (x : string)
  (pre post ops : list (@ExtractedMemory Json)).

(** C9. A non-delete operation whose id is, when the operation is
    processed, the id of no store-backed and of no ephemeral record does
    not fail: [_apply_enricher_output] is a total function, and the
    operation appends a new ephemeral record under that id (of kind
    "Memory" for an unstructured payload), leaving the store-backed list,
    the other ephemeral records and the removed ids as they were. *)
Theorem C9_unknown_id_becomes_ephemeral store_map l1 l2 pre e :
  let before := _apply_enricher_output pre l1 store_map l2 in
  is_delete e = false →
  e.1 ∉ rid <$> before.1.1 → e.1 ∉ rid <$> before.1.2 →
  _apply_enricher_output (pre ++ [e]) l1 store_map l2
  = (before.1.1, before.1.2 ++ [(e.1, op_kind "Memory" e, op_content e)], before.2).
Proof. apply output_snoc_fresh. Qed.

(** C4, amended. For a non-delete operation the kind of the record it
    writes is the payload's declared type when the payload is structured;
    for an unstructured payload it is carried over from the store-backed
    record with the same id, and it is "Memory" when no record with that
    id exists, store-backed or ephemeral. *)
Theorem C4_kind_of_written_record store_map l1 l2 pre e :
  let before := _apply_enricher_output pre l1 store_map l2 in
  let after := _apply_enricher_output (pre ++ [e]) l1 store_map l2 in
  is_delete e = false →
  (∀ m, e.2 = PModel m →
        (e.1, repr_name m, model_dump m) ∈ after.1.1 ++ after.1.2)
  ∧ (∀ c k c0, e.2 = PRaw c → (e.1, k, c0) ∈ before.1.1 →
               (e.1, k, c) ∈ after.1.1)
  ∧ (∀ c, e.2 = PRaw c →
          e.1 ∉ rid <$> before.1.1 → e.1 ∉ rid <$> before.1.2 →
          (e.1, "Memory", c) ∈ after.1.2).
Proof.
  intros before after Hdel. split_and!.
  - intros m Hm. apply elem_of_app.
    destruct (decide (e.1 ∈ rid <$> before.1.1)) as [Hin | Hs].
    + left. apply list_elem_of_fmap in Hin as ([[i k] c0] & Hi & Hin).
      unfold rid in Hi. simpl in Hi. subst i.
      pose proof (output_snoc_store_backed store_map l1 l2 pre e k c0 Hdel Hin) as Hr.
      unfold op_kind, op_content in Hr. by rewrite Hm in Hr.
    + right. subst after.
      destruct (decide (e.1 ∈ rid <$> before.1.2)) as [Hin | He].
      * (* overwritten in the ephemeral dictionary *)
        subst before. destruct (output_ids pre l1 store_map l2) as [Hids1 Hids2].
        rewrite Hids1 in Hs. rewrite apply_output_eq, foldl_app. simpl.
        rewrite (apply_one_upsert _ _ _ Hdel).
        apply contains_false in Hs. rewrite Hs. simpl.
        apply (get_values _ e.1). rewrite get_set, decide_True by done.
        unfold op_kind, op_content. by rewrite Hm.
      * rewrite (output_snoc_fresh store_map l1 l2 pre e Hdel Hs He). simpl.
        apply elem_of_app. right. apply list_elem_of_singleton.
        unfold op_kind, op_content. by rewrite Hm.
  - intros c k c0 Hc Hin.
    pose proof (output_snoc_store_backed store_map l1 l2 pre e k c0 Hdel Hin) as Hr.
    unfold op_kind, op_content in Hr. by rewrite Hc in Hr.
  - intros c Hc Hs He. subst after.
    rewrite (output_snoc_fresh store_map l1 l2 pre e Hdel Hs He). simpl.
    apply elem_of_app. right. apply list_elem_of_singleton.
    unfold op_kind, op_content. by rewrite Hc.
Qed.

(** C2, amended. When a delete and a content update name the same id in
    one operation list, the last operation that names the id decides.
    (1) If no update of the id follows the delete, no record with the id is
    in either output list.  (2) In that case, and also when the id is a
    non-empty id of the store snapshot (the delete has then recorded it as
    removed), the plan made from the output has no put for the id.  (3) If
    an update of the id follows the delete and no operation after that
    update names the id, the store-backed output list has no record with
    the id and the ephemeral output list has exactly one, the update's
    record: the update's content, and as kind the payload's declared type,
    or "Memory" for an unstructured payload; and when the id is neither a
    key of the store snapshot nor among the removed ids, the plan made
    from the output puts that record in the target namespace under the
    id. *)
Theorem C2_delete_and_update_same_id store_map l1 l2 pre e post x :
  let out := _apply_enricher_output (pre ++ e :: post) l1 store_map l2 in
  let mem := out.1.1 ++ out.1.2 in
  deletes x e →
  ((∀ e', e' ∈ post → ¬ upserts x e') → x ∉ rid <$> mem)
  ∧ ((∀ e', e' ∈ post → ¬ upserts x e')
     ∨ (x ≠ EmptyString ∧ x ∈ OD.keys store_map) →
     ∀ target (R : gset string), list_to_set out.2 ⊆ R →
       plan_puts store_map target R mem
       = plan_puts store_map target R (filter (λ r, rid r ≠ x) mem))
  ∧ (∀ mid u rest, post = mid ++ u :: rest → upserts x u →
       (∀ e', e' ∈ rest → ¬ names x e') →
       x ∉ rid <$> out.1.1
       ∧ (x, op_kind "Memory" u, op_content u) ∈ out.1.2
       ∧ (∀ r, r ∈ mem → rid r = x → r = (x, op_kind "Memory" u, op_content u))
       ∧ (∀ target (R : gset string), x ∉ R → x ∉ OD.keys store_map →
            put_new target (x, op_kind "Memory" u, op_content u)
              ∈ plan_puts store_map target R mem)).
Proof.
  intros out mem Hdel.
  assert ((∀ e', e' ∈ post → ¬ upserts x e') → x ∉ rid <$> mem) as Habs.
  { intros Hpost. subst mem out.
    destruct (output_ids (pre ++ e :: post) l1 store_map l2) as [H1 H2].
    rewrite fmap_app, H1, H2, elem_of_app.
    destruct (apply_all_deleted store_map _ pre e post x (merge_init_wf l1 l2)
                Hdel Hpost).
    naive_solver. }
  split_and!; [done | |].
  - intros Hcase target R HR. apply plan_puts_without. intros r Hr Hrx.
    destruct Hcase as [Hpost | [Hne Hsm]].
    + exfalso. apply (Habs Hpost). apply list_elem_of_fmap. by exists r.
    + apply put_of_removed. rewrite Hrx. apply HR, elem_of_list_to_set.
      subst out. rewrite apply_output_eq. simpl. apply apply_all_removed.
      right. split_and!; [| done | done]. exists e. split; [| done].
      apply elem_of_app. right. left.
  - intros mid u rest Hpost Hup Hrest.
    set (m := foldl (apply_one store_map) (merge_init l1 l2) (pre ++ e :: post)).
    assert (x ∉ OD.keys (store_dict m)
            ∧ OD.get x (ephemeral_dict m)
              = Some (x, op_kind "Memory" u, op_content u)) as [Hs Hg].
    { subst m. rewrite Hpost.
      replace (pre ++ e :: mid ++ u :: rest)
        with ((pre ++ [e]) ++ (mid ++ u :: rest)) by by rewrite <- app_assoc.
      rewrite foldl_app. apply apply_all_write; [| done | done].
      destruct (apply_all_deleted store_map _ pre e [] x (merge_init_wf l1 l2) Hdel)
        as [? _]; [intros e' He'; by apply elem_of_nil in He' | done]. }
    destruct (output_ids (pre ++ e :: post) l1 store_map l2) as [H1 H2].
    cbv zeta in H1, H2. fold m out in H1, H2.
    destruct (apply_all_wf store_map _ (pre ++ e :: post) (merge_init_wf l1 l2))
      as (_ & Hnd2 & _ & Hk2). fold m in Hnd2, Hk2.
    assert (out.1.2 = OD.values (ephemeral_dict m)) as Hout2 by reflexivity.
    assert ((x, op_kind "Memory" u, op_content u) ∈ out.1.2) as Hin.
    { rewrite Hout2. by apply (get_values _ x). }
    assert (∀ r, r ∈ mem → rid r = x → r = (x, op_kind "Memory" u, op_content u))
      as Huniq.
    { intros r Hr Hrx. apply elem_of_app in Hr as [Hr | Hr].
      - exfalso. apply Hs. rewrite <- H1, <- Hrx. apply list_elem_of_fmap. by exists r.
      - rewrite Hout2 in Hr. apply (values_elem_get _ _ Hnd2 Hk2) in Hr.
        rewrite Hrx, Hg in Hr. by simplify_eq. }
    split_and!; [by rewrite H1 | done | done |].
    intros target R HR Hsm. rewrite plan_puts_omap. apply list_elem_of_omap.
    exists (x, op_kind "Memory" u, op_content u). split.
    + apply elem_of_app. by right.
    + apply put_of_ephemeral; [done | by apply get_None].
Qed.
End merge_claims.

(** ** Claims about a run *)
Section run_claims.
Context {Json Message ToolArgs Config : Type} `{EqDecision Json}.
Context (env : @Collaborators Json Message ToolArgs Config).
Implicit Types (self : @MemoryStoreEnricher Json)
  (store : gmap (list string * string) (@Value Json)) (config : Config)
  (msgs : list Message) (x : string) (lg : @step_log Json)
  (e : @ExtractedMemory Json) (pre post : list (@ExtractedMemory Json)).

(** C1, amended. In every run, when an operation processed by the merge
    engine marks an id for deletion: (1) right after that operation no
    record with the id is in the store-backed or the ephemeral working
    set, whatever the sets were; (2) the id is absent from the context
    given to a later phase as long as no operation after the delete, in
    the same step or in a step in between, writes under the id; (3) the
    final plan has no put for the id when the id is a non-empty id of the
    store snapshot, even if later operations reuse the id, and also when
    no later operation writes under it; (4) when the id is not a key of
    the store snapshot (the deleted record was only ephemeral) and a later
    phase writes under the id again, no operation after that write in its
    phase and no proposal of a later phase naming the id, the final
    ephemeral set has a record with the id and the written content, and
    the final plan puts that record in the target namespace under the
    id. *)
Theorem C1_deleted_id self store config msgs n x k lg pre e post :
  let store_map := ainvoke_search env self store (namespacer env config) msgs in
  let lgs := (ainvoke_trace env self store config msgs n).1 in
  let o := (ainvoke_run env self store config msgs n).1 in
  lgs !! k = Some lg → sl_ops lg = pre ++ e :: post → deletes x e →
  (∀ l1 l2,
     let out := _apply_enricher_output (pre ++ [e]) l1 store_map l2 in
     x ∉ rid <$> (out.1.1 ++ out.1.2))
  ∧ ((∀ e', e' ∈ post → ¬ upserts x e') →
     ∀ j lg', k < j → lgs !! j = Some lg' →
       (∀ i lgi e', k < i < j → lgs !! i = Some lgi → e' ∈ sl_ops lgi →
                    ¬ upserts x e') →
       x ∉ rid <$> sl_context lg')
  ∧ ((x ≠ EmptyString ∧ x ∈ OD.keys store_map)
     ∨ ((∀ e', e' ∈ post → ¬ upserts x e')
        ∧ (∀ i lgi e', k < i → lgs !! i = Some lgi → e' ∈ sl_ops lgi →
                       ¬ upserts x e')) →
     o_final_puts o
     = plan_puts store_map (namespacer env config) (o_removed_ids o)
         (filter (λ r, rid r ≠ x) (o_store_based o ++ o_ephemeral o)))
  ∧ (x ∉ OD.keys store_map →
     ∀ j lgj pre' u post', k < j → lgs !! j = Some lgj →
       sl_ops lgj = pre' ++ u :: post' → upserts x u →
       (∀ e', e' ∈ post' → ¬ names x e') →
       (∀ i lgi e', j < i → lgs !! i = Some lgi → e' ∈ sl_results lgi →
                    ¬ names x e') →
       x ∉ rid <$> o_store_based o
       ∧ ∃ kd, (x, kd, op_content u) ∈ o_ephemeral o
               ∧ put_new (namespacer env config) (x, kd, op_content u)
                   ∈ o_final_puts o).
Proof.
  intros store_map lgs o Hk Hops Hdel.
  pose proof (ainvoke_trace_ok env self store config msgs n) as Hok.
  cbv zeta in Hok. fold store_map lgs in Hok.
  destruct (trace_lookup_step _ _ _ _ _ Hok Hk) as (p & Hctx & Hopseq & Hst).
  destruct (trace_drop _ _ _ _ _ Hok Hk) as [Hok' Hfin].
  assert ((∀ e', e' ∈ post → ¬ upserts x e') →
          x ∉ rid <$> (rs_store_based (sl_state lg) ++ rs_ephemeral (sl_state lg)))
    as Hgone.
  { intros Hpost. rewrite Hst, Hops. by apply absorb_deleted. }
  split_and!.
  - intros l1 l2 out. subst out.
    destruct (output_ids (pre ++ [e]) l1 store_map l2) as [H1 H2].
    rewrite fmap_app, H1, H2, elem_of_app.
    destruct (apply_all_deleted store_map _ pre e [] x (merge_init_wf l1 l2) Hdel)
      as [? ?]; [intros e' He'; by apply elem_of_nil in He' |].
    naive_solver.
  - intros Hpost j lg' Hkj Hj Hbetween.
    apply (trace_context_absent store_map (sl_state lg) (drop (S k) lgs) x
             (j - S k) lg' Hok' (Hgone Hpost)).
    + rewrite lookup_drop. by replace (S k + (j - S k)) with j by lia.
    + intros i lgi e' Hi Hlgi He'. rewrite lookup_drop in Hlgi.
      apply (Hbetween (S k + i) lgi e'); [lia | done | done].
  - intros Hcase. subst o. rewrite ainvoke_run_trace. cbv zeta.
    cbn [fst o_final_puts o_removed_ids o_store_based o_ephemeral].
    fold store_map lgs. apply plan_puts_without. intros r Hr Hrx.
    destruct Hcase as [[Hne Hsm] | [Hpost Hlater]].
    + apply put_of_removed. rewrite Hrx.
      apply (trace_removed _ _ _ _ Hok). right. split_and!; [| done | done].
      exists lg, e. split_and!; [by eapply list_elem_of_lookup_2 | | done].
      rewrite Hops. apply elem_of_app. right. left.
    + exfalso. rewrite Hfin in Hr.
      apply (trace_final_absent store_map (sl_state lg) (drop (S k) lgs) x Hok'
               (Hgone Hpost)).
      * intros lgi e' Hlgi He'. apply list_elem_of_lookup in Hlgi as [i Hi].
        rewrite lookup_drop in Hi. apply (Hlater (S k + i) lgi e'); [lia | done..].
      * apply list_elem_of_fmap. by exists r.
  - intros Hx j lgj pre' u post' Hkj Hj Hopsj Hup Hpost' Hlater.
    assert (run_inv store_map (initial_state store_map)) as Hinv0
      by apply initial_inv, sort_results_NoDup.
    destruct (trace_lookup_inv _ _ _ _ _ Hinv0 Hok Hj)
      as (pj & Hinvj & _ & _ & Hstj).
    destruct (trace_drop _ _ _ _ _ Hok Hj) as [Hokj Hfinj].
    assert (run_inv store_map (sl_state lgj)) as Hinvj'
      by (rewrite Hstj; by apply absorb_inv).
    assert ((x, op_kind "Memory" u, op_content u) ∈ rs_ephemeral (sl_state lgj))
      as Hin.
    { rewrite Hstj, Hopsj. by apply absorb_write. }
    destruct (trace_content store_map (sl_state lgj) (drop (S j) lgs) x _ _
                Hinvj' Hokj Hx Hin) as [kd Hkd].
    { intros lgi e' Hlgi He'. apply list_elem_of_lookup in Hlgi as [i Hi].
      rewrite lookup_drop in Hi. apply (Hlater (S j + i) lgi e'); [lia | done..]. }
    rewrite <- Hfinj in Hkd.
    pose proof (final_inv _ _ _ Hinv0 Hok) as (_ & _ & Hsb & HR & _).
    subst o. rewrite ainvoke_run_trace. cbv zeta.
    cbn [fst o_final_puts o_removed_ids o_store_based o_ephemeral].
    fold store_map lgs. split.
    + intros Hin'. by destruct (Hsb x Hin').
    + exists kd. split; [done |].
      rewrite plan_puts_omap. apply list_elem_of_omap.
      exists (x, kd, op_content u). split; [apply elem_of_app; by right |].
      apply put_of_ephemeral; [| by apply get_None].
      intros HxR. apply Hx. by apply HR.
Qed.

(** C3. At the end of every run the plan holds exactly: for each surviving
    store-backed record (every record of the final store-backed set: none
    has a removed id, each has its snapshot entry) whose kind or content
    differs from the snapshot value, one put at the entry's own namespace
    and key; for each surviving ephemeral record (those of the final
    ephemeral set whose id is not removed) one put in the target namespace
    under the record's id; and for each removed id one delete at its
    snapshot entry's namespace and key, the removed ids being the snapshot
    ids that some operation marked for deletion, so that a deleted id that
    was never store-backed has no delete.  Ids are unique across the two
    final sets, so each record stands for one put at most.  The stable ids
    are taken to be non-empty, as UUID hex strings are. *)
Theorem C3_persistence_plan self store config msgs n :
  (∀ s, uuid5_hex env s ≠ EmptyString) →
  let store_map := ainvoke_search env self store (namespacer env config) msgs in
  let lgs := (ainvoke_trace env self store config msgs n).1 in
  let o := (ainvoke_run env self store config msgs n).1 in
  NoDup (rid <$> (o_store_based o ++ o_ephemeral o))
  ∧ (∀ r, r ∈ o_store_based o →
          rid r ∉ o_removed_ids o ∧ is_Some (OD.get (rid r) store_map))
  ∧ (∀ r, r ∈ o_ephemeral o → rid r ∉ o_removed_ids o →
          OD.get (rid r) store_map = None)
  ∧ o_final_puts o
    = omap (put_changed store_map) (o_store_based o)
      ++ (put_new (namespacer env config)
            <$> filter (λ r, rid r ∉ o_removed_ids o) (o_ephemeral o))
  ∧ (∀ x, x ∈ o_removed_ids o ↔
          x ∈ OD.keys store_map
          ∧ ∃ lg e, lg ∈ lgs ∧ e ∈ sl_ops lg ∧ deletes x e)
  ∧ Forall2 (λ x d, ∃ art, OD.get x store_map = Some art ∧ d = place art)
            (elements (o_removed_ids o)) (o_final_deletes o).
Proof.
  intros Hne store_map lgs o.
  pose proof (ainvoke_trace_ok env self store config msgs n) as Hok.
  cbv zeta in Hok. fold store_map lgs in Hok.
  assert (NoDup (OD.keys store_map)) as Hnd by apply sort_results_NoDup.
  assert (∀ x, x ∈ OD.keys store_map → x ≠ EmptyString) as Hkeys.
  { intros x Hx. apply sort_results_stable_ids in Hx as [item ->]. apply Hne. }
  pose proof (final_inv store_map _ lgs (initial_inv store_map Hnd) Hok) as Hinv.
  subst o. rewrite ainvoke_run_trace. cbv zeta.
  cbn [fst o_final_puts o_final_deletes o_removed_ids o_store_based o_ephemeral].
  fold store_map lgs.
  set (st := final_state (initial_state store_map) lgs) in *.
  destruct Hinv as (Hnd1 & Hnd2 & Hsb & HR & Hsm).
  assert (∀ r, r ∈ rs_store_based st →
               rid r ∉ rs_removed_ids st ∧ is_Some (OD.get (rid r) store_map)) as Hsb'.
  { intros r Hr. destruct (Hsb (rid r)) as (? & ? & ?).
    - apply list_elem_of_fmap. by exists r.
    - split; [done |]. by apply keys_is_Some. }
  assert (∀ r, r ∈ rs_ephemeral st → rid r ∉ rs_removed_ids st →
               OD.get (rid r) store_map = None) as Heph.
  { intros r Hr HrR. apply get_None. intros Hin.
    destruct (Hsm _ Hin) as [Hs | [? | Hempty]]; [| done | by apply (Hkeys _ Hin)].
    destruct (Hsb _ Hs) as (_ & _ & Hnot). apply Hnot.
    apply list_elem_of_fmap. by exists r. }
  split_and!.
  - rewrite fmap_app. apply NoDup_app. split_and!; [done | | done].
    intros x Hx. by destruct (Hsb x Hx) as (_ & _ & ?).
  - done.
  - done.
  - rewrite plan_puts_app. f_equal.
    + rewrite plan_puts_omap. apply omap_ext_in. intros r Hr.
      destruct (Hsb' r Hr). by apply put_of_store_backed.
    + by apply plan_puts_ephemeral.
  - intros x. unfold st. rewrite (trace_removed _ _ _ x Hok). simpl. split.
    + intros [Hx | (? & ? & ?)]; [set_solver | done].
    + intros [Hx ?]. right. split_and!; [done | by apply Hkeys | done].
  - apply plan_deletes_spec. intros x Hx. apply keys_is_Some. by apply HR.
Qed.

(** C6. In every run, a record of the store snapshot that the extractor's
    proposals leave alone, in every step: no proposal deletes its id, and a
    proposal that writes under its id writes the same kind and content
    again (so also when no proposal names the id at all), is in the final
    store-backed set with the same id, kind and content, is the only final
    record with that id, and makes no put: the plan is the plan of the
    other records. *)
Theorem C6_untouched_record self store config msgs n x k (c : Json) :
  let store_map := ainvoke_search env self store (namespacer env config) msgs in
  let lgs := (ainvoke_trace env self store config msgs n).1 in
  let o := (ainvoke_run env self store config msgs n).1 in
  (x, k, c) ∈ initial_store_based store_map →
  (∀ lg e, lg ∈ lgs → e ∈ sl_results lg → benign x k c e) →
  (x, k, c) ∈ o_store_based o
  ∧ (∀ r, r ∈ o_store_based o ++ o_ephemeral o → rid r = x → r = (x, k, c))
  ∧ put_of store_map (namespacer env config) (o_removed_ids o) (x, k, c) = None
  ∧ o_final_puts o
    = plan_puts store_map (namespacer env config) (o_removed_ids o)
        (filter (λ r, rid r ≠ x) (o_store_based o ++ o_ephemeral o)).
Proof.
  intros store_map lgs o Hin Hres.
  pose proof (ainvoke_trace_ok env self store config msgs n) as Hok.
  cbv zeta in Hok. fold store_map lgs in Hok.
  assert (NoDup (OD.keys store_map)) as Hnd by apply sort_results_NoDup.
  pose proof (initial_inv store_map Hnd) as Hinv0.
  pose proof (final_inv store_map _ lgs Hinv0 Hok) as Hinv.
  pose proof (trace_keeps store_map _ lgs x k c Hinv0 Hok Hin Hres) as Hkept.
  subst o. rewrite ainvoke_run_trace. cbv zeta.
  cbn [fst o_final_puts o_removed_ids o_store_based o_ephemeral].
  fold store_map lgs.
  set (st := final_state (initial_state store_map) lgs) in *.
  destruct Hinv as (Hnd1 & Hnd2 & Hsb & HR & Hsm).
  destruct (Hsb x) as (_ & HxR & Hxe).
  { apply list_elem_of_fmap. by exists (x, k, c). }
  assert (∀ r, r ∈ rs_store_based st ++ rs_ephemeral st → rid r = x → r = (x, k, c))
    as Huniq.
  { intros r Hr Hrx. apply elem_of_app in Hr as [Hr | Hr].
    - by apply (NoDup_fmap_eq rid (rs_store_based st)).
    - exfalso. apply Hxe. apply list_elem_of_fmap. by exists r. }
  pose proof (put_of_unchanged store_map (namespacer env config) _ x k c Hnd Hin HxR)
    as Hput.
  split_and!; [done | done | done |].
  apply plan_puts_without. intros r Hr Hrx. by rewrite (Huniq r Hr Hrx).
Qed.

(** C7. For every store, if the extractor proposes no operation in any
    step of a run, so that each step only hands the existing records back,
    the run returns an empty list of puts, plans no put and no delete, and
    leaves the store as it was; the working sets end as they started. *)
Theorem C7_no_operations_no_mutations self store config msgs n :
  let store_map := ainvoke_search env self store (namespacer env config) msgs in
  let lgs := (ainvoke_trace env self store config msgs n).1 in
  let o := (ainvoke_run env self store config msgs n).1 in
  (∀ lg, lg ∈ lgs → sl_results lg = []) →
  (ainvoke env self store config msgs n).1 = []
  ∧ o_final_puts o = [] ∧ o_final_deletes o = [] ∧ o_store o = store
  ∧ o_store_based o = initial_store_based store_map ∧ o_ephemeral o = [].
Proof.
  intros store_map lgs o Hres.
  pose proof (ainvoke_trace_ok env self store config msgs n) as Hok.
  cbv zeta in Hok. fold store_map lgs in Hok.
  assert (NoDup (OD.keys store_map)) as Hnd by apply sort_results_NoDup.
  assert (final_state (initial_state store_map) lgs = initial_state store_map) as Hfin.
  { apply (trace_silent store_map); [| done | done | done].
    simpl. by rewrite initial_store_based_ids. }
  assert (plan_puts store_map (namespacer env config) ∅
            (initial_store_based store_map ++ []) = []) as Hputs.
  { rewrite plan_puts_omap. apply omap_all_None. intros [[x k] c] Hr.
    rewrite app_nil_r in Hr. apply put_of_unchanged; [done | done | set_solver]. }
  change ((ainvoke env self store config msgs n).1) with (o_final_puts o).
  subst o. rewrite ainvoke_run_trace. cbv zeta.
  cbn [fst o_final_puts o_final_deletes o_store o_removed_ids o_store_based
       o_ephemeral].
  fold store_map lgs. rewrite Hfin. simpl.
  rewrite Hputs, plan_deletes_empty. done.
Qed.

(** *** The two code paths *)

Lemma foldl_pointwise {A B} (f g : A → B → A) (l : list B) (a : A) :
  (∀ a b, f a b = g a b) → foldl f a l = foldl g a l.
Proof.
  intros Hfg. revert a. induction l as [|b l IH]; simpl; intros a; [done |].
  by rewrite Hfg, IH.
Qed.

Lemma enricher_invoke_ainvoke (me : @MemoryEnricher Json) msgs
    (existing : option (@existing_arg Json)) n :
  (∀ sp pm pe, extractor_invoke env sp pm pe = extractor_ainvoke env sp pm pe) →
  MemoryEnricher_invoke env me msgs existing n
  = MemoryEnricher_ainvoke env me msgs existing n.
Proof.
  intros Hex. unfold MemoryEnricher_invoke, MemoryEnricher_ainvoke, bind.
  cbv zeta. by rewrite Hex.
Qed.

Lemma invoke_phases_ainvoke self msgs (store_map : list (string * @SearchItem Json))
    (st : @run_state Json) (phases : list MemoryPhase) n :
  (∀ sp pm pe, extractor_invoke env sp pm pe = extractor_ainvoke env sp pm pe) →
  invoke_phases env self msgs store_map st phases n
  = ainvoke_phases env self msgs store_map st phases n.
Proof.
  intros Hex. revert st n. induction phases as [|phase rest IH]; intros st n; [done |].
  cbn [invoke_phases ainvoke_phases]. unfold bind, ainvoke_phase, bind, ret.
  cbv zeta. rewrite enricher_invoke_ainvoke by done. unfold as_existing, absorb.
  destruct (_apply_enricher_output _ _ _ _) as [[sb eph] removed].
  cbn [fst snd]. apply IH.
Qed.

(** C8. Given the same store, configuration, messages and random draws,
    and collaborators whose blocking and awaitable forms return the same
    answers (query generation, search, extraction), [invoke] and [ainvoke]
    end with the same store map, the same final record sets and removed
    ids, the same puts and deletes and the same store, and return the same
    list of puts. *)
Theorem C8_invoke_agrees_with_ainvoke self store config msgs n :
  (∀ t, query_gen_invoke env t = query_gen_ainvoke env t) →
  (∀ st ns a l, store_search env st ns a l = store_asearch env st ns a l) →
  (∀ sp pm pe, extractor_invoke env sp pm pe = extractor_ainvoke env sp pm pe) →
  invoke_run env self store config msgs n = ainvoke_run env self store config msgs n
  ∧ invoke env self store config msgs n = ainvoke env self store config msgs n.
Proof.
  intros Hq Hs Hex.
  assert (invoke_run env self store config msgs n
          = ainvoke_run env self store config msgs n) as Hrun.
  { unfold invoke_run, ainvoke_run, ainvoke_enrich, ainvoke_search, bind, ret.
    cbv zeta. rewrite Hq.
    rewrite (map_ext _ (λ tc, store_asearch env store (namespacer env config) tc
                                (query_limit self)))
      by (intros; apply Hs).
    set (store_map := _sort_results env _ _).
    rewrite enricher_invoke_ainvoke by done.
    unfold as_existing, absorb, initial_store_based. cbn [rs_store_based rs_ephemeral
      rs_removed_ids].
    destruct (_apply_enricher_output _ _ _ _) as [[sb eph] removed].
    rewrite invoke_phases_ainvoke by done.
    set (stn := ainvoke_phases env self msgs store_map _ (phases self) _).
    match goal with
    | |- context [foldl ?f [] (rs_store_based ?s ++ rs_ephemeral ?s)] =>
        replace (foldl f [] (rs_store_based s ++ rs_ephemeral s))
          with (plan_puts store_map (namespacer env config) (rs_removed_ids s)
                  (rs_store_based s ++ rs_ephemeral s))
    end.
    2:{ unfold plan_puts. apply foldl_pointwise.
        intros acc [[sid k] c]. unfold put_of. case_decide; [done |].
        destruct (OD.get sid store_map); [| done]. by destruct (bool_decide _). }
    match goal with
    | |- context [foldl ?f [] (elements ?R)] =>
        replace (foldl f [] (elements R)) with (plan_deletes store_map R)
    end.
    2:{ unfold plan_deletes. apply foldl_pointwise.
        intros acc sid. unfold OD.contains. by destruct (OD.get sid store_map). }
    reflexivity. }
  split; [done |]. unfold invoke, ainvoke, bind. by rewrite Hrun.
Qed.
End run_claims.

(** ** Claims about the search aggregator and the enricher's inputs *)
Section aggregator_claims.
Context {Json Message ToolArgs Config : Type} `{EqDecision Json}.
Context (env : @Collaborators Json Message ToolArgs Config).
Implicit Types (a b it : @SearchItem Json) (lists : list (list (@SearchItem Json))).

(** C5. For every collection of result lists and every limit,
    [_sort_results] merges the items under (namespace, key): the merged
    items have distinct (namespace, key) and are, for each (namespace, key)
    seen, the last item seen with it; sorts them by score, highest first,
    a missing score counting as minus infinity ([key_le None _] holds), the
    sorted list being a permutation of the merged items; keeps [[:limit]]
    of them, the first [limit] for a limit that is not negative; and files
    each kept item under its stable id: every entry of the result is a kept
    item under its stable id, every kept item's stable id is a key of the
    result, and when the kept items' stable ids are distinct the result is
    the kept items, in order, each under its stable id.  In particular, two
    items with different (namespace, key) and scores 0.9 and 0.7, returned
    in either order, with limit 1 leave only the 0.9 item. *)
Theorem C5_search_aggregator lists (limit : Z) :
  let merged := OD.values (merge_results lists) in
  let kept := slice_to limit (sorted_desc merged) in
  let out := _sort_results env lists limit in
  NoDup (ns_key <$> merged)
  ∧ (∀ it, it ∈ merged ↔
           ∃ pre post, concat lists = pre ++ it :: post
                       ∧ ∀ it', it' ∈ post → ns_key it' ≠ ns_key it)
  ∧ sorted_desc merged ≡ₚ merged
  ∧ StronglySorted before (sorted_desc merged)
  ∧ ((0 ≤ limit)%Z → kept = take (Z.to_nat limit) (sorted_desc merged))
  ∧ (∀ sid it, (sid, it) ∈ out → sid = _stable_id env it ∧ it ∈ kept)
  ∧ (∀ it, it ∈ kept → _stable_id env it ∈ OD.keys out)
  ∧ (NoDup (_stable_id env <$> kept) →
     out = (λ it, (_stable_id env it, it)) <$> kept)
  ∧ (∀ a b, ns_key a ≠ ns_key b →
            score a = Some (9 # 10)%Q → score b = Some (7 # 10)%Q →
            concat lists = [a; b] ∨ concat lists = [b; a] →
            _sort_results env lists 1 = [(_stable_id env a, a)]).
Proof.
  intros merged kept out. split_and!.
  - subst merged. rewrite <- merge_results_keys. apply merge_results_NoDup.
  - apply merge_results_last.
  - apply sorted_desc_perm.
  - apply sorted_desc_sorted.
  - apply slice_to_nonneg.
  - intros sid it Hin. subst out. unfold _sort_results, OD.of_items in Hin.
    apply assign_all_elem in Hin as [Hin | Hin]; [by apply elem_of_nil in Hin |].
    apply list_elem_of_fmap in Hin as (it' & Heq & Hit'). by simplify_eq.
  - intros it Hit. subst out. unfold _sort_results, OD.of_items.
    apply assign_all_keys. right. rewrite <- list_fmap_compose.
    apply list_elem_of_fmap. by exists it.
  - intros Hnd. subst out. unfold _sort_results. apply of_items_id.
    by rewrite <- list_fmap_compose.
  - intros a b Hab Ha Hb Hcat. unfold _sort_results.
    rewrite merge_results_eq.
    assert (ns_key b ≠ ns_key a) as Hba by done.
    destruct Hcat as [-> | ->]; simpl.
    + rewrite (decide_False (P := ns_key b = ns_key a)) by done. simpl.
      by rewrite Ha, Hb.
    + rewrite (decide_False (P := ns_key a = ns_key b)) by done. simpl.
      by rewrite Ha, Hb.
Qed.

Lemma bind_apply {A B} (c : @Gen A) (k : A → @Gen B) n :
  bind c k n = k (c n).1 (c n).2.
Proof. reflexivity. Qed.

Lemma prepare_existing_strs (self : @MemoryEnricher Json) (l : list string) n :
  _prepare_existing env self (Some (ExStrs l)) n
  = (imap (λ i ex, (uuid4 env (n + i), "Memory",
                    PModel (with_content (hd (Memory env) (schemas self)) ex))) l,
     n + length l).
Proof.
  unfold _prepare_existing. revert n.
  induction l as [|ex l IH]; intros n.
  - simpl. unfold ret. by rewrite Nat.add_0_r.
  - cbn [gen_map]. rewrite bind_apply. cbv beta. rewrite (bind_apply (gen_map _ _)).
    rewrite IH. clear IH.
    unfold bind, ret, fresh_uuid. cbn [fst snd length imap].
    rewrite Nat.add_0_r. f_equal; [| lia]. f_equal.
    apply imap_ext. intros i x _. simpl. do 3 f_equal. lia.
Qed.

Lemma prepare_existing_strs_ids (self : @MemoryEnricher Json) (l : list string) n :
  (_prepare_existing env self (Some (ExStrs l)) n).1.*1.*1
  = uuid4 env <$> seq n (length l).
Proof.
  rewrite prepare_existing_strs. cbn [fst]. revert n.
  induction l as [|ex l IH]; intros n; [done |].
  cbn [imap length seq fmap list_fmap]. rewrite Nat.add_0_r. f_equal.
  rewrite <- IH. f_equal. f_equal. apply imap_ext. intros i x _. simpl.
  do 3 f_equal. lia.
Qed.

(** C10. Called with a list of plain strings, [_prepare_existing] wraps
    each string, in order, in the first configured schema, tags it "Memory"
    and gives it the next UUID drawn from the random source: the ids are
    the draws number [n], [n+1], ... and so depend on the state of the
    source and on the number of strings only, not on their content.  When
    distinct draws give distinct UUIDs, the ids of one call are distinct,
    and no id of a call is an id of any later call, whatever the strings, so
    a string passed again is given another id. *)
Theorem C10_string_memories_get_fresh_ids (self : @MemoryEnricher Json)
    (l : list string) n :
  let out := _prepare_existing env self (Some (ExStrs l)) n in
  out.1 = imap (λ i ex, (uuid4 env (n + i), "Memory",
                         PModel (with_content (hd (Memory env) (schemas self)) ex))) l
  ∧ out.2 = n + length l
  ∧ out.1.*1.*1 = uuid4 env <$> seq n (length l)
  ∧ ((∀ i j, uuid4 env i = uuid4 env j → i = j) →
     NoDup (out.1.*1.*1)
     ∧ ∀ (l' : list string) (n' : nat) (x : string),
         (out.2 ≤ n')%nat → x ∈ out.1.*1.*1 →
         x ∉ (_prepare_existing env self (Some (ExStrs l')) n').1.*1.*1).
Proof.
  intros out. subst out. split_and!.
  - by rewrite prepare_existing_strs.
  - by rewrite prepare_existing_strs.
  - apply prepare_existing_strs_ids.
  - intros Hinj. rewrite prepare_existing_strs_ids. split.
    + apply NoDup_fmap_2; [intros i j; apply Hinj | apply NoDup_seq].
    + intros l' n' x Hn' Hx. rewrite prepare_existing_strs_ids.
      rewrite prepare_existing_strs in Hn'. cbn [snd] in Hn'.
      apply list_elem_of_fmap in Hx as (i & -> & Hi). intros Hx.
      apply list_elem_of_fmap in Hx as (j & Hij & Hj). apply Hinj in Hij. subst j.
      apply elem_of_seq in Hi, Hj. lia.
Qed.
End aggregator_claims.

(** ** The merge engine on concrete operations *)

Lemma C9_witness :
  _apply_enricher_output
    ([("a", Demo.Note "Memory" "likes tea")] ++ [("b", PRaw "has a cat")]) [] [] []
  = ([], [("a", "Memory", "likes tea")] ++ [("b", "Memory", "has a cat")], []).
Proof.
  apply (C9_unknown_id_becomes_ephemeral [] [] []
           [("a", Demo.Note "Memory" "likes tea")] ("b", PRaw "has a cat")).
  - reflexivity.
  - vm_compute. apply not_elem_of_nil.
  - vm_compute. intros Hin. apply list_elem_of_singleton in Hin. discriminate Hin.
Defined.

Lemma C4_witness :
  is_delete ("s", @PRaw string "likes pasta") = false
  ∧ ("s", "Preference", "likes pasta")
    ∈ (_apply_enricher_output ([] ++ [("s", PRaw "likes pasta")])
         [("s", "Preference", "likes sushi")]
         [("s", Demo.item ["memories"; "ann"] "K" "Preference" "likes sushi" None)]
         []).1.1.
Proof.
  split; [reflexivity |].
  apply (C4_kind_of_written_record
           [("s", Demo.item ["memories"; "ann"] "K" "Preference" "likes sushi" None)]
           [("s", "Preference", "likes sushi")] [] [] ("s", PRaw "likes pasta")
           eq_refl)
    with (c0 := "likes sushi"); [reflexivity |].
  vm_compute. left.
Defined.

(** C4 as stated fails twice: with no prior record the kind is "Memory", not
    "note"; and the kind of a prior ephemeral record is not carried over. *)
Lemma C4_counterexample :
  (let out := _apply_enricher_output [("x", @PRaw string "likes tea")] [] [] [] in
   out.1.2 = [("x", "Memory", "likes tea")]
   ∧ ¬ ∃ c, ("x", "note", c) ∈ out.1.1 ++ out.1.2)
  ∧ (let out :=
       _apply_enricher_output [("x", @PRaw string "likes green tea")] [] []
         [("x", "Preference", "likes tea")] in
     out.1.2 = [("x", "Memory", "likes green tea")]
     ∧ ¬ ∃ c, ("x", "Preference", c) ∈ out.1.1 ++ out.1.2).
Proof.
  split; (split; [reflexivity |]); vm_compute; intros [c Hin];
    apply list_elem_of_singleton in Hin; discriminate Hin.
Qed.

Lemma C2_witness :
  let x := "h:memories/ann/K" in
  let store_map := [(x, Demo.item ["memories"; "ann"] "K" "Memory" "likes sushi" None)] in
  (let out :=
     _apply_enricher_output
       ([(x, Demo.Note "Memory" "likes pasta")] ++ (x, Demo.RemoveDoc x) :: [])
       [(x, "Memory", "likes sushi")] store_map [] in
   x ∉ rid <$> (out.1.1 ++ out.1.2))
  ∧ (let out :=
       _apply_enricher_output
         ([] ++ (x, Demo.RemoveDoc x) :: [(x, Demo.Note "Memory" "likes pasta")])
         [(x, "Memory", "likes sushi")] store_map [] in
     (x, "Memory", "likes pasta") ∈ out.1.2).
Proof.
  intros x store_map. split.
  - intros out.
    refine (proj1 (C2_delete_and_update_same_id store_map
                     [(x, "Memory", "likes sushi")] []
                     [(x, Demo.Note "Memory" "likes pasta")] (x, Demo.RemoveDoc x) [] x _) _).
    + eexists. split_and!; reflexivity.
    + intros e' He'. by apply elem_of_nil in He'.
  - intros out.
    refine (proj1 (proj2 (proj2 (proj2 (C2_delete_and_update_same_id store_map
                     [(x, "Memory", "likes sushi")] [] []
                     (x, Demo.RemoveDoc x) [(x, Demo.Note "Memory" "likes pasta")] x _))
                     [] (x, Demo.Note "Memory" "likes pasta") [] _ _ _))).
    + eexists. split_and!; reflexivity.
    + reflexivity.
    + split; reflexivity.
    + intros e' He'. by apply elem_of_nil in He'.
Defined.

(** C2 as stated fails when the update follows the delete: the update's
    record is in the output, and for an id that is not in the store snapshot
    the plan puts it. *)
Lemma C2_counterexample :
  let ops := [("x", Demo.RemoveDoc "x"); ("x", Demo.Note "Memory" "likes pasta")] in
  (let out :=
     _apply_enricher_output ops [("x", "Memory", "likes sushi")]
       [("x", Demo.item ["memories"; "ann"] "K" "Memory" "likes sushi" None)] [] in
   out = ([], [("x", "Memory", "likes pasta")], ["x"]))
  ∧ (let out := _apply_enricher_output ops [] [] [("x", "Memory", "likes sushi")] in
     out = ([], [("x", "Memory", "likes pasta")], [])
     ∧ plan_puts [] ["memories"; "ann"] (list_to_set out.2) (out.1.1 ++ out.1.2)
       = [{| put_namespace := ["memories"; "ann"]; put_key := "x";
             put_value := {| kind := "Memory"; content := "likes pasta" |} |}]).
Proof. vm_compute. done. Qed.

(** ** Runs with the scripted extractor *)

Lemma C1_witness :
  (let env := Demo.env_of Demo.reviver in
   let o := (ainvoke_run env (Demo.two_steps_with Demo.reviver) Demo.store1
               "ann" ["hi"] 0).1 in
   o_ephemeral o = [("h:memories/ann/K", "Memory", "likes pasta")]
   ∧ o_final_puts o = [])
  ∧ (let env := Demo.env_of Demo.scripted in
     let o := (ainvoke_run env Demo.three_steps ∅ "ann" ["hi"] 0).1 in
     ("uu", "Memory", "likes pasta") ∈ o_ephemeral o
     ∧ put_new ["memories"; "ann"] ("uu", "Memory", "likes pasta") ∈ o_final_puts o).
Proof.
  split.
  - intros env o. split; [vm_compute; reflexivity |].
    etrans.
    + refine (proj1 (proj2 (proj2
                (C1_deleted_id env (Demo.two_steps_with Demo.reviver) Demo.store1
                   "ann" ["hi"] 0 "h:memories/ann/K" 0 _ []
                   ("h:memories/ann/K", Demo.RemoveDoc "h:memories/ann/K") []
                   _ _ _))) _).
      * reflexivity.
      * vm_compute. reflexivity.
      * eexists. split_and!; reflexivity.
      * left. split; [discriminate |]. vm_compute. left.
    + vm_compute. reflexivity.
  - intros env o.
    assert (∃ kd, ("uu", kd, "likes pasta") ∈ o_ephemeral o
                  ∧ put_new ["memories"; "ann"] ("uu", kd, "likes pasta")
                      ∈ o_final_puts o) as (kd & Hin & Hput).
    { refine (proj2 (proj2 (proj2 (proj2
                (C1_deleted_id env Demo.three_steps ∅ "ann" ["hi"] 0 "uu" 1 _ []
                   ("uu", Demo.RemoveDoc "uu") [] _ _ _)))
                _ 2 _ [] ("uu", Demo.Note "Memory" "likes pasta") [] _ _ _ _ _ _)).
      - reflexivity.
      - vm_compute. reflexivity.
      - eexists. split_and!; reflexivity.
      - vm_compute. apply not_elem_of_nil.
      - lia.
      - reflexivity.
      - vm_compute. reflexivity.
      - split; reflexivity.
      - intros e' He'. by apply elem_of_nil in He'.
      - intros i lgi e' Hi Hlgi. exfalso.
        destruct i as [|[|[|i]]]; [lia | lia | lia |].
        vm_compute in Hlgi. discriminate Hlgi. }
    assert (kd = "Memory") as ->.
    { vm_compute in Hin. apply list_elem_of_singleton in Hin. by injection Hin. }
    exact (conj Hin Hput).
Defined.

(** C1 as stated fails for an id that was only ephemeral: the first step
    inserts a record under the fresh id [uu], the second step deletes it,
    the third writes under [uu] again, and the run puts that record. *)
Lemma C1_counterexample :
  let env := Demo.env_of Demo.scripted in
  let lgs := (ainvoke_trace env Demo.three_steps ∅ "ann" ["hi"] 0).1 in
  let o := (ainvoke_run env Demo.three_steps ∅ "ann" ["hi"] 0).1 in
  sl_ops <$> lgs
  = [[("uu", Demo.Note "Memory" "likes sushi")];
     [("uu", Demo.RemoveDoc "uu")];
     [("uu", Demo.Note "Memory" "likes pasta")]]
  ∧ deletes "uu" ("uu", Demo.RemoveDoc "uu")
  ∧ o_ephemeral o = [("uu", "Memory", "likes pasta")]
  ∧ o_final_puts o
    = [{| put_namespace := ["memories"; "ann"]; put_key := "uu";
          put_value := {| kind := "Memory"; content := "likes pasta" |} |}].
Proof.
  split_and!; [vm_compute; reflexivity | | vm_compute; reflexivity..].
  eexists. split_and!; reflexivity.
Qed.

Lemma C3_witness :
  let env := Demo.env_of Demo.scripted in
  let o := (ainvoke_run env Demo.three_steps Demo.store1 "ann" ["hi"] 0).1 in
  o_final_puts o
  = omap (put_changed (o_store_map o)) (o_store_based o)
    ++ (put_new ["memories"; "ann"]
          <$> filter (λ r, rid r ∉ o_removed_ids o) (o_ephemeral o)).
Proof.
  intros env o.
  refine (proj1 (proj2 (proj2 (proj2
            (C3_persistence_plan env Demo.three_steps Demo.store1 "ann" ["hi"] 0 _))))).
  intros s. discriminate.
Defined.

Lemma C6_witness :
  let env := Demo.env_of Demo.adder in
  let o := (ainvoke_run env (Demo.two_steps_with Demo.adder) Demo.store1
              "ann" ["hi"] 0).1 in
  ("h:memories/ann/K", "Memory", "likes sushi") ∈ o_store_based o.
Proof.
  intros env o.
  refine (proj1 (C6_untouched_record env (Demo.two_steps_with Demo.adder) Demo.store1
                   "ann" ["hi"] 0 "h:memories/ann/K" "Memory" "likes sushi" _ _)).
  - vm_compute. left.
  - assert (Forall (λ lg, Forall (benign "h:memories/ann/K" "Memory" "likes sushi")
                            (sl_results lg))
              (ainvoke_trace env (Demo.two_steps_with Demo.adder) Demo.store1
                 "ann" ["hi"] 0).1) as Hall.
    { vm_compute.
      repeat first [apply Forall_nil_2 | apply Forall_cons_2];
        (split;
         [ intros (m & Hm & _ & Hid); simpl in Hm; injection Hm as <-;
           discriminate Hid
         | intros [_ Heq]; discriminate Heq ]). }
    intros lg e Hlg He. rewrite Forall_forall in Hall. specialize (Hall lg Hlg).
    rewrite Forall_forall in Hall. by apply Hall.
Defined.

Lemma C7_witness :
  let env := Demo.env_of Demo.silent in
  let o := (ainvoke_run env (Demo.two_steps_with Demo.silent) Demo.store1
              "ann" ["hi"] 0).1 in
  o_final_puts o = [] ∧ o_final_deletes o = [] ∧ o_store o = Demo.store1.
Proof.
  intros env o.
  destruct (C7_no_operations_no_mutations env (Demo.two_steps_with Demo.silent)
              Demo.store1 "ann" ["hi"] 0) as (_ & Hputs & Hdels & Hstore & _).
  - apply Forall_forall. vm_compute. repeat constructor.
  - exact (conj Hputs (conj Hdels Hstore)).
Defined.

Lemma C8_witness :
  let env := Demo.env_of Demo.scripted in
  invoke env Demo.three_steps Demo.store1 "ann" ["hi"] 0
  = ainvoke env Demo.three_steps Demo.store1 "ann" ["hi"] 0.
Proof.
  intros env.
  refine (proj2 (C8_invoke_agrees_with_ainvoke env Demo.three_steps Demo.store1
                   "ann" ["hi"] 0 _ _ _)); intros; reflexivity.
Defined.

(** ** The aggregator and the enricher's inputs on concrete data *)

Lemma C5_witness :
  _sort_results (Demo.env_of Demo.silent) [[Demo.low]; [Demo.high]] 1
  = [("h:memories/ann/K1", Demo.high)].
Proof.
  refine (proj2 (proj2 (proj2 (proj2 (proj2 (proj2 (proj2 (proj2
            (C5_search_aggregator (Demo.env_of Demo.silent)
               [[Demo.low]; [Demo.high]] 1))))))))
            Demo.high Demo.low _ _ _ _).
  - intros Heq. discriminate Heq.
  - reflexivity.
  - reflexivity.
  - right. reflexivity.
Defined.

Lemma letters_inj i j : Demo.letters i = Demo.letters j → i = j.
Proof.
  revert j. induction i as [|i IH]; intros [|j]; simpl; intros Heq.
  - done.
  - injection Heq as Heq. destruct j; discriminate Heq.
  - injection Heq as Heq. destruct i; discriminate Heq.
  - injection Heq as Heq. f_equal. by apply IH.
Defined.

Lemma C10_witness :
  let env := Demo.env_of Demo.silent in
  let first_call :=
    _prepare_existing env Demo.plain_enricher (Some (ExStrs ["likes sushi"])) 0 in
  let second_call :=
    _prepare_existing env Demo.plain_enricher (Some (ExStrs ["likes sushi"]))
      first_call.2 in
  first_call.1.*1.*1 = ["u"] ∧ "u" ∉ second_call.1.*1.*1.
Proof.
  intros env first_call second_call. split; [reflexivity |].
  refine (proj2 (proj2 (proj2 (proj2
            (C10_string_memories_get_fresh_ids env Demo.plain_enricher
               ["likes sushi"] 0))) letters_inj)
            ["likes sushi"] first_call.2 "u" _ _).
  - reflexivity.
  - vm_compute. left.
Defined.

(** * Further properties of the code *)

(** ** [_apply_enricher_output] as a function of its arguments *)
Section merge_contract.
Context {Json : Type} `{EqDecision Json}.
Implicit Types (e : @ExtractedMemory Json) (st : @merge_state Json)
  (store_map : list (string * @SearchItem Json)) (x : string)
  (ops : list (@ExtractedMemory Json)).

Lemma keys_pop_sublist {K V} `{EqDecision K} (k : K) (d : list (K * V)) :
  OD.keys (OD.pop k d) `sublist_of` OD.keys d.
Proof.
  induction d as [|[k0 v0] d IH]; simpl; [done |].
  case_decide; simpl.
  - by apply sublist_cons.
  - by apply sublist_skip.
Qed.

Lemma keys_assign_all_sublist {K V} `{EqDecision K} (d items : list (K * V)) :
  OD.keys (OD.assign_all d items) `sublist_of` OD.keys d ++ items.*1.
Proof.
  revert d. induction items as [|[k v] items IH]; intros d; simpl.
  - by rewrite app_nil_r.
  - etrans; [apply IH |]. rewrite keys_set. case_decide.
    + apply sublist_app; [done |]. by apply sublist_cons.
    + by rewrite <- app_assoc.
Qed.

Lemma apply_one_store_keys store_map st e :
  OD.keys (store_dict (apply_one store_map st e)) `sublist_of` OD.keys (store_dict st).
Proof.
  destruct (is_delete e) eqn:Hdel.
  - apply is_delete_true in Hdel as (m & Hm & Hrm).
    rewrite (apply_one_delete _ _ _ _ Hm Hrm). simpl.
    destruct (json_doc_id m); simpl; [apply keys_pop_sublist | done].
  - rewrite (apply_one_upsert _ _ _ Hdel). cbv zeta.
    destruct (OD.contains e.1 (store_dict st)) eqn:Hc; simpl; [| done].
    apply contains_true in Hc. by rewrite keys_set_present.
Qed.

Lemma apply_all_store_keys store_map st ops :
  OD.keys (store_dict (foldl (apply_one store_map) st ops))
  `sublist_of` OD.keys (store_dict st).
Proof.
  revert st. induction ops as [|e ops IH]; intros st; simpl; [done |].
  etrans; [apply IH | apply apply_one_store_keys].
Qed.

(** The two lists the function returns never hold two records with one id,
    whatever the lists it was given; and the ids of the store-backed list
    it returns are ids of the store-backed list it was given, in the same
    order: no operation makes a record store-backed or moves one. *)
Theorem apply_output_ids (ops : list (@ExtractedMemory Json))
    (store_based ephemeral : list (@record Json)) store_map :
  let out := _apply_enricher_output ops store_based store_map ephemeral in
  NoDup (rid <$> out.1.1) ∧ NoDup (rid <$> out.1.2)
  ∧ rid <$> out.1.1 `sublist_of` rid <$> store_based.
Proof.
  intros out. subst out.
  destruct (output_ids ops store_based store_map ephemeral) as [H1 H2].
  rewrite H1, H2.
  destruct (apply_all_wf store_map _ ops (merge_init_wf store_based ephemeral))
    as (Hnd1 & Hnd2 & _).
  split_and!; [done | done |].
  etrans; [apply apply_all_store_keys |].
  rewrite merge_init_eq. simpl. unfold OD.of_items.
  etrans; [apply keys_assign_all_sublist |]. simpl.
  fold (OD.keys (as_items store_based)). by rewrite as_items_keys.
Qed.

(** With no operations, lists whose ids are unique come back as they are
    and nothing is removed. *)
Theorem apply_output_no_operations (store_based ephemeral : list (@record Json))
    store_map :
  NoDup (rid <$> store_based) → NoDup (rid <$> ephemeral) →
  _apply_enricher_output [] store_based store_map ephemeral
  = (store_based, ephemeral, []).
Proof.
  intros Hnd1 Hnd2. rewrite apply_output_eq, merge_init_eq. simpl.
  by rewrite !of_items_as_items, !as_items_values.
Qed.

(** Frame: operations that neither write under an id nor delete it leave
    the records with that id where they were, store-backed or ephemeral,
    with the same kind and content. *)
Theorem apply_output_frame (ops : list (@ExtractedMemory Json))
    (store_based ephemeral : list (@record Json)) store_map x :
  NoDup (rid <$> store_based) → NoDup (rid <$> ephemeral) →
  (∀ e, e ∈ ops → ¬ names x e) →
  let out := _apply_enricher_output ops store_based store_map ephemeral in
  ∀ r, rid r = x →
       (r ∈ out.1.1 ↔ r ∈ store_based) ∧ (r ∈ out.1.2 ↔ r ∈ ephemeral).
Proof.
  intros Hnd1 Hnd2 Hops out r Hr. subst out. rewrite apply_output_eq. simpl.
  destruct (apply_all_frame store_map (merge_init store_based ephemeral) ops x Hops)
    as [Hs He].
  destruct (apply_all_wf store_map _ ops (merge_init_wf store_based ephemeral))
    as (Hn1 & Hn2 & Hk1 & Hk2).
  assert (OD.get x (store_dict (merge_init store_based ephemeral))
          = OD.get x (as_items store_based)) as Hs0.
  { rewrite merge_init_eq. simpl. by rewrite of_items_as_items. }
  assert (OD.get x (ephemeral_dict (merge_init store_based ephemeral))
          = OD.get x (as_items ephemeral)) as He0.
  { rewrite merge_init_eq. simpl. by rewrite of_items_as_items. }
  rewrite Hs0 in Hs. rewrite He0 in He.
  assert (∀ l : list (@record Json), NoDup (rid <$> l) →
            (OD.get x (as_items l) = Some r ↔ r ∈ l)) as Hlist.
  { intros l Hl. split.
    - intros Hget. apply get_values in Hget. by rewrite as_items_values in Hget.
    - intros Hin. rewrite <- Hr. apply values_elem_get.
      + by rewrite as_items_keys.
      + apply as_items_keyed.
      + by rewrite as_items_values. }
  split.
  - rewrite <- (Hlist store_based Hnd1), <- Hs. split.
    + intros Hin. rewrite <- Hr. by apply values_elem_get.
    + apply get_values.
  - rewrite <- (Hlist ephemeral Hnd2), <- He. split.
    + intros Hin. rewrite <- Hr. by apply values_elem_get.
    + apply get_values.
Qed.

(** The third value the function returns holds exactly the ids that some
    [RemoveDoc] of the list targets and that are non-empty keys of the
    store map: deleting a record that is only ephemeral is not reported. *)
Theorem apply_output_removed (ops : list (@ExtractedMemory Json))
    (store_based ephemeral : list (@record Json)) store_map x :
  x ∈ (_apply_enricher_output ops store_based store_map ephemeral).2 ↔
  (∃ e, e ∈ ops ∧ deletes x e) ∧ x ≠ EmptyString ∧ x ∈ OD.keys store_map.
Proof.
  rewrite apply_output_eq. simpl. rewrite apply_all_removed. simpl.
  rewrite elem_of_nil. naive_solver.
Qed.
End merge_contract.

(** ** [MemoryEnricher.ainvoke], [invoke] and [__call__] *)
Section enricher_contract.
Context {Json Message ToolArgs Config : Type} `{EqDecision Json}.
Context (env : @Collaborators Json Message ToolArgs Config).
Implicit Types (res extra : list (@ExtractedMemory Json))
  (pe : @prepared_existing_t Json) (t : string * string * @payload Json)
  (self : @MemoryEnricher Json) (msgs : list Message).

Lemma existsb_id res (i : string) :
  existsb (λ r : @ExtractedMemory Json, (i =? r.1)%string) res = true ↔ i ∈ res.*1.
Proof.
  rewrite existsb_exists. split.
  - intros (r & Hr & Heq). apply String.eqb_eq in Heq. subst i.
    apply list_elem_of_fmap. exists r. split; [done |]. by apply list_elem_of_In.
  - intros Hin. apply list_elem_of_fmap in Hin as (r & -> & Hr).
    exists r. split; [by apply list_elem_of_In | apply String.eqb_refl].
Qed.

Lemma merge_existing_cons res t pe :
  merge_existing res (t :: pe)
  = merge_existing (if decide (t.1.1 ∈ res.*1) then res else res ++ [(t.1.1, t.2)]) pe.
Proof.
  unfold merge_existing. simpl. destruct (existsb _ res) eqn:Hex.
  - apply existsb_id in Hex. by rewrite decide_True.
  - rewrite decide_False; [done |]. intros Hin. apply existsb_id in Hin. congruence.
Qed.

Lemma merge_existing_prefix res pe :
  ∃ extra, merge_existing res pe = res ++ extra
           ∧ (∀ e, e ∈ extra → e.1 ∉ res.*1 ∧ ∃ t, t ∈ pe ∧ e = (t.1.1, t.2))
           ∧ NoDup (extra.*1).
Proof.
  revert res. induction pe as [|t pe IH]; intros res.
  - exists []. split_and!; [by rewrite app_nil_r | | apply NoDup_nil_2].
    intros e He. by apply elem_of_nil in He.
  - rewrite merge_existing_cons. case_decide as Hin.
    + destruct (IH res) as (extra & Heq & Hex & Hnd). exists extra.
      split_and!; [done | | done].
      intros e He. destruct (Hex e He) as (? & t' & ? & ?).
      split; [done |]. exists t'. split; [by right | done].
    + destruct (IH (res ++ [(t.1.1, t.2)])) as (extra & Heq & Hex & Hnd).
      exists ((t.1.1, t.2) :: extra).
      split_and!; [by rewrite Heq, <- app_assoc | |].
      * intros e He. apply elem_of_cons in He as [-> | He].
        -- split; [done |]. exists t. split; [left | done].
        -- destruct (Hex e He) as (Hne & t' & ? & ?). split.
           ++ intros Hres. apply Hne. rewrite fmap_app, elem_of_app. by left.
           ++ exists t'. split; [by right | done].
      * simpl. apply NoDup_cons. split; [| done]. intros Hx.
        apply list_elem_of_fmap in Hx as (e & Heq' & He).
        destruct (Hex e He) as [Hne _]. apply Hne.
        rewrite fmap_app, elem_of_app. right. simpl.
        apply list_elem_of_singleton. by rewrite Heq'.
Qed.

Lemma merge_existing_covers res pe t :
  t ∈ pe → t.1.1 ∈ (merge_existing res pe).*1.
Proof.
  revert res. induction pe as [|t0 pe IH]; intros res Hin;
    [by apply elem_of_nil in Hin |].
  rewrite merge_existing_cons. apply elem_of_cons in Hin as [-> | Hin]; [| by apply IH].
  destruct (merge_existing_prefix
              (if decide (t0.1.1 ∈ res.*1) then res else res ++ [(t0.1.1, t0.2)]) pe)
    as (extra & -> & _). rewrite fmap_app, elem_of_app. left.
  case_decide; [done |]. rewrite fmap_app, elem_of_app. right. simpl.
  by apply list_elem_of_singleton.
Qed.

Lemma merge_existing_untouched res pe t :
  NoDup (pe.*1.*1) → t ∈ pe → t.1.1 ∉ res.*1 →
  (t.1.1, t.2) ∈ merge_existing res pe.
Proof.
  revert res. induction pe as [|t0 pe IH]; intros res Hnd Hin Hres;
    [by apply elem_of_nil in Hin |].
  simpl in Hnd. apply NoDup_cons in Hnd as [Ht0 Hnd].
  rewrite merge_existing_cons. apply elem_of_cons in Hin as [-> | Hin].
  - rewrite decide_False by done.
    destruct (merge_existing_prefix (res ++ [(t0.1.1, t0.2)]) pe) as (extra & -> & _).
    rewrite !elem_of_app. left. right. by apply list_elem_of_singleton.
  - apply IH; [done | done |]. case_decide; [done |].
    rewrite fmap_app, elem_of_app. intros [? | Heq]; [done |].
    simpl in Heq. apply list_elem_of_singleton in Heq. apply Ht0. rewrite <- Heq.
    apply list_elem_of_fmap. exists t.1. split; [done |].
    apply list_elem_of_fmap. by exists t.
Qed.

(** What [MemoryEnricher.ainvoke] returns: the extractor's results, in
    order, followed by existing memories that no result names, each once
    and with the content it came with.  So every existing id is among the
    returned ids; the returned ids are distinct when the results' ids are;
    and an existing memory that no result names comes back unchanged (when
    the existing ids are distinct). *)
Theorem enricher_output_shape self msgs (existing : option (@existing_arg Json)) n :
  let rp := (MemoryEnricher_results env self msgs existing n).1 in
  let out := (MemoryEnricher_ainvoke env self msgs existing n).1 in
  (∃ extra, out = rp.1 ++ extra
            ∧ (∀ e, e ∈ extra →
                    e.1 ∉ rp.1.*1 ∧ ∃ t, t ∈ rp.2 ∧ e = (t.1.1, t.2))
            ∧ NoDup (extra.*1))
  ∧ (∀ t, t ∈ rp.2 → t.1.1 ∈ out.*1)
  ∧ (NoDup (rp.1.*1) → NoDup (out.*1))
  ∧ (NoDup (rp.2.*1.*1) →
     ∀ t, t ∈ rp.2 → t.1.1 ∉ rp.1.*1 → (t.1.1, t.2) ∈ out).
Proof.
  intros rp out. subst out. rewrite enricher_ainvoke_results. cbv zeta.
  cbn [fst]. fold rp. split_and!.
  - apply merge_existing_prefix.
  - intros t. apply merge_existing_covers.
  - intros Hnd. destruct (merge_existing_prefix rp.1 rp.2) as (extra & -> & Hex & Hnd').
    rewrite fmap_app. apply NoDup_app. split_and!; [done | | done].
    intros i Hi Hi'. apply list_elem_of_fmap in Hi' as (e & -> & He).
    by destruct (Hex e He).
  - intros Hnd t. by apply merge_existing_untouched.
Qed.

(** The two code paths of [MemoryEnricher] agree when the extractor's
    blocking and awaitable calls do. *)
Theorem enricher_invoke_agrees self msgs (existing : option (@existing_arg Json)) n :
  (∀ sp pm pe, extractor_invoke env sp pm pe = extractor_ainvoke env sp pm pe) →
  MemoryEnricher_invoke env self msgs existing n
  = MemoryEnricher_ainvoke env self msgs existing n.
Proof.
  intros Hex. unfold MemoryEnricher_invoke, MemoryEnricher_ainvoke, bind.
  cbv zeta. by rewrite Hex.
Qed.

Lemma gen_map_result_of (l : list (@payload Json * option string)) n :
  gen_map (result_of env) l n
  = (imap (λ i rr, (default (uuid4 env (n + i)) rr.2, rr.1)) l, n + length l).
Proof.
  revert n. induction l as [|rr l IH]; intros n.
  - simpl. unfold ret. by rewrite Nat.add_0_r.
  - cbn [gen_map]. rewrite bind_apply. cbv beta. rewrite (bind_apply (gen_map _ _)).
    rewrite IH. clear IH.
    unfold result_of, bind, ret, fresh_uuid. cbn [fst snd length imap].
    rewrite Nat.add_0_r. f_equal; [| lia]. f_equal.
    apply imap_ext. intros i x _. simpl. do 3 f_equal. lia.
Qed.

(** The ids of the extractor's results: a response whose metadata carries
    a [json_doc_id] gets that id, any other gets the UUID drawn at its
    place.  One UUID is drawn for the session tag and one for every
    response, also for those that carry an id; responses and metadata are
    paired up to the shorter of the two lists. *)
Theorem enricher_result_ids self msgs (existing : option (@existing_arg Json)) n :
  let pm := _prepare_messages env self msgs n in
  let pe := _prepare_existing env self existing pm.2 in
  let response :=
    extractor_ainvoke env
      {| tools := schemas self; x_enable_inserts := enable_inserts self;
         x_enable_deletes := enable_deletes self |} pm.1 pe.1 in
  let zipped := zip (responses response) (response_metadata response) in
  let out := MemoryEnricher_results env self msgs existing n in
  pm.2 = S n
  ∧ out.1.1 = imap (λ i rr, (default (uuid4 env (pe.2 + i)) rr.2, rr.1)) zipped
  ∧ out.2 = pe.2 + length zipped
  ∧ length zipped
    = Nat.min (length (responses response)) (length (response_metadata response)).
Proof.
  intros pm pe response zipped out. split_and!.
  - reflexivity.
  - subst out.
    change (MemoryEnricher_results env self msgs existing n)
      with ((gen_map (result_of env) zipped pe.2).1, pe.1,
            (gen_map (result_of env) zipped pe.2).2).
    by rewrite gen_map_result_of.
  - subst out.
    change (MemoryEnricher_results env self msgs existing n)
      with ((gen_map (result_of env) zipped pe.2).1, pe.1,
            (gen_map (result_of env) zipped pe.2).2).
    by rewrite gen_map_result_of.
  - subst zipped. apply length_zip_with.
Qed.

(** Round trip through [__call__]: memories handed back to the enricher
    are not lost.  Every id passed in is among the ids returned; and when
    the ids passed in are distinct, a memory that no result names is
    returned with the content it was passed with. *)
Theorem enricher_call_keeps_memories self msgs
    (existing : list (@ExtractedMemory Json)) n :
  let rp := (MemoryEnricher_results env self msgs (Some (ExPairs existing)) n).1 in
  let out := (MemoryEnricher_call env self msgs (Some existing) n).1 in
  (∀ m, m ∈ existing → m.1 ∈ out.*1)
  ∧ (NoDup (existing.*1) → ∀ m, m ∈ existing → m.1 ∉ rp.1.*1 → m ∈ out).
Proof.
  intros rp out.
  assert (rp.2 = (λ m : @ExtractedMemory Json, (m.1, pair_kind m.2, m.2)) <$> existing)
    as Hpe by reflexivity.
  assert (out = merge_existing rp.1 rp.2) as Hout.
  { subst out rp. unfold MemoryEnricher_call. cbn [fmap option_fmap option_map].
    by rewrite enricher_ainvoke_results. }
  pose proof (λ t, merge_existing_covers rp.1 rp.2 t) as Hcov.
  pose proof (λ Hnd t, merge_existing_untouched rp.1 rp.2 t Hnd) as Hkeep.
  rewrite <- Hout in Hcov, Hkeep. clearbody out.
  split.
  - intros m Hm. apply (Hcov (m.1, pair_kind m.2, m.2)). rewrite Hpe.
    apply list_elem_of_fmap. by exists m.
  - intros Hnd m Hm Hres.
    assert (m = ((m.1, pair_kind m.2, m.2).1.1, (m.1, pair_kind m.2, m.2).2)) as Heq
      by by destruct m.
    rewrite Heq. apply Hkeep; [| | done].
    + rewrite Hpe, <- !list_fmap_compose.
      by replace (fst ∘ fst ∘ _) with (@fst string (@payload Json)) by done.
    + rewrite Hpe. apply list_elem_of_fmap. by exists m.
Qed.
End enricher_contract.

(** ** Runs: what a quiet phase does, and runs on an empty search result *)
Section run_contract.
Context {Json Message ToolArgs Config : Type} `{EqDecision Json}.
Context (env : @Collaborators Json Message ToolArgs Config).
Implicit Types (self : @MemoryStoreEnricher Json)
  (store : gmap (list string * string) (@Value Json)) (config : Config)
  (msgs : list Message) (x : string) (lg : @step_log Json)
  (store_map : list (string * @SearchItem Json)) (st : @run_state Json).

Lemma set_middle {K V} `{EqDecision K} (k : K) (v v0 : V) (d d' : list (K * V)) :
  k ∉ OD.keys d → OD.set k v (d ++ (k, v0) :: d') = d ++ (k, v) :: d'.
Proof.
  induction d as [|[k1 v1] d IH]; simpl; intros Hk.
  - by rewrite decide_True.
  - apply not_elem_of_cons in Hk as [Hne Hk]. rewrite decide_False by done.
    by rewrite IH.
Qed.

(** Assigning to every key of a dictionary, in order, maps its values. *)
Lemma assign_all_overwrite {K V} `{EqDecision K} (f : V → V) (d0 d : list (K * V)) :
  NoDup (OD.keys (d0 ++ d)) →
  OD.assign_all (d0 ++ d) ((λ kv, (kv.1, f kv.2)) <$> d)
  = d0 ++ ((λ kv, (kv.1, f kv.2)) <$> d).
Proof.
  revert d0. induction d as [|[k v] d IH]; intros d0 Hnd; [done |].
  simpl. unfold OD.keys in Hnd. rewrite fmap_app in Hnd.
  apply NoDup_app in Hnd as (Hnd0 & Hdis & Hnd1).
  rewrite set_middle.
  - replace (d0 ++ (k, f v) :: d) with ((d0 ++ [(k, f v)]) ++ d)
      by by rewrite <- app_assoc.
    rewrite IH; [by rewrite <- app_assoc |].
    unfold OD.keys. rewrite !fmap_app. simpl in *.
    apply NoDup_cons in Hnd1 as [Hk Hnd1].
    apply NoDup_app. split_and!; [| | done].
    + apply NoDup_app. split_and!; [done | | apply NoDup_singleton].
      intros y Hy Hy'. apply list_elem_of_singleton in Hy' as ->.
      apply (Hdis k Hy). left.
    + intros y Hy Hy'. apply elem_of_app in Hy as [Hy | Hy].
      * apply (Hdis y Hy). by right.
      * apply list_elem_of_singleton in Hy as ->. done.
  - intros Hin. apply (Hdis k Hin). left.
Qed.

(** Handing ephemeral records back unstructured writes each again, with
    kind "Memory". *)
Lemma apply_all_ephemeral_passthrough store_map (m : @merge_state Json)
    (l : list (@record Json)) :
  (∀ r, r ∈ l → rid r ∉ OD.keys (store_dict m)) →
  foldl (apply_one store_map) m (map (λ r : record, (rid r, PRaw r.2)) l)
  = {| store_dict := store_dict m;
       ephemeral_dict :=
         OD.assign_all (ephemeral_dict m) ((λ r, (rid r, reset_kind r)) <$> l);
       removed_ids := removed_ids m |}.
Proof.
  revert m. induction l as [|r l IH]; intros m Hl; simpl; [by destruct m |].
  assert (rid r ∉ OD.keys (store_dict m)) as Hr by (apply Hl; left).
  rewrite IH.
  - rewrite apply_one_upsert by done. cbv zeta. simpl.
    pose proof Hr as Hget. apply get_None in Hget. rewrite Hget.
    apply contains_false in Hr. rewrite Hr. done.
  - intros r' Hr'. rewrite apply_one_upsert by done. cbv zeta. simpl.
    pose proof Hr as Hc. apply contains_false in Hc. rewrite Hc. simpl.
    apply Hl. by right.
Qed.

(** A step in which the extractor proposes nothing. *)
Lemma absorb_quiet store_map st :
  run_inv store_map st →
  absorb store_map st
    (merge_existing []
       (map (λ r : record, (r.1.1, r.1.2, PRaw r.2))
            (rs_store_based st ++ rs_ephemeral st)))
  = {| rs_store_based := rs_store_based st;
       rs_ephemeral := reset_kind <$> rs_ephemeral st;
       rs_removed_ids := rs_removed_ids st |}.
Proof.
  intros (Hnd1 & Hnd2 & Hsb & _ & _).
  assert (NoDup (rid <$> (rs_store_based st ++ rs_ephemeral st))) as Hnd.
  { rewrite fmap_app. apply NoDup_app. split_and!; [done | | done].
    intros x Hx. by destruct (Hsb x Hx) as (_ & _ & ?). }
  rewrite merge_existing_fresh;
    [| done | intros r e _ He; by apply elem_of_nil in He].
  rewrite absorb_eq. cbv zeta. rewrite app_nil_l, map_app, foldl_app.
  rewrite (apply_all_passthrough store_map
             (merge_init (rs_store_based st) (rs_ephemeral st)) (rs_store_based st)).
  2:{ intros r Hr. rewrite merge_init_eq. cbn [store_dict]. rewrite of_items_as_items by done.
      apply elem_get; [by rewrite as_items_keys |].
      unfold as_items. apply list_elem_of_fmap. by exists r. }
  rewrite apply_all_ephemeral_passthrough.
  2:{ intros r Hr. rewrite merge_init_eq. cbn [store_dict]. rewrite of_items_as_items by done.
      rewrite as_items_keys. intros Hin. destruct (Hsb _ Hin) as (_ & _ & Hnot).
      apply Hnot. apply list_elem_of_fmap. by exists r. }
  rewrite merge_init_eq. cbn [store_dict ephemeral_dict removed_ids].
  rewrite !of_items_as_items by done.
  rewrite as_items_values. f_equal; [| set_solver].
  assert ((λ r : @record Json, (rid r, reset_kind r)) <$> rs_ephemeral st
          = (λ kv : string * @record Json, (kv.1, reset_kind kv.2))
              <$> as_items (rs_ephemeral st)) as ->.
  { unfold as_items. rewrite <- list_fmap_compose. done. }
  rewrite (assign_all_overwrite reset_kind [] (as_items (rs_ephemeral st)));
    [| change ([] ++ as_items (rs_ephemeral st)) with (as_items (rs_ephemeral st));
       by rewrite as_items_keys].
  simpl. unfold OD.values, as_items. rewrite <- !list_fmap_compose. done.
Qed.

Lemma trace_lookup_succ store_map prev (lgs : list (@step_log Json)) j lgp lg :
  trace_ok store_map prev lgs → lgs !! j = Some lgp → lgs !! S j = Some lg →
  step_ok store_map (sl_state lgp) lg.
Proof.
  revert prev j. induction lgs as [|lg0 lgs IH]; intros prev j Hok Hj Hsj; [done |].
  destruct Hok as [Hstep Hok]. destruct j as [|j]; simpl in Hj, Hsj.
  - simplify_eq. destruct lgs as [|lg1 lgs]; [done |]. simpl in Hsj. simplify_eq.
    by destruct Hok.
  - by apply (IH (sl_state lg0) j).
Qed.

(** A later phase in which the extractor proposes nothing leaves the
    store-backed records and the removed ids as they are and keeps every
    ephemeral record's id and content, in order, but sets its kind to
    "Memory": the enricher hands the records back unstructured, and the
    merge engine carries a kind over from store-backed records only. *)
Theorem quiet_phase_resets_ephemeral_kinds self store config msgs n j lgp lg :
  let lgs := (ainvoke_trace env self store config msgs n).1 in
  lgs !! j = Some lgp → lgs !! S j = Some lg → sl_results lg = [] →
  rs_store_based (sl_state lg) = rs_store_based (sl_state lgp)
  ∧ rs_ephemeral (sl_state lg) = reset_kind <$> rs_ephemeral (sl_state lgp)
  ∧ rs_removed_ids (sl_state lg) = rs_removed_ids (sl_state lgp).
Proof.
  intros lgs Hj Hsj Hres.
  pose proof (ainvoke_trace_ok env self store config msgs n) as Hok.
  cbv zeta in Hok. fold lgs in Hok.
  set (store_map := ainvoke_search env self store (namespacer env config) msgs) in *.
  assert (run_inv store_map (sl_state lgp)) as Hinv.
  { apply (trace_inv store_map (initial_state store_map) lgs);
      [apply initial_inv, sort_results_NoDup | done |].
    by eapply list_elem_of_lookup_2. }
  destruct (trace_lookup_succ _ _ _ _ _ _ Hok Hj Hsj) as (Hctx & Hops & Hst).
  rewrite Hst, Hops, Hctx, Hres, absorb_quiet by done. done.
Qed.

(** When the search finds nothing (an empty store, or a limit of 0), a run
    has no store-backed record, removes nothing and deletes nothing, and
    puts every final ephemeral record in the target namespace under its
    id. *)
Theorem run_on_empty_search self store config msgs n :
  let o := (ainvoke_run env self store config msgs n).1 in
  ainvoke_search env self store (namespacer env config) msgs = [] →
  o_store_based o = [] ∧ o_removed_ids o = ∅ ∧ o_final_deletes o = []
  ∧ o_final_puts o = put_new (namespacer env config) <$> o_ephemeral o.
Proof.
  intros o Hsm.
  pose proof (ainvoke_trace_ok env self store config msgs n) as Hok.
  cbv zeta in Hok.
  subst o. rewrite ainvoke_run_trace. cbv zeta.
  cbn [fst o_final_puts o_final_deletes o_removed_ids o_store_based o_ephemeral].
  rewrite Hsm in Hok |- *.
  pose proof (final_inv _ _ _ (initial_inv [] (NoDup_nil_2)) Hok) as Hinv.
  set (st := final_state (initial_state []) _) in *.
  destruct Hinv as (_ & _ & Hsb & HR & _).
  assert (rs_store_based st = []) as Hsb0.
  { destruct (rs_store_based st) as [|r l] eqn:E; [done |]. exfalso.
    destruct (Hsb (rid r) ltac:(left)) as (Hin & _). by apply elem_of_nil in Hin. }
  assert (rs_removed_ids st = ∅) as HR0.
  { apply set_eq. intros x. split; [| set_solver].
    intros Hx. apply HR in Hx. by apply elem_of_nil in Hx. }
  rewrite Hsb0, HR0. split_and!; [done | done | apply plan_deletes_empty |].
  simpl. rewrite plan_puts_ephemeral by done.
  f_equal. clear Hsb. induction (rs_ephemeral st) as [|r l IH]; [done |].
  rewrite filter_cons_True; [by rewrite IH | by intros ?%elem_of_empty].
Qed.
End run_contract.

(** ** The search pipeline's [return_sorted] and the two sort orders *)
Section aggregator_contract.
Context {Json : Type}.
Implicit Types (a b c x y : @SearchItem Json) (l : list (@SearchItem Json))
  (msgs : list (option (list (@SearchItem Json)))).

(** The flattened tuple and the pair of namespace and key tell the same
    items apart. *)
Lemma flat_key_ns_key a b : flat_key a = flat_key b ↔ ns_key a = ns_key b.
Proof.
  unfold flat_key, ns_key. split.
  - intros Heq. apply app_inj_tail in Heq as [-> ->]. done.
  - intros [= -> ->]. done.
Qed.

Lemma set_tag_by {K A} `{EqDecision K} (kf : A → K) (v : A) (vs : list A) :
  OD.set (kf v) v (tag_by kf vs) = tag_by kf (put_by kf v vs).
Proof.
  unfold tag_by. induction vs as [|w vs IH]; simpl; [done |].
  case_decide as Heq; simpl; [by rewrite Heq | f_equal; exact IH].
Qed.

Lemma assign_all_tag_by {K A} `{EqDecision K} (kf : A → K) (vs items : list A) :
  OD.assign_all (tag_by kf vs) (tag_by kf items)
  = tag_by kf (foldl (λ vs v, put_by kf v vs) vs items).
Proof.
  revert vs. induction items as [|v items IH]; intros vs; [done |].
  simpl. rewrite set_tag_by. apply IH.
Qed.

Lemma values_tag_by {K A} (kf : A → K) (vs : list A) : OD.values (tag_by kf vs) = vs.
Proof.
  unfold OD.values, tag_by. rewrite <- list_fmap_compose. apply list_fmap_id.
Qed.

Lemma put_by_ext {K K' A} `{EqDecision K, EqDecision K'} (kf : A → K) (kg : A → K')
    (v : A) (vs : list A) :
  (∀ v w, kf v = kf w ↔ kg v = kg w) → put_by kf v vs = put_by kg v vs.
Proof.
  intros Hk. induction vs as [|w vs IH]; simpl; [done |].
  destruct (decide (kf v = kf w)) as [Heq | Hne].
  - rewrite decide_True; [done | by apply Hk].
  - rewrite decide_False; [by rewrite IH | by rewrite <- Hk].
Qed.

Lemma artifacts_of_eq msgs :
  artifacts_of msgs = OD.assign_all [] (tag_by flat_key (concat (default [] <$> msgs))).
Proof.
  unfold artifacts_of, OD.assign_all, tag_by.
  generalize (@nil (list string * @SearchItem Json)).
  induction msgs as [|m msgs IH]; intros d; [done |].
  simpl. rewrite IH, fmap_app, foldl_app. f_equal.
  generalize d. clear. induction (default [] m) as [|a l IHl]; intros d; [done |].
  simpl. by rewrite IHl.
Qed.

Lemma values_assign_keyed {K A} `{EqDecision K} (kf : A → K) (items : list A) :
  OD.values (OD.assign_all [] ((λ v, (kf v, v)) <$> items))
  = foldl (λ vs v, put_by kf v vs) [] items.
Proof.
  pose proof (assign_all_tag_by kf [] items) as Heq. unfold tag_by in Heq at 1 2.
  simpl in Heq. rewrite Heq. apply values_tag_by.
Qed.

(** Both aggregators keep the same items in the same order. *)
Lemma artifacts_values msgs :
  OD.values (artifacts_of msgs) = OD.values (merge_results (default [] <$> msgs)).
Proof.
  rewrite artifacts_of_eq, merge_results_eq. unfold tag_by.
  rewrite (values_assign_keyed flat_key), (values_assign_keyed ns_key).
  assert (∀ l vs, foldl (λ vs v, put_by flat_key v vs) vs l
                  = foldl (λ vs v, put_by ns_key v vs) vs l) as Hput; [| apply Hput].
  intros l. induction l as [|a l IH]; intros vs; [done |].
  simpl. rewrite (put_by_ext flat_key ns_key) by apply flat_key_ns_key. apply IH.
Qed.

Lemma insert_by_score_perm a l : insert_by_score a l ≡ₚ a :: l.
Proof.
  induction l as [|b l IH]; simpl; [done |].
  destruct (Qle_bool (score_or_zero b) (score_or_zero a)); [done |].
  rewrite IH. apply Permutation_swap.
Qed.

Lemma insert_by_score_sorted a l :
  StronglySorted (λ a b, (score_or_zero b <= score_or_zero a)%Q) l →
  StronglySorted (λ a b, (score_or_zero b <= score_or_zero a)%Q) (insert_by_score a l).
Proof.
  induction l as [|b l IH]; simpl; intros Hs.
  - repeat constructor.
  - apply StronglySorted_inv in Hs as [Hs Hb].
    destruct (Qle_bool (score_or_zero b) (score_or_zero a)) eqn:Hba.
    + apply Qle_bool_iff in Hba.
      constructor; [by constructor |]. constructor; [done |].
      eapply Forall_impl; [exact Hb |]. intros c Hc. simpl in *.
      by eapply Qle_trans.
    + constructor; [by apply IH |].
      rewrite insert_by_score_perm. constructor; [| done].
      apply Qlt_le_weak, Qnot_le_lt. intros Hle. apply Qle_bool_iff in Hle. congruence.
Qed.

(** [return_sorted] returns each merged item once: the items are those of
    the store enricher's aggregator on the same lists (for every flattened
    namespace and key the last item seen, a missing artifact counting as an
    empty list), none is dropped, and they are in descending order of
    score, a missing score counting as 0. *)
Theorem return_sorted_spec msgs :
  let merged := OD.values (merge_results (default [] <$> msgs)) in
  return_sorted msgs ≡ₚ merged
  ∧ StronglySorted (λ a b, (score_or_zero b <= score_or_zero a)%Q) (return_sorted msgs)
  ∧ NoDup (flat_key <$> return_sorted msgs)
  ∧ (∀ it, it ∈ return_sorted msgs ↔
           ∃ pre post, concat (default [] <$> msgs) = pre ++ it :: post
                       ∧ ∀ it', it' ∈ post → flat_key it' ≠ flat_key it).
Proof.
  intros merged.
  assert (return_sorted msgs ≡ₚ merged) as Hperm.
  { unfold return_sorted. rewrite artifacts_values. fold merged.
    induction merged as [|a l IH]; simpl; [done |].
    by rewrite insert_by_score_perm, IH. }
  split_and!; [done | | |].
  - unfold return_sorted. induction (OD.values (artifacts_of msgs)) as [|a l IH];
      simpl; [constructor | by apply insert_by_score_sorted].
  - rewrite Hperm. subst merged.
    assert (NoDup (ns_key <$> OD.values (merge_results (default [] <$> msgs)))) as Hnd
      by (rewrite <- merge_results_keys; apply merge_results_NoDup).
    revert Hnd. generalize (OD.values (merge_results (default [] <$> msgs))).
    intros l. induction l as [|a l IH]; simpl; intros Hnd; [constructor |].
    apply NoDup_cons in Hnd as [Ha Hnd]. apply NoDup_cons. split; [| by apply IH].
    intros Hin. apply Ha. apply list_elem_of_fmap in Hin as (b & Heq & Hb).
    apply flat_key_ns_key in Heq. rewrite Heq. apply list_elem_of_fmap. by exists b.
  - intros it. rewrite Hperm. subst merged. rewrite merge_results_last.
    split; intros (pre & post & Hcat & Hpost); exists pre, post; (split; [done |]);
      intros it' Hit' Heq; apply (Hpost it' Hit'); by apply flat_key_ns_key.
Qed.

Lemma insert_desc_scored a l1 l2 :
  is_Some (score a) → Forall (λ x, score x = None) l2 →
  insert_desc a (l1 ++ l2) = insert_desc a l1 ++ l2.
Proof.
  intros [q Hq] Hl2. induction l1 as [|y l1 IH]; simpl.
  - destruct l2 as [|y l2]; [done |]. simpl.
    apply Forall_cons in Hl2 as [Hy _]. by rewrite Hy.
  - destruct (key_le (score y) (score a)); [done |]. by rewrite IH.
Qed.

Lemma insert_desc_unscored a l1 l2 :
  score a = None → Forall (λ x, is_Some (score x)) l1 →
  Forall (λ x, score x = None) l2 →
  insert_desc a (l1 ++ l2) = l1 ++ a :: l2.
Proof.
  intros Ha Hl1 Hl2. induction l1 as [|y l1 IH]; simpl.
  - destruct l2 as [|y l2]; [done |]. simpl.
    apply Forall_cons in Hl2 as [Hy _]. by rewrite Hy, Ha.
  - apply Forall_cons in Hl1 as [[q Hy] Hl1]. rewrite Hy, Ha. simpl.
    by rewrite IH.
Qed.

(** In the store enricher's sort, items without a score come after every
    item with a score, in the order in which they left the merged
    dictionary: a missing score ranks below every number. *)
Theorem sort_results_unscored_last l :
  sorted_desc l
  = sorted_desc (filter (λ x, is_Some (score x)) l) ++ filter (λ x, score x = None) l.
Proof.
  unfold sorted_desc. induction l as [|a l IH]; [done |].
  cbn [foldr]. rewrite IH. rewrite !filter_cons.
  assert (Forall (λ x, score x = None) (filter (λ x, score x = None) l)) as Hu.
  { apply Forall_forall. intros x Hx. by apply list_elem_of_filter in Hx as [? _]. }
  assert (Forall (λ x, is_Some (score x))
            (foldr insert_desc [] (filter (λ x, is_Some (score x)) l))) as Hs.
  { apply Forall_forall. intros x Hx.
    pose proof (sorted_desc_perm (filter (λ x, is_Some (score x)) l)) as Hp.
    unfold sorted_desc in Hp. rewrite Hp in Hx.
    by apply list_elem_of_filter in Hx as [? _]. }
  destruct (score a) as [q|] eqn:Ha.
  - rewrite decide_True by by eexists. rewrite decide_False by done.
    cbn [foldr]. apply insert_desc_scored; [by eexists | done].
  - rewrite decide_False by (by intros [? ?]). rewrite decide_True by done.
    by apply insert_desc_unscored.
Qed.

Lemma insert_desc_filter (P : @SearchItem Json → Prop) `{∀ x, Decision (P x)} a l :
  (∀ y, y ∈ l → key_le (score y) (score a) = false → P a → ¬ P y) →
  filter P (insert_desc a l) = if decide (P a) then a :: filter P l else filter P l.
Proof.
  induction l as [|y l IH]; intros Hl; simpl.
  - rewrite filter_cons, filter_nil. by destruct (decide (P a)).
  - destruct (key_le (score y) (score a)) eqn:Hya.
    + by rewrite filter_cons.
    + rewrite !(filter_cons _ y). rewrite IH by (intros y' Hy'; apply Hl; by right).
      destruct (decide (P a)) as [Ha | Ha]; [| done].
      destruct (decide (P y)) as [Hy | Hy]; [| done].
      exfalso. by apply (Hl y ltac:(left) Hya Ha).
Qed.

(** The store enricher's sort is stable: the items whose sort key equals
    that of a given item stand in the sorted list in the order in which
    they left the merged dictionary. *)
Theorem sort_results_stable c l :
  filter (λ x, key_le (score c) (score x) = true ∧ key_le (score x) (score c) = true)
         (sorted_desc l)
  = filter (λ x, key_le (score c) (score x) = true ∧ key_le (score x) (score c) = true) l.
Proof.
  unfold sorted_desc. induction l as [|a l IH]; [done |].
  cbn [foldr]. rewrite insert_desc_filter.
  - rewrite IH. by rewrite filter_cons.
  - intros y _ Hya [Hca _] [_ Hyc].
    rewrite (key_le_trans _ _ _ Hyc Hca) in Hya. done.
Qed.

Lemma insert_by_score_desc a l :
  is_Some (score a) → Forall (λ x, is_Some (score x)) l →
  insert_by_score a l = insert_desc a l.
Proof.
  intros [q Ha] Hl. induction l as [|y l IH]; simpl; [done |].
  apply Forall_cons in Hl as [[p Hy] Hl].
  unfold score_or_zero at 1 2. rewrite Hy, Ha. simpl. by rewrite IH.
Qed.

(** When every item found has a score, the search pipeline returns the
    merged items in the very order the store enricher sorts them in: the
    two sorts differ only in where they put items without a score. *)
Theorem return_sorted_agrees_on_scored msgs :
  Forall (λ x, is_Some (score x)) (concat (default [] <$> msgs)) →
  return_sorted msgs = sorted_desc (OD.values (merge_results (default [] <$> msgs))).
Proof.
  intros Hall. unfold return_sorted, sorted_desc. rewrite artifacts_values.
  assert (Forall (λ x, is_Some (score x))
            (OD.values (merge_results (default [] <$> msgs)))) as Hm.
  { apply Forall_forall. intros x Hx. apply merge_results_last in Hx
      as (pre & post & Hcat & _).
    rewrite Forall_forall in Hall. apply Hall. rewrite Hcat.
    apply elem_of_app. right. left. }
  induction Hm as [|a l Ha Hl IH]; [done |].
  cbn [foldr]. rewrite IH. apply insert_by_score_desc; [done |].
  apply Forall_forall. intros x Hx. pose proof (sorted_desc_perm l) as Hp.
  unfold sorted_desc in Hp. rewrite Hp in Hx. rewrite Forall_forall in Hl. by apply Hl.
Qed.
End aggregator_contract.

(** ** Ids at the end of a run, and the settings of phase enrichers *)
Section run_ids.
Context {Json Message ToolArgs Config : Type} `{EqDecision Json}.
Context (env : @Collaborators Json Message ToolArgs Config).

(** At the end of a run no id stands for two records, store-backed or
    ephemeral; every store-backed id is a key of the snapshot and is not
    marked as removed; every removed id is a key of the snapshot; and every
    key of the snapshot is still store-backed or is removed (or is the
    empty string): no snapshot entry is forgotten. *)
Theorem run_partitions_snapshot (self : @MemoryStoreEnricher Json) (store : gmap _ _)
    (config : Config) (msgs : list Message) n :
  let o := (ainvoke_run env self store config msgs n).1 in
  NoDup (rid <$> (o_store_based o ++ o_ephemeral o))
  ∧ (∀ x, x ∈ rid <$> o_store_based o →
          x ∈ OD.keys (o_store_map o) ∧ x ∉ o_removed_ids o)
  ∧ (∀ x, x ∈ o_removed_ids o → x ∈ OD.keys (o_store_map o))
  ∧ (∀ x, x ∈ OD.keys (o_store_map o) →
          x ∈ rid <$> o_store_based o ∨ x ∈ o_removed_ids o ∨ x = EmptyString).
Proof.
  intros o. subst o. rewrite ainvoke_run_trace. cbv zeta.
  cbn [fst o_store_map o_removed_ids o_store_based o_ephemeral].
  pose proof (ainvoke_trace_ok env self store config msgs n) as Hok.
  cbv zeta in Hok.
  pose proof (final_inv _ _ _ (initial_inv _ (sort_results_NoDup env _ _)) Hok)
    as (Hnd1 & Hnd2 & Hsb & HR & Hall).
  split_and!; [| | done | done].
  - rewrite fmap_app. apply NoDup_app. split_and!; [done | | done].
    intros x Hx. by destruct (Hsb x Hx) as (_ & _ & ?).
  - intros x Hx. by destruct (Hsb x Hx) as (? & ? & _).
Qed.

(** A phase's enricher takes its schemas from the store enricher, as the
    first enricher does, but not the two switches: whatever
    [enable_inserts] and [enable_deletes] the store enricher was created
    with, a phase that does not set a switch allows the operation. *)
Theorem phase_enricher_settings (schemas_ : option (list (@Schema Json)))
    (instructions_ : string) (ins del : bool) (limit : Z)
    (phases_ : option (list MemoryPhase)) (phase : MemoryPhase) :
  let self :=
    create_memory_store_enricher env schemas_ instructions_ ins del limit phases_ in
  schemas (_build_phase_enricher env self phase) = schemas (memory_enricher self)
  ∧ _build_phase_enricher env self phase
    = _build_phase_enricher env
        (create_memory_store_enricher env schemas_ instructions_ true true limit phases_)
        phase
  ∧ (ph_enable_inserts phase = None →
     enable_inserts (_build_phase_enricher env self phase) = true)
  ∧ (ph_enable_deletes phase = None →
     enable_deletes (_build_phase_enricher env self phase) = true).
Proof.
  intros self. subst self. unfold _build_phase_enricher, create_memory_store_enricher.
  cbn [se_schemas memory_enricher create_memory_enricher schemas enable_inserts
       enable_deletes].
  split_and!; [done | done | by intros -> | by intros ->].
Qed.
End run_ids.

(** ** The thread summarizer's input *)
Section thread_extractor_contract.
Context {V : Type} (get_conversation : V → V).

Lemma get_filter_ne (m k : string) (d : list (string * V)) :
  OD.get k (filter (λ kv : string * V, kv.1 ≠ m) d)
  = if decide (k = m) then None else OD.get k d.
Proof.
  induction d as [|[k0 v0] d IH]; simpl; [by case_decide |].
  rewrite filter_cons. simpl. destruct (decide (k0 ≠ m)) as [Hne | Heq]; simpl.
  - rewrite IH. repeat case_decide; simplify_eq; done.
  - apply dec_stable in Heq. subst k0. rewrite IH.
    repeat case_decide; simplify_eq; done.
Qed.

Lemma assign_all_get (k : string) (d items : list (string * V)) :
  NoDup (items.*1) →
  OD.get k (OD.assign_all d items)
  = match OD.get k items with Some v => Some v | None => OD.get k d end.
Proof.
  revert d. induction items as [|[k0 v0] items IH]; intros d Hnd; [done |].
  simpl in Hnd. apply NoDup_cons in Hnd as [Hk0 Hnd].
  simpl. rewrite IH by done. rewrite get_set. simpl.
  destruct (decide (k = k0)) as [-> | Hne]; [| done].
  apply get_None in Hk0. by rewrite Hk0.
Qed.

(** [merge_messages] fails exactly when the input has no "messages".
    Otherwise its result has no "messages"; its "conversation" is the
    input's own "conversation" when the input has one, and the rendering of
    the messages only when it has none; and every other key maps to what
    it maps to in the input. *)
Theorem merge_messages_spec (input : list (string * V)) :
  NoDup (OD.keys input) →
  match merge_messages get_conversation input with
  | None => "messages" ∉ OD.keys input
  | Some out =>
      ∃ messages, OD.get "messages" input = Some messages
      ∧ OD.get "messages" out = None
      ∧ OD.get "conversation" out
        = Some (default (get_conversation messages) (OD.get "conversation" input))
      ∧ (∀ k, k ≠ "messages" → k ≠ "conversation" → OD.get k out = OD.get k input)
      ∧ NoDup (OD.keys out)
  end.
Proof.
  intros Hnd. unfold merge_messages.
  destruct (OD.get "messages" input) as [messages|] eqn:Hm; [| by apply get_None].
  exists messages.
  assert (NoDup (filter (λ kv : string * V, kv.1 ≠ "messages") input).*1) as Hf.
  { assert ((filter (λ kv : string * V, kv.1 ≠ "messages") input).*1
            `sublist_of` input.*1) as Hsub by apply fmap_sublist, sublist_filter.
    exact (sublist_NoDup _ _ Hnd Hsub). }
  split_and!; [done | | | |].
  - rewrite assign_all_get, get_filter_ne by done. done.
  - rewrite assign_all_get, get_filter_ne by done.
    rewrite decide_False by done. by destruct (OD.get "conversation" input).
  - intros k Hk1 Hk2. rewrite assign_all_get, get_filter_ne by done.
    rewrite decide_False by done. destruct (OD.get k input); [done |].
    simpl. by rewrite decide_False.
  - apply assign_all_NoDup. simpl. apply NoDup_singleton.
Qed.
End thread_extractor_contract.

(** ** The further properties on concrete data *)

Lemma apply_output_no_operations_witness :
  _apply_enricher_output [] [("s", "Memory", "likes sushi")] []
    [("e", "Memory", "has a cat")]
  = ([("s", "Memory", "likes sushi")], [("e", "Memory", "has a cat")], []).
Proof.
  apply (apply_output_no_operations [("s", "Memory", "likes sushi")]
           [("e", "Memory", "has a cat")] []); apply NoDup_singleton.
Defined.

Lemma apply_output_frame_witness :
  let out :=
    _apply_enricher_output [("a", Demo.Note "Memory" "likes tea")]
      [("s", "Memory", "likes sushi")] [] [("e", "Preference", "has a cat")] in
  ("s", "Memory", "likes sushi") ∈ out.1.1.
Proof.
  intros out.
  refine (proj2 (proj1 (apply_output_frame [("a", Demo.Note "Memory" "likes tea")]
                          [("s", "Memory", "likes sushi")]
                          [("e", "Preference", "has a cat")] [] "s" _ _ _
                          ("s", "Memory", "likes sushi") eq_refl)) _).
  - apply NoDup_singleton.
  - apply NoDup_singleton.
  - intros e He. apply list_elem_of_singleton in He as ->.
    intros [[_ Heq] | (m & Hm & _ & Hid)]; [discriminate Heq |].
    simpl in Hm. injection Hm as <-. discriminate Hid.
  - left.
Defined.

Lemma enricher_output_shape_witness :
  let env := Demo.env_of Demo.adder in
  ("m1", PRaw "likes sushi")
    ∈ (MemoryEnricher_ainvoke env Demo.plain_enricher ["hi"]
         (Some (ExPairs [("m1", PRaw "likes sushi")])) 0).1.
Proof.
  intros env.
  refine (proj2 (proj2 (proj2
            (enricher_output_shape env Demo.plain_enricher ["hi"]
               (Some (ExPairs [("m1", PRaw "likes sushi")])) 0)))
            _ ("m1", "__any__", PRaw "likes sushi") _ _).
  - vm_compute. apply NoDup_singleton.
  - vm_compute. left.
  - vm_compute. intros Hin. apply list_elem_of_singleton in Hin. discriminate Hin.
Defined.

Lemma enricher_invoke_agrees_witness :
  let env := Demo.env_of Demo.adder in
  MemoryEnricher_invoke env Demo.plain_enricher ["hi"] None 0
  = MemoryEnricher_ainvoke env Demo.plain_enricher ["hi"] None 0.
Proof.
  intros env. apply (enricher_invoke_agrees env Demo.plain_enricher ["hi"] None 0).
  intros; reflexivity.
Defined.

Lemma enricher_call_keeps_memories_witness :
  let env := Demo.env_of Demo.adder in
  ("m1", PRaw "likes sushi")
    ∈ (MemoryEnricher_call env Demo.plain_enricher ["hi"]
         (Some [("m1", PRaw "likes sushi")]) 0).1.
Proof.
  intros env.
  refine (proj2 (enricher_call_keeps_memories env Demo.plain_enricher ["hi"]
                   [("m1", PRaw "likes sushi")] 0)
            _ ("m1", PRaw "likes sushi") _ _).
  - vm_compute. apply NoDup_singleton.
  - left.
  - vm_compute. intros Hin. apply list_elem_of_singleton in Hin. discriminate Hin.
Defined.

Lemma quiet_phase_resets_ephemeral_kinds_witness :
  let env := Demo.env_of Demo.first_only in
  let lgs :=
    (ainvoke_trace env (Demo.two_steps_with Demo.first_only) ∅ "ann" ["hi"] 0).1 in
  match lgs !! 0, lgs !! 1 with
  | Some lgp, Some lg =>
      (rid <$> rs_ephemeral (sl_state lgp)) = ["uu"]
      ∧ rs_ephemeral (sl_state lg) = reset_kind <$> rs_ephemeral (sl_state lgp)
  | _, _ => False
  end.
Proof.
  intros env lgs.
  destruct (lgs !! 0) as [lgp|] eqn:E0; [| vm_compute in E0; discriminate E0].
  destruct (lgs !! 1) as [lg|] eqn:E1; [| vm_compute in E1; discriminate E1].
  assert (sl_results lg = []) as Hres.
  { assert (sl_results <$> lgs !! 1 = Some []) as H1 by (vm_compute; reflexivity).
    rewrite E1 in H1. by injection H1. }
  split.
  - assert ((λ lg, rid <$> rs_ephemeral (sl_state lg)) <$> lgs !! 0 = Some ["uu"])
      as H0 by (vm_compute; reflexivity).
    rewrite E0 in H0. by injection H0.
  - exact (proj1 (proj2 (quiet_phase_resets_ephemeral_kinds env
                           (Demo.two_steps_with Demo.first_only) ∅ "ann" ["hi"] 0
                           0 lgp lg E0 E1 Hres))).
Defined.

Lemma run_on_empty_search_witness :
  let env := Demo.env_of Demo.adder in
  let o := (ainvoke_run env Demo.one_step ∅ "ann" ["hi"] 0).1 in
  o_store_based o = [] ∧ o_removed_ids o = ∅ ∧ o_final_deletes o = []
  ∧ o_final_puts o = put_new ["memories"; "ann"] <$> o_ephemeral o.
Proof.
  intros env o.
  apply (run_on_empty_search env Demo.one_step ∅ "ann" ["hi"] 0).
  vm_compute. reflexivity.
Defined.

Lemma run_partitions_snapshot_witness :
  let env := Demo.env_of Demo.scripted in
  let o := (ainvoke_run env Demo.one_step Demo.store1 "ann" ["hi"] 0).1 in
  "h:memories/ann/K" ∈ rid <$> o_store_based o
  ∨ "h:memories/ann/K" ∈ o_removed_ids o
  ∨ "h:memories/ann/K" = EmptyString.
Proof.
  intros env o.
  refine (proj2 (proj2 (proj2
            (run_partitions_snapshot env Demo.one_step Demo.store1 "ann" ["hi"] 0)))
            "h:memories/ann/K" _).
  vm_compute. left.
Defined.

Lemma phase_enricher_settings_witness :
  let env := Demo.env_of Demo.silent in
  enable_inserts
    (_build_phase_enricher env
       (create_memory_store_enricher env None "Extract." false false 5
          (Some [Demo.default_phase]))
       Demo.default_phase)
  = true.
Proof.
  intros env.
  refine (proj1 (proj2 (proj2
            (phase_enricher_settings env None "Extract." false false 5
               (Some [Demo.default_phase]) Demo.default_phase))) _).
  reflexivity.
Defined.

Lemma return_sorted_agrees_on_scored_witness :
  return_sorted [Some [Demo.low; Demo.high]; None] = [Demo.high; Demo.low].
Proof.
  etrans.
  - apply (return_sorted_agrees_on_scored [Some [Demo.low; Demo.high]; None]).
    repeat constructor; by eexists.
  - vm_compute. reflexivity.
Defined.

Lemma merge_messages_spec_witness :
  let input := [("messages", "hi"); ("topic", "billing")] in
  match merge_messages (String.append "c:") input with
  | None => False
  | Some out =>
      OD.get "conversation" out = Some "c:hi" ∧ OD.get "topic" out = Some "billing"
      ∧ OD.get "messages" out = None
  end.
Proof.
  intros input.
  assert (NoDup (OD.keys input)) as Hnd.
  { apply NoDup_cons. split; [| apply NoDup_singleton].
    intros Hin. apply list_elem_of_singleton in Hin. discriminate Hin. }
  pose proof (merge_messages_spec (String.append "c:") input Hnd) as Hs.
  revert Hs. destruct (merge_messages (String.append "c:") input) as [out|]; intros Hs.
  - destruct Hs as (m & Hm & H1 & H2 & H3 & _).
    vm_compute in Hm. injection Hm as <-.
    split_and!; [exact H2 | | exact H1].
    rewrite H3; [reflexivity | discriminate | discriminate].
  - apply Hs. left.
Defined.
